(** * Reference geometry of the p8est octree library

    A shallow embedding of [src/p8est_geometry.c] (identity, shell and
    sphere mappings together with the default inverse-transpose Jacobian)
    and of the connect-type enumeration of [p8est_connectivity.h].

    Conventions of the embedding.
    - A C [double] is a real number of the Standard Library: every
      statement below is about exact real arithmetic, not about rounding.
    - [p4est_topidx_t] is a signed integer, modelled as [Z]; the C
      operators [/] and [%] on it truncate towards zero ([Z.quot],
      [Z.rem]).
    - A function that can abort (a failed [P4EST_ASSERT] in a debug build,
      or [SC_CHECK_NOT_REACHED] in any build) returns an [option]; [None]
      is the abort.
    - [P4EST_ASSERT] is compiled in only when [P4EST_DEBUG] is defined; the
      build flavour is the boolean [debug] taken by every function that
      contains an assertion.
    - Array out-parameters that a function assigns entry by entry with
      constant indices are returned as fresh values; the Jacobian array
      [J], which the sphere code writes through table-driven row indices,
      is threaded in and out. *)

From Stdlib Require Import Reals.Reals.
From Stdlib Require Import ZArith.ZArith.
From Stdlib Require Import Lists.List.
From Stdlib Require Import micromega.Lra micromega.Lia.
Import ListNotations.

Local Open Scope R_scope.

(** ** Connect-type enumeration ([p8est_connectivity.h]) *)

Module Connect.

Inductive p8est_connect_type_t : Set :=
| P8EST_CONNECT_FACE
| P8EST_CONNECT_EDGE
| P8EST_CONNECT_CORNER.

(** The integer value the C enumerator stands for. *)
Definition value (c : p8est_connect_type_t) : Z :=
  match c with
  | P8EST_CONNECT_FACE => 31
  | P8EST_CONNECT_EDGE => 32
  | P8EST_CONNECT_CORNER => 33
  end%Z.

Definition P8EST_CONNECT_DEFAULT : p8est_connect_type_t := P8EST_CONNECT_EDGE.
Definition P8EST_CONNECT_FULL : p8est_connect_type_t := P8EST_CONNECT_CORNER.

End Connect.

(** ** Small vectors and matrices *)

Record vec3 : Type := V3 { v0 : R; v1 : R; v2 : R }.

Record mat3 : Type := M3 { row0 : vec3; row1 : vec3; row2 : vec3 }.

(** [abc[i]] for a constant or computed index; an index outside 0..2 does
    not occur in the code and reads 0 here. *)
Definition vec_get (v : vec3) (i : Z) : R :=
  if (i =? 0)%Z then v0 v
  else if (i =? 1)%Z then v1 v
  else if (i =? 2)%Z then v2 v
  else 0.

Definition vec_set (v : vec3) (i : Z) (x : R) : vec3 :=
  if (i =? 0)%Z then V3 x (v1 v) (v2 v)
  else if (i =? 1)%Z then V3 (v0 v) x (v2 v)
  else if (i =? 2)%Z then V3 (v0 v) (v1 v) x
  else v.

Definition mat_row (m : mat3) (i : Z) : vec3 :=
  if (i =? 0)%Z then row0 m
  else if (i =? 1)%Z then row1 m
  else row2 m.

(** [J[i][j]] read. *)
Definition mat_get (m : mat3) (i j : Z) : R := vec_get (mat_row m i) j.

(** [J[i][j] = x]; the row index comes from [mapJ] in the sphere code and
    is always 0, 1 or 2, any other index leaves the matrix unchanged. *)
Definition mat_set (m : mat3) (i j : Z) (x : R) : mat3 :=
  if (i =? 0)%Z then M3 (vec_set (row0 m) j x) (row1 m) (row2 m)
  else if (i =? 1)%Z then M3 (row0 m) (vec_set (row1 m) j x) (row2 m)
  else if (i =? 2)%Z then M3 (row0 m) (row1 m) (vec_set (row2 m) j x)
  else m.

Definition mat_of (a00 a01 a02 a10 a11 a12 a20 a21 a22 : R) : mat3 :=
  M3 (V3 a00 a01 a02) (V3 a10 a11 a12) (V3 a20 a21 a22).

Definition mat_identity : mat3 := mat_of 1 0 0 0 1 0 0 0 1.

Definition mat_transpose (m : mat3) : mat3 :=
  mat_of (mat_get m 0 0) (mat_get m 1 0) (mat_get m 2 0)
         (mat_get m 0 1) (mat_get m 1 1) (mat_get m 2 1)
         (mat_get m 0 2) (mat_get m 1 2) (mat_get m 2 2).

Definition vec_dot (u v : vec3) : R := v0 u * v0 v + v1 u * v1 v + v2 u * v2 v.

Definition mat_col (m : mat3) (j : Z) : vec3 :=
  V3 (mat_get m 0 j) (mat_get m 1 j) (mat_get m 2 j).

Definition mat_mul (a b : mat3) : mat3 :=
  mat_of (vec_dot (row0 a) (mat_col b 0)) (vec_dot (row0 a) (mat_col b 1))
         (vec_dot (row0 a) (mat_col b 2))
         (vec_dot (row1 a) (mat_col b 0)) (vec_dot (row1 a) (mat_col b 1))
         (vec_dot (row1 a) (mat_col b 2))
         (vec_dot (row2 a) (mat_col b 0)) (vec_dot (row2 a) (mat_col b 1))
         (vec_dot (row2 a) (mat_col b 2)).

(** The determinant expression that the C code writes out after filling
    [J] (expansion along the first row). *)
Definition det3 (J : mat3) : R :=
  mat_get J 0 0 * (mat_get J 1 1 * mat_get J 2 2 - mat_get J 1 2 * mat_get J 2 1)
  + mat_get J 0 1 * (mat_get J 1 2 * mat_get J 2 0 - mat_get J 1 0 * mat_get J 2 2)
  + mat_get J 0 2 * (mat_get J 1 0 * mat_get J 2 1 - mat_get J 1 1 * mat_get J 2 0).

Definition vec_scale (s : R) (v : vec3) : vec3 := V3 (s * v0 v) (s * v1 v) (s * v2 v).

Definition norm3 (v : vec3) : R := sqrt (v0 v * v0 v + v1 v * v1 v + v2 v * v2 v).

(** ** The C library functions used by the geometry code *)

Module Cmath.

Definition M_PI_4 : R := PI / 4.

(** [log] of a non-positive argument has no real value; [ln] gives 0. *)
Definition log (x : R) : R := ln x.

(** Whether the real [y] is an integer (then it is [Int_part y]). *)
Definition is_integer (y : R) : {y = IZR (Int_part y)} + {y <> IZR (Int_part y)} :=
  Req_dec_T y (IZR (Int_part y)).

(** [pow (x, y)] of the C library on reals: [exp (y * ln x)] for a positive
    base, and the integer power for any other base with an integral
    exponent.  Where C returns an infinity or a NaN (zero base with a
    negative exponent, negative base with a fractional exponent) there is
    no real result; the total functions of the Standard Library give 0. *)
Definition pow (x y : R) : R :=
  if Rlt_dec 0 x then Rpower x y
  else if is_integer y then powerRZ x (Int_part y)
  else 0.

End Cmath.

Definition Rltb (a b : R) : bool := if Rlt_dec a b then true else false.

(** [P4EST_ASSERT (c)]: checked in a debug build only. *)
Definition P4EST_ASSERT (debug : bool) (c : bool) : option unit :=
  if debug then (if c then Some tt else None) else Some tt.

Notation "'do' x <- m ; k" :=
  (match m with Some x => k | None => None end)
  (at level 10, x name, m at level 100, k at level 200, only parsing).

Notation "'check' m ; k" :=
  (match m with Some _ => k | None => None end)
  (at level 10, m at level 100, k at level 200, only parsing).

(** ** Geometry objects *)

(** [p8est_geometry_t]: the four function pointers.  The first C argument
    (the geometry itself) is captured by the closures. *)
Record p8est_geometry_t : Type := {
  X : Z -> vec3 -> option vec3;
  D : Z -> vec3 -> option R;
  J : Z -> vec3 -> mat3 -> option (mat3 * R);
  Jit : Z -> vec3 -> mat3 -> option (mat3 * R)
}.

Inductive p8est_geometry_builtin_type_t : Set :=
| P8EST_GEOMETRY_BUILTIN_MAGIC
| P8EST_GEOMETRY_BUILTIN_SHELL
| P8EST_GEOMETRY_BUILTIN_SPHERE.

Definition builtin_type_value (t : p8est_geometry_builtin_type_t) : Z :=
  match t with
  | P8EST_GEOMETRY_BUILTIN_MAGIC => 0x65F2F8DF
  | P8EST_GEOMETRY_BUILTIN_SHELL => 0x65F2F8DF + 1
  | P8EST_GEOMETRY_BUILTIN_SPHERE => 0x65F2F8DF + 2
  end%Z.

Definition builtin_type_eqb (a b : p8est_geometry_builtin_type_t) : bool :=
  (builtin_type_value a =? builtin_type_value b)%Z.

(** *** Default inverse-transpose Jacobian *)

(** [p8est_geometry_Jit].  [geom_J] is [geom->J] applied to [geom];
    [J_local] is the indeterminate initial content of the local array [J]
    handed to it.  The incoming [Jit] array is overwritten entirely. *)
Definition p8est_geometry_Jit (J_local : mat3)
    (geom_J : Z -> vec3 -> mat3 -> option (mat3 * R))
    (which_tree : Z) (abc : vec3) (Jit_in : mat3) : option (mat3 * R) :=
  do r <- geom_J which_tree abc J_local;
  let J := fst r in
  let detJ := snd r in
  let idetJ := 1 / detJ in
  Some (mat_of
    ((mat_get J 1 1 * mat_get J 2 2 - mat_get J 1 2 * mat_get J 2 1) * idetJ)
    ((mat_get J 1 2 * mat_get J 2 0 - mat_get J 1 0 * mat_get J 2 2) * idetJ)
    ((mat_get J 1 0 * mat_get J 2 1 - mat_get J 1 1 * mat_get J 2 0) * idetJ)
    ((mat_get J 0 2 * mat_get J 2 1 - mat_get J 0 1 * mat_get J 2 2) * idetJ)
    ((mat_get J 0 0 * mat_get J 2 2 - mat_get J 0 2 * mat_get J 2 0) * idetJ)
    ((mat_get J 0 1 * mat_get J 2 0 - mat_get J 0 0 * mat_get J 2 1) * idetJ)
    ((mat_get J 0 1 * mat_get J 1 2 - mat_get J 1 1 * mat_get J 0 2) * idetJ)
    ((mat_get J 0 2 * mat_get J 1 0 - mat_get J 1 2 * mat_get J 0 0) * idetJ)
    ((mat_get J 0 0 * mat_get J 1 1 - mat_get J 1 0 * mat_get J 0 1) * idetJ),
    detJ).

(** *** Identity geometry *)

(** [memcpy (xyz, abc, 3 * sizeof (double))]. *)
Definition p8est_geometry_identity_X (which_tree : Z) (abc : vec3) : option vec3 :=
  Some (V3 (v0 abc) (v1 abc) (v2 abc)).

Definition p8est_geometry_identity_D (which_tree : Z) (abc : vec3) : option R :=
  Some 1.

Definition p8est_geometry_identity_J (which_tree : Z) (abc : vec3) (J : mat3)
    : option (mat3 * R) :=
  Some (mat_of 1 0 0 0 1 0 0 0 1, 1).

Definition p8est_geometry_new_identity : p8est_geometry_t :=
  {| X := p8est_geometry_identity_X;
     D := p8est_geometry_identity_D;
     J := p8est_geometry_identity_J;
     Jit := p8est_geometry_identity_J |}.

(** *** Shell geometry *)

Record p8est_geometry_builtin_shell : Type := {
  shell_type : p8est_geometry_builtin_type_t;
  shell_R2 : R;
  shell_R1 : R;
  shell_R2byR1 : R;
  shell_R1sqrbyR2 : R;
  shell_Rlog : R
}.

Record p8est_geometry_builtin_sphere : Type := {
  sphere_type : p8est_geometry_builtin_type_t;
  sphere_R2 : R;
  sphere_R1 : R;
  sphere_R0 : R;
  sphere_R2byR1 : R;
  sphere_R1sqrbyR2 : R;
  sphere_R1log : R;
  sphere_R1byR0 : R;
  sphere_R0sqrbyR1 : R;
  sphere_R0log : R;
  sphere_Clength : R;
  sphere_CdetJ : R
}.

Section Builtin.

(** [SC_1000_EPS] comes from the libsc headers, which are not part of the
    sources at hand; it is a parameter of the development. *)
Variable SC_1000_EPS : R.

(** Build flavour: [true] when [P4EST_DEBUG] is defined. *)
Variable debug : bool.

(** The three range assertions shared by the shell functions, and the
    first two of the sphere functions. *)
Definition assert_tree_range (which_tree n : Z) : option unit :=
  P4EST_ASSERT debug ((0 <=? which_tree)%Z && (which_tree <? n)%Z).

Definition assert_angular (a : R) : option unit :=
  P4EST_ASSERT debug (Rltb a (1 + SC_1000_EPS) && Rltb (-1 - SC_1000_EPS) a).

Definition assert_radial (c : R) : option unit :=
  P4EST_ASSERT debug (Rltb c (2 + SC_1000_EPS) && Rltb (1 - SC_1000_EPS) c).

(** The [switch (which_tree / 4)] of [p8est_geometry_shell_X]. *)
Definition shell_X_switch (patch : Z) (q x y : R) : option vec3 :=
  if (patch =? 3)%Z then Some (V3 (q * y) (- q * x) q)            (* top *)
  else if (patch =? 2)%Z then Some (V3 (- q) (- q * x) (q * y))   (* left *)
  else if (patch =? 1)%Z then Some (V3 (- q * y) (- q * x) (- q)) (* bottom *)
  else if (patch =? 0)%Z then Some (V3 q (- q * x) (- q * y))     (* right *)
  else if (patch =? 4)%Z then Some (V3 (- q * x) q (q * y))       (* back *)
  else if (patch =? 5)%Z then Some (V3 (q * x) (- q) (q * y))     (* front *)
  else None.                                         (* SC_CHECK_NOT_REACHED *)

Definition p8est_geometry_shell_X (shell : p8est_geometry_builtin_shell)
    (which_tree : Z) (abc : vec3) : option vec3 :=
  check P4EST_ASSERT debug
    (builtin_type_eqb (shell_type shell) P8EST_GEOMETRY_BUILTIN_SHELL);
  check assert_tree_range which_tree 24;
  check assert_angular (v0 abc);
  check assert_angular (v1 abc);
  check assert_radial (v2 abc);
  let x := tan (v0 abc * Cmath.M_PI_4) in
  let y := tan (v1 abc * Cmath.M_PI_4) in
  let R := shell_R1sqrbyR2 shell * Cmath.pow (shell_R2byR1 shell) (v2 abc) in
  let q := R / sqrt (x * x + y * y + 1) in
  shell_X_switch (Z.quot which_tree 4) q x y.

Definition p8est_geometry_shell_D (shell : p8est_geometry_builtin_shell)
    (which_tree : Z) (abc : vec3) : option R :=
  check P4EST_ASSERT debug
    (builtin_type_eqb (shell_type shell) P8EST_GEOMETRY_BUILTIN_SHELL);
  check assert_tree_range which_tree 24;
  check assert_angular (v0 abc);
  check assert_angular (v1 abc);
  check assert_radial (v2 abc);
  let cx := cos (v0 abc * Cmath.M_PI_4) in
  let derx := Cmath.M_PI_4 / (cx * cx) in
  let x := tan (v0 abc * Cmath.M_PI_4) in
  let cy := cos (v1 abc * Cmath.M_PI_4) in
  let dery := Cmath.M_PI_4 / (cy * cy) in
  let y := tan (v1 abc * Cmath.M_PI_4) in
  let R := shell_R1sqrbyR2 shell * Cmath.pow (shell_R2byR1 shell) (v2 abc) in
  let t := 1 / (x * x + y * y + 1) in
  let q := R * sqrt t in
  let J := mat_of (1 - x * x * t) (- x * y * t) x
                  (- x * y * t) (1 - y * y * t) y
                  (- x * t) (- y * t) 1 in
  let detJ := det3 J * q * q * q * derx * dery * shell_Rlog shell in
  check P4EST_ASSERT debug (Rltb 0 detJ);
  Some detJ.

(** The [switch (which_tree / 4)] of [p8est_geometry_shell_J]; every case
    assigns all nine entries of [J]. *)
Definition shell_J_switch (patch : Z) (q x y t derx dery Rlog : R) : option mat3 :=
  if (patch =? 3)%Z then                                            (* top *)
    Some (mat_of (- q * x * y * t * derx) (q * (1 - y * y * t) * dery) (q * y * Rlog)
                 (- q * (1 - x * x * t) * derx) (q * x * y * t * dery) (- q * x * Rlog)
                 (- q * x * t * derx) (- q * y * t * dery) (q * Rlog))
  else if (patch =? 2)%Z then                                       (* left *)
    Some (mat_of (q * x * t * derx) (q * y * t * dery) (- q * Rlog)
                 (- q * (1 - x * x * t) * derx) (q * x * y * t * dery) (- q * x * Rlog)
                 (- q * x * y * t * derx) (q * (1 - y * y * t) * dery) (q * y * Rlog))
  else if (patch =? 1)%Z then                                       (* bottom *)
    Some (mat_of (q * x * y * t * derx) (- q * (1 - y * y * t) * dery) (- q * y * Rlog)
                 (- q * (1 - x * x * t) * derx) (q * x * y * t * dery) (- q * x * Rlog)
                 (q * x * t * derx) (q * y * t * dery) (- q * Rlog))
  else if (patch =? 0)%Z then                                       (* right *)
    Some (mat_of (- q * x * t * derx) (- q * y * t * dery) (q * Rlog)
                 (- q * (1 - x * x * t) * derx) (q * x * y * t * dery) (- q * x * Rlog)
                 (q * x * y * t * derx) (- q * (1 - y * y * t) * dery) (- q * y * Rlog))
  else if (patch =? 4)%Z then                                       (* back *)
    Some (mat_of (- q * (1 - x * x * t) * derx) (q * x * y * t * dery) (- q * x * Rlog)
                 (- q * x * t * derx) (- q * y * t * dery) (q * Rlog)
                 (- q * x * y * t * derx) (q * (1 - y * y * t) * dery) (q * y * Rlog))
  else if (patch =? 5)%Z then                                       (* front *)
    Some (mat_of (q * (1 - x * x * t) * derx) (- q * x * y * t * dery) (q * x * Rlog)
                 (q * x * t * derx) (q * y * t * dery) (- q * Rlog)
                 (- q * x * y * t * derx) (q * (1 - y * y * t) * dery) (q * y * Rlog))
  else None.                                         (* SC_CHECK_NOT_REACHED *)

Definition p8est_geometry_shell_J (shell : p8est_geometry_builtin_shell)
    (which_tree : Z) (abc : vec3) (J_in : mat3) : option (mat3 * R) :=
  let Rlog := shell_Rlog shell in
  check P4EST_ASSERT debug
    (builtin_type_eqb (shell_type shell) P8EST_GEOMETRY_BUILTIN_SHELL);
  check assert_tree_range which_tree 24;
  check assert_angular (v0 abc);
  check assert_angular (v1 abc);
  check assert_radial (v2 abc);
  let cx := cos (v0 abc * Cmath.M_PI_4) in
  let derx := Cmath.M_PI_4 / (cx * cx) in
  let x := tan (v0 abc * Cmath.M_PI_4) in
  let cy := cos (v1 abc * Cmath.M_PI_4) in
  let dery := Cmath.M_PI_4 / (cy * cy) in
  let y := tan (v1 abc * Cmath.M_PI_4) in
  let R := shell_R1sqrbyR2 shell * Cmath.pow (shell_R2byR1 shell) (v2 abc) in
  let t := 1 / (x * x + y * y + 1) in
  let q := R * sqrt t in
  do J <- shell_J_switch (Z.quot which_tree 4) q x y t derx dery Rlog;
  let detJ := det3 J in
  check P4EST_ASSERT debug (Rltb 0 detJ);
  Some (J, detJ).

(** *** Sphere geometry *)

(** The debug-only radial assertion of the sphere functions: [1, 2] on the
    twelve shell trees, [-1, 1] on the center cube. *)
Definition assert_sphere_radial (which_tree : Z) (c : R) : option unit :=
  if (which_tree <? 12)%Z then assert_radial c else assert_angular c.

(** The [switch (which_tree % 6)] of [p8est_geometry_sphere_X]. *)
Definition sphere_X_switch (dir : Z) (q x y : R) : option vec3 :=
  if (dir =? 0)%Z then Some (V3 (q * x) (- q) (q * y))            (* front *)
  else if (dir =? 1)%Z then Some (V3 (q * x) (q * y) q)           (* top *)
  else if (dir =? 2)%Z then Some (V3 (q * x) q (- q * y))         (* back *)
  else if (dir =? 3)%Z then Some (V3 q (- q * x) (- q * y))       (* right *)
  else if (dir =? 4)%Z then Some (V3 (- q * y) (- q * x) (- q))   (* bottom *)
  else if (dir =? 5)%Z then Some (V3 (- q) (- q * x) (q * y))     (* left *)
  else None.                                         (* SC_CHECK_NOT_REACHED *)

Definition p8est_geometry_sphere_X (sphere : p8est_geometry_builtin_sphere)
    (which_tree : Z) (abc : vec3) : option vec3 :=
  check P4EST_ASSERT debug
    (builtin_type_eqb (sphere_type sphere) P8EST_GEOMETRY_BUILTIN_SPHERE);
  check assert_tree_range which_tree 13;
  check assert_angular (v0 abc);
  check assert_angular (v1 abc);
  check assert_sphere_radial which_tree (v2 abc);
  if (which_tree <? 6)%Z then                                (* outer shell *)
    let x := tan (v0 abc * Cmath.M_PI_4) in
    let y := tan (v1 abc * Cmath.M_PI_4) in
    let R := sphere_R1sqrbyR2 sphere * Cmath.pow (sphere_R2byR1 sphere) (v2 abc) in
    let q := R / sqrt (x * x + y * y + 1) in
    sphere_X_switch (Z.rem which_tree 6) q x y
  else if (which_tree <? 12)%Z then                          (* inner shell *)
    let p := 2 - v2 abc in
    let tanx := tan (v0 abc * Cmath.M_PI_4) in
    let tany := tan (v1 abc * Cmath.M_PI_4) in
    let x := p * v0 abc + (1 - p) * tanx in
    let y := p * v1 abc + (1 - p) * tany in
    let R := sphere_R0sqrbyR1 sphere * Cmath.pow (sphere_R1byR0 sphere) (v2 abc) in
    let q := R / sqrt (1 + (1 - p) * (tanx * tanx + tany * tany) + 2 * p) in
    sphere_X_switch (Z.rem which_tree 6) q x y
  else                                                       (* center cube *)
    Some (V3 (v0 abc * sphere_Clength sphere)
             (v1 abc * sphere_Clength sphere)
             (v2 abc * sphere_Clength sphere)).

Definition p8est_geometry_sphere_D (sphere : p8est_geometry_builtin_sphere)
    (which_tree : Z) (abc : vec3) : option R :=
  check P4EST_ASSERT debug
    (builtin_type_eqb (sphere_type sphere) P8EST_GEOMETRY_BUILTIN_SPHERE);
  check assert_tree_range which_tree 13;
  check assert_angular (v0 abc);
  check assert_angular (v1 abc);
  check assert_sphere_radial which_tree (v2 abc);
  if (which_tree <? 6)%Z then                                (* outer shell *)
    let cx := cos (v0 abc * Cmath.M_PI_4) in
    let derx := Cmath.M_PI_4 / (cx * cx) in
    let x := tan (v0 abc * Cmath.M_PI_4) in
    let cy := cos (v1 abc * Cmath.M_PI_4) in
    let dery := Cmath.M_PI_4 / (cy * cy) in
    let y := tan (v1 abc * Cmath.M_PI_4) in
    let R := sphere_R1sqrbyR2 sphere * Cmath.pow (sphere_R2byR1 sphere) (v2 abc) in
    let t := 1 / (x * x + y * y + 1) in
    let q := R * sqrt t in
    let Rlog := sphere_R1log sphere in
    let J := mat_of (1 - x * x * t) (- x * y * t) x
                    (- x * y * t) (1 - y * y * t) y
                    (- x * t) (- y * t) 1 in
    let factor := q * q * q * derx * dery * Rlog in
    let detJ := det3 J * factor in
    check P4EST_ASSERT debug (Rltb 0 detJ);
    Some detJ
  else if (which_tree <? 12)%Z then                          (* inner shell *)
    let p := 2 - v2 abc in
    let cx := cos (v0 abc * Cmath.M_PI_4) in
    let derx := (1 - p) * Cmath.M_PI_4 / (cx * cx) in
    let tanx := tan (v0 abc * Cmath.M_PI_4) in
    let x := p * v0 abc + (1 - p) * tanx in
    let cy := cos (v1 abc * Cmath.M_PI_4) in
    let dery := (1 - p) * Cmath.M_PI_4 / (cy * cy) in
    let tany := tan (v1 abc * Cmath.M_PI_4) in
    let y := p * v1 abc + (1 - p) * tany in
    let R := sphere_R0sqrbyR1 sphere * Cmath.pow (sphere_R1byR0 sphere) (v2 abc) in
    let tsqr := tanx * tanx + tany * tany in
    let t := 1 / (1 + (1 - p) * tsqr + 2 * p) in
    let q := R * sqrt t in
    let Rlog := sphere_R0log sphere + t * (1 - (5 / 10) * tsqr) in
    let J := mat_of (p + (1 - x * tanx * t) * derx) (- x * tany * t * dery)
                    (x * Rlog - v0 abc + tanx)
                    (- y * tanx * t * derx) (p + (1 - y * tany * t) * dery)
                    (y * Rlog - v1 abc + tany)
                    (- tanx * t * derx) (- tany * t * dery) Rlog in
    let factor := q * q * q in
    let detJ := det3 J * factor in
    check P4EST_ASSERT debug (Rltb 0 detJ);
    Some detJ
  else                                                       (* center cube *)
    Some (sphere_CdetJ sphere).

(** The tables of [p8est_geometry_sphere_J]; [table_get] is [T[pid][k]]. *)
Definition mapJ : list (list Z) :=
  [[0; 2; 1]; [0; 1; 2]; [0; 2; 1]; [1; 2; 0]; [1; 0; 2]; [1; 2; 0]]%Z.

Definition mapM : list (list R) :=
  [[1; 1; -1]; [1; 1; 1]; [1; -1; 1]; [-1; -1; 1]; [-1; -1; -1]; [-1; 1; -1]].

Definition table_get {A : Type} (d : A) (T : list (list A)) (pid k : Z) : A :=
  nth (Z.to_nat k) (nth (Z.to_nat pid) T []) d.

Definition p8est_geometry_sphere_J (sphere : p8est_geometry_builtin_sphere)
    (which_tree : Z) (abc : vec3) (J_in : mat3) : option (mat3 * R) :=
  check P4EST_ASSERT debug
    (builtin_type_eqb (sphere_type sphere) P8EST_GEOMETRY_BUILTIN_SPHERE);
  check assert_tree_range which_tree 13;
  check assert_angular (v0 abc);
  check assert_angular (v1 abc);
  check assert_sphere_radial which_tree (v2 abc);
  if (which_tree <? 6)%Z then                                (* outer shell *)
    let cx := cos (v0 abc * Cmath.M_PI_4) in
    let derx := Cmath.M_PI_4 / (cx * cx) in
    let x := tan (v0 abc * Cmath.M_PI_4) in
    let cy := cos (v1 abc * Cmath.M_PI_4) in
    let dery := Cmath.M_PI_4 / (cy * cy) in
    let y := tan (v1 abc * Cmath.M_PI_4) in
    let R := sphere_R1sqrbyR2 sphere * Cmath.pow (sphere_R2byR1 sphere) (v2 abc) in
    let t := 1 / (x * x + y * y + 1) in
    let q := R * sqrt t in
    let Rlog := sphere_R1log sphere in
    let pid := which_tree in
    let j0 := table_get 0%Z mapJ pid 0 in
    let j1 := table_get 0%Z mapJ pid 1 in
    let j2 := table_get 0%Z mapJ pid 2 in
    let q0 := table_get 0 mapM pid 0 * q in
    let q1 := table_get 0 mapM pid 1 * q in
    let q2 := table_get 0 mapM pid 2 * q in
    let J := mat_set J_in j0 0 (q0 * (1 - x * x * t) * derx) in
    let J := mat_set J j0 1 (- q0 * x * y * t * dery) in
    let J := mat_set J j0 2 (q0 * x * Rlog) in
    let J := mat_set J j1 0 (- q1 * x * y * t * derx) in
    let J := mat_set J j1 1 (q1 * (1 - y * y * t) * dery) in
    let J := mat_set J j1 2 (q1 * y * Rlog) in
    let J := mat_set J j2 0 (- q2 * x * t * derx) in
    let J := mat_set J j2 1 (- q2 * y * t * dery) in
    let J := mat_set J j2 2 (q2 * Rlog) in
    let detJ := det3 J in
    check P4EST_ASSERT debug (Rltb 0 detJ);
    Some (J, detJ)
  else if (which_tree <? 12)%Z then                          (* inner shell *)
    let p := 2 - v2 abc in
    let cx := cos (v0 abc * Cmath.M_PI_4) in
    let derx := (1 - p) * Cmath.M_PI_4 / (cx * cx) in
    let tanx := tan (v0 abc * Cmath.M_PI_4) in
    let x := p * v0 abc + (1 - p) * tanx in
    let cy := cos (v1 abc * Cmath.M_PI_4) in
    let dery := (1 - p) * Cmath.M_PI_4 / (cy * cy) in
    let tany := tan (v1 abc * Cmath.M_PI_4) in
    let y := p * v1 abc + (1 - p) * tany in
    let R := sphere_R0sqrbyR1 sphere * Cmath.pow (sphere_R1byR0 sphere) (v2 abc) in
    let tsqr := tanx * tanx + tany * tany in
    let t := 1 / (1 + (1 - p) * tsqr + 2 * p) in
    let q := R * sqrt t in
    let Rlog := sphere_R0log sphere + t * (1 - (5 / 10) * tsqr) in
    let pid := (which_tree - 6)%Z in
    let j0 := table_get 0%Z mapJ pid 0 in
    let j1 := table_get 0%Z mapJ pid 1 in
    let j2 := table_get 0%Z mapJ pid 2 in
    let q0 := table_get 0 mapM pid 0 * q in
    let q1 := table_get 0 mapM pid 1 * q in
    let q2 := table_get 0 mapM pid 2 * q in
    let J := mat_set J_in j0 0 (q0 * (p + (1 - x * tanx * t) * derx)) in
    let J := mat_set J j0 1 (- q0 * x * tany * t * dery) in
    let J := mat_set J j0 2 (q0 * (x * Rlog - v0 abc + tanx)) in
    let J := mat_set J j1 0 (- q1 * y * tanx * t * derx) in
    let J := mat_set J j1 1 (q1 * (p + (1 - y * tany * t) * dery)) in
    let J := mat_set J j1 2 (q1 * (y * Rlog - v1 abc + tany)) in
    let J := mat_set J j2 0 (- q2 * tanx * t * derx) in
    let J := mat_set J j2 1 (- q2 * tany * t * dery) in
    let J := mat_set J j2 2 (q2 * Rlog) in
    let detJ := det3 J in
    check P4EST_ASSERT debug (Rltb 0 detJ);
    Some (J, detJ)
  else                                                       (* center cube *)
    Some (mat_of (sphere_Clength sphere) 0 0
                 0 (sphere_Clength sphere) 0
                 0 0 (sphere_Clength sphere),
          sphere_CdetJ sphere).

(** Contents of the local array [J] of [p8est_geometry_Jit] before the
    call of [geom->J]: indeterminate in C, a parameter here. *)
Variable J_local : mat3.

Definition new_shell_payload (R2 R1 : R) : p8est_geometry_builtin_shell :=
  {| shell_type := P8EST_GEOMETRY_BUILTIN_SHELL;
     shell_R2 := R2;
     shell_R1 := R1;
     shell_R2byR1 := R2 / R1;
     shell_R1sqrbyR2 := R1 * R1 / R2;
     shell_Rlog := Cmath.log (R2 / R1) |}.

Definition p8est_geometry_new_shell (R2 R1 : R) : p8est_geometry_t :=
  let shell := new_shell_payload R2 R1 in
  {| X := p8est_geometry_shell_X shell;
     D := p8est_geometry_shell_D shell;
     J := p8est_geometry_shell_J shell;
     Jit := p8est_geometry_Jit J_local (p8est_geometry_shell_J shell) |}.

Definition new_sphere_payload (R2 R1 R0 : R) : p8est_geometry_builtin_sphere :=
  {| sphere_type := P8EST_GEOMETRY_BUILTIN_SPHERE;
     sphere_R2 := R2;
     sphere_R1 := R1;
     sphere_R0 := R0;
     sphere_R2byR1 := R2 / R1;
     sphere_R1sqrbyR2 := R1 * R1 / R2;
     sphere_R1log := Cmath.log (R2 / R1);
     sphere_R1byR0 := R1 / R0;
     sphere_R0sqrbyR1 := R0 * R0 / R1;
     sphere_R0log := Cmath.log (R1 / R0);
     sphere_Clength := R0 / sqrt 3;
     sphere_CdetJ := Cmath.pow (R0 / sqrt 3) 3 |}.

Definition p8est_geometry_new_sphere (R2 R1 R0 : R) : p8est_geometry_t :=
  let sphere := new_sphere_payload R2 R1 R0 in
  {| X := p8est_geometry_sphere_X sphere;
     D := p8est_geometry_sphere_D sphere;
     J := p8est_geometry_sphere_J sphere;
     Jit := p8est_geometry_Jit J_local (p8est_geometry_sphere_J sphere) |}.

End Builtin.

(** ** Specification-side notions *)

(** Cofactor of entry [(i, j)] of a 3x3 matrix: the signed 2x2 minor, in
    the cyclic form that carries the sign. *)
Definition cofactor (m : mat3) (i j : Z) : R :=
  mat_get m ((i + 1) mod 3) ((j + 1) mod 3) * mat_get m ((i + 2) mod 3) ((j + 2) mod 3)
  - mat_get m ((i + 1) mod 3) ((j + 2) mod 3) * mat_get m ((i + 2) mod 3) ((j + 1) mod 3).

(** Reference domain of a shell patch: [-1, 1] on the two angular axes
    and [1, 2] on the radial axis. *)
Definition shell_domain (abc : vec3) : Prop :=
  (-1 <= v0 abc <= 1) /\ (-1 <= v1 abc <= 1) /\ (1 <= v2 abc <= 2).

(** Reference domain of the center cube. *)
Definition cube_domain (abc : vec3) : Prop :=
  (-1 <= v0 abc <= 1) /\ (-1 <= v1 abc <= 1) /\ (-1 <= v2 abc <= 1).

(** A point of the boundary of the center cube: one coordinate is 1 or -1
    (and the point is in [cube_domain]). *)
Definition on_cube_face (P : vec3) : Prop :=
  v0 P = 1 \/ v0 P = -1 \/ v1 P = 1 \/ v1 P = -1 \/ v2 P = 1 \/ v2 P = -1.

(** The range that the debug-build assertions of the sphere functions
    accept on the center cube. *)
Definition cube_asserted (eps : R) (abc : vec3) : Prop :=
  (-1 - eps < v0 abc < 1 + eps) /\ (-1 - eps < v1 abc < 1 + eps) /\
  (-1 - eps < v2 abc < 1 + eps).

(** The range that the debug-build assertions of the shell functions
    accept. *)
Definition shell_asserted (eps : R) (abc : vec3) : Prop :=
  (-1 - eps < v0 abc < 1 + eps) /\ (-1 - eps < v1 abc < 1 + eps) /\
  (1 - eps < v2 abc < 2 + eps).

(** The matrix of cofactors of [m], each divided by [d]: the inverse
    transpose of [m] when [d] is its determinant. *)
Definition inverse_transpose (m : mat3) (d : R) : mat3 :=
  mat_of (cofactor m 0 0 / d) (cofactor m 0 1 / d) (cofactor m 0 2 / d)
         (cofactor m 1 0 / d) (cofactor m 1 1 / d) (cofactor m 1 2 / d)
         (cofactor m 2 0 / d) (cofactor m 2 1 / d) (cofactor m 2 2 / d).

(** Reference domain of the sphere geometry at a tree: a shell patch on the
    twelve shell trees, the cube on the center tree. *)
Definition sphere_domain (which_tree : Z) (abc : vec3) : Prop :=
  if (which_tree <? 12)%Z then shell_domain abc else cube_domain abc.

(** The point a forward map returns, for statements about its values near
    a point of the domain (where it does return). *)
Definition point_of (o : option vec3) : vec3 :=
  match o with Some p => p | None => V3 0 0 0 end.

(** [l] is the partial derivative of [F] at [abc] along reference axis
    [j]. *)
Definition partial_at (F : vec3 -> R) (j : Z) (abc : vec3) (l : R) : Prop :=
  derivable_pt_lim (fun h => F (vec_set abc j h)) (vec_get abc j) l.

(** [Jm] is the Jacobian matrix of the forward map [F] at [abc]: entry
    [(i, j)] is the derivative of output component [i] along reference
    axis [j]. *)
Definition jacobian_at (F : vec3 -> option vec3) (abc : vec3) (Jm : mat3) : Prop :=
  forall i j : Z, (0 <= i < 3)%Z -> (0 <= j < 3)%Z ->
    partial_at (fun v => vec_get (point_of (F v)) i) j abc (mat_get Jm i j).

(** The range that the debug-build assertions of the sphere functions
    accept at a tree. *)
Definition sphere_asserted (eps : R) (which_tree : Z) (abc : vec3) : Prop :=
  if (which_tree <? 12)%Z then shell_asserted eps abc else cube_asserted eps abc.

(** The radius factor of the spec, [(R1^2 / R2) * (R2 / R1)^c]. *)
Definition shell_radius (R2 R1 c : R) : R := R1 ^ 2 / R2 * Rpower (R2 / R1) c.

(** The matrix that the determinant-only paths fill before scaling. *)
Definition normalized_J (x y t : R) : mat3 :=
  mat_of (1 - x * x * t) (- x * y * t) x
         (- x * y * t) (1 - y * y * t) y
         (- x * t) (- y * t) 1.

(** ** Proof tools *)

Ltac mat_simpl :=
  cbv [mat_mul mat_transpose mat_identity mat_col mat_of vec_dot vec_scale
       mat_get mat_set mat_row vec_get vec_set table_get mapJ mapM
       row0 row1 row2 v0 v1 v2 fst snd nth
       Z.eqb Pos.eqb Z.add Z.sub Z.opp Z.pos_sub Z.mul Z.modulo Z.div_eucl
       Z.pos_div_eucl Z.leb Z.ltb Z.compare Z.double Z.succ_double
       Z.pred_double Z.to_nat
       Pos.compare Pos.compare_cont Pos.add Pos.add_carry Pos.succ Pos.mul
       Pos.pred_double Pos.to_nat Pos.iter_op Nat.add] in *.

Lemma Rltb_true (a b : R) : a < b -> Rltb a b = true.
Proof. intros H. unfold Rltb. destruct (Rlt_dec a b); [reflexivity | contradiction]. Qed.

Lemma Rltb_false (a b : R) : ~ a < b -> Rltb a b = false.
Proof. intros H. unfold Rltb. destruct (Rlt_dec a b); [contradiction | reflexivity]. Qed.

Lemma P4EST_ASSERT_true (debug : bool) : P4EST_ASSERT debug true = Some tt.
Proof. destruct debug; reflexivity. Qed.

Lemma P4EST_ASSERT_release (c : bool) : P4EST_ASSERT false c = Some tt.
Proof. reflexivity. Qed.

Lemma vec3_eta (v : vec3) : V3 (v0 v) (v1 v) (v2 v) = v.
Proof. destruct v; reflexivity. Qed.

(** ** Connect-type enumeration *)

(** C8: the connect-type enumerators are FACE = 31, EDGE = 32 and
    CORNER = 33, these are the only enumerators, and the aliases are
    DEFAULT = EDGE (32) and FULL = CORNER (33). *)
Theorem connect_type_abi_values :
  Connect.value Connect.P8EST_CONNECT_FACE = 31%Z /\
  Connect.value Connect.P8EST_CONNECT_EDGE = 32%Z /\
  Connect.value Connect.P8EST_CONNECT_CORNER = 33%Z /\
  Connect.P8EST_CONNECT_DEFAULT = Connect.P8EST_CONNECT_EDGE /\
  Connect.value Connect.P8EST_CONNECT_DEFAULT = 32%Z /\
  Connect.P8EST_CONNECT_FULL = Connect.P8EST_CONNECT_CORNER /\
  Connect.value Connect.P8EST_CONNECT_FULL = 33%Z /\
  (forall c : Connect.p8est_connect_type_t,
      Connect.value c = 31%Z \/ Connect.value c = 32%Z \/ Connect.value c = 33%Z).
Proof.
  repeat split.
  intros c; destruct c; cbn; auto.
Qed.

(** ** Identity geometry *)

(** C7: for the identity geometry, at every tree and every abc, X returns
    abc, J fills the identity matrix and returns 1, D returns 1, and Jit is
    the very function installed as J, so it too fills the identity matrix
    and returns 1. *)
Theorem identity_geometry_ops (which_tree : Z) (abc : vec3) (J_in : mat3) :
  X p8est_geometry_new_identity which_tree abc = Some abc /\
  J p8est_geometry_new_identity which_tree abc J_in = Some (mat_identity, 1) /\
  D p8est_geometry_new_identity which_tree abc = Some 1 /\
  Jit p8est_geometry_new_identity = J p8est_geometry_new_identity /\
  Jit p8est_geometry_new_identity which_tree abc J_in = Some (mat_identity, 1).
Proof.
  cbn [X J D Jit p8est_geometry_new_identity].
  unfold p8est_geometry_identity_X, p8est_geometry_identity_J,
    p8est_geometry_identity_D.
  rewrite vec3_eta. repeat split.
Qed.

(** ** Default inverse-transpose Jacobian *)

Lemma cofactor_expansion_rows (m : mat3) :
  det3 m = mat_get m 0 0 * cofactor m 0 0 + mat_get m 0 1 * cofactor m 0 1
           + mat_get m 0 2 * cofactor m 0 2.
Proof.
  destruct m as [[a b c] [d e f] [g h i]].
  unfold det3, cofactor. mat_simpl. ring.
Qed.

(** C3: when geom->J yields the matrix Jm together with its determinant
    detJ, and detJ is not zero, the default Jit returns that same detJ and
    a matrix whose entries are the cofactors of Jm divided by detJ; its
    transpose times Jm is the identity matrix. *)
Theorem Jit_is_inverse_transpose
    (J_local : mat3) (geom_J : Z -> vec3 -> mat3 -> option (mat3 * R))
    (which_tree : Z) (abc : vec3) (Jit_in Jm : mat3) (detJ : R)
    (HJ : geom_J which_tree abc J_local = Some (Jm, detJ))
    (Hdet : detJ = det3 Jm)
    (Hnz : detJ <> 0) :
  exists Jit_out : mat3,
    p8est_geometry_Jit J_local geom_J which_tree abc Jit_in = Some (Jit_out, detJ) /\
    (forall i j : Z, (0 <= i < 3)%Z -> (0 <= j < 3)%Z ->
        mat_get Jit_out i j = cofactor Jm i j / detJ) /\
    mat_mul (mat_transpose Jit_out) Jm = mat_identity /\
    mat_mul Jm (mat_transpose Jit_out) = mat_identity.
Proof.
  unfold p8est_geometry_Jit. rewrite HJ. cbn [fst snd].
  eexists. split; [reflexivity|].
  destruct Jm as [[a b c] [d e f] [g h i]].
  assert (Hd : a * (e * i - f * h) + b * (f * g - d * i) + c * (d * h - e * g) <> 0).
  { intros E. apply Hnz. rewrite Hdet. unfold det3. mat_simpl. exact E. }
  subst detJ. unfold det3 in *. mat_simpl.
  split; [|split].
  - intros i0 j0 Hi Hj.
    assert (Ei : i0 = 0%Z \/ i0 = 1%Z \/ i0 = 2%Z) by lia.
    assert (Ej : j0 = 0%Z \/ j0 = 1%Z \/ j0 = 2%Z) by lia.
    destruct Ei as [-> | [-> | ->]]; destruct Ej as [-> | [-> | ->]];
      unfold cofactor; mat_simpl; field; exact Hd.
  - f_equal; f_equal; field; exact Hd.
  - f_equal; f_equal; field; exact Hd.
Qed.

(** ** Facts about the C library model *)

Lemma pow_pos_base (x y : R) : 0 < x -> Cmath.pow x y = Rpower x y.
Proof.
  intros Hx. unfold Cmath.pow. destruct (Rlt_dec 0 x); [reflexivity | contradiction].
Qed.

Lemma pow_nat (x : R) (n : nat) : Cmath.pow x (INR n) = x ^ n.
Proof.
  unfold Cmath.pow. destruct (Rlt_dec 0 x) as [Hx | Hx].
  - apply Rpower_pow; exact Hx.
  - destruct (Cmath.is_integer (INR n)) as [_ | Hn].
    + rewrite Int_part_INR. symmetry. apply pow_powerRZ.
    + exfalso. apply Hn. rewrite Int_part_INR. apply INR_IZR_INZ.
Qed.

Lemma pow_one (x : R) : Cmath.pow x 1 = x.
Proof. change 1 with (INR 1). rewrite pow_nat. ring. Qed.

Lemma pow_two (x : R) : Cmath.pow x 2 = x * x.
Proof. replace 2 with (INR 2) by (simpl; ring). rewrite pow_nat. ring. Qed.

Lemma pow_three (x : R) : Cmath.pow x 3 = x * x * x.
Proof. replace 3 with (INR 3) by (simpl; ring). rewrite pow_nat. ring. Qed.

Lemma quarter_turn_range (a : R) :
  -1 <= a <= 1 -> - (PI / 2) < a * Cmath.M_PI_4 < PI / 2.
Proof.
  intros [Hl Hu]. unfold Cmath.M_PI_4. pose proof PI_RGT_0 as HPI. split; nra.
Qed.

Lemma cos_quarter_pos (a : R) : -1 <= a <= 1 -> 0 < cos (a * Cmath.M_PI_4).
Proof.
  intros Ha. destruct (quarter_turn_range a Ha) as [Hl Hu].
  apply cos_gt_0; assumption.
Qed.

Lemma der_quarter_pos (a : R) :
  -1 <= a <= 1 ->
  0 < Cmath.M_PI_4 / (cos (a * Cmath.M_PI_4) * cos (a * Cmath.M_PI_4)).
Proof.
  intros Ha. pose proof (cos_quarter_pos a Ha) as Hc.
  apply Rdiv_lt_0_compat.
  - unfold Cmath.M_PI_4. pose proof PI_RGT_0. lra.
  - apply Rmult_lt_0_compat; exact Hc.
Qed.

Lemma log_ratio_pos (R2 R1 : R) : 0 < R1 -> R1 < R2 -> 0 < Cmath.log (R2 / R1).
Proof.
  intros H1 H12. unfold Cmath.log. rewrite <- ln_1. apply ln_increasing; [lra|].
  apply (Rmult_lt_reg_r R1); [exact H1|].
  unfold Rdiv. rewrite Rmult_assoc, Rinv_l by lra. lra.
Qed.

Lemma sum_squares_pos (x y : R) : 0 < x * x + y * y + 1.
Proof. nra. Qed.

(** ** Assertions that hold on the reference domain *)

Section Asserts.

Variable SC_1000_EPS : R.
Variable debug : bool.
Hypothesis eps_pos : 0 < SC_1000_EPS.

Lemma assert_tree_range_ok (which_tree n : Z) :
  (0 <= which_tree < n)%Z -> assert_tree_range debug which_tree n = Some tt.
Proof.
  intros [Hl Hu]. unfold assert_tree_range.
  apply Z.leb_le in Hl. apply Z.ltb_lt in Hu. rewrite Hl, Hu.
  apply P4EST_ASSERT_true.
Qed.

Lemma assert_angular_ok (a : R) :
  -1 <= a <= 1 -> assert_angular SC_1000_EPS debug a = Some tt.
Proof.
  intros [Hl Hu]. unfold assert_angular.
  rewrite !Rltb_true by lra. apply P4EST_ASSERT_true.
Qed.

Lemma assert_radial_ok (c : R) :
  1 <= c <= 2 -> assert_radial SC_1000_EPS debug c = Some tt.
Proof.
  intros [Hl Hu]. unfold assert_radial.
  rewrite !Rltb_true by lra. apply P4EST_ASSERT_true.
Qed.

End Asserts.

Lemma builtin_type_eqb_refl (t : p8est_geometry_builtin_type_t) :
  builtin_type_eqb t t = true.
Proof. unfold builtin_type_eqb. apply Z.eqb_refl. Qed.

(** ** Determinants of the shell matrices *)

Lemma normalized_J_det (x y : R) :
  det3 (normalized_J x y (1 / (x * x + y * y + 1))) = 1.
Proof.
  pose proof (sum_squares_pos x y) as Hs.
  unfold det3, normalized_J. mat_simpl. field. lra.
Qed.

Lemma shell_patch_cases (which_tree : Z) :
  (0 <= which_tree < 24)%Z ->
  let patch := Z.quot which_tree 4 in
  patch = 0%Z \/ patch = 1%Z \/ patch = 2%Z \/ patch = 3%Z \/ patch = 4%Z \/ patch = 5%Z.
Proof.
  intros H patch.
  assert (0 <= patch < 6)%Z.
  { unfold patch. split.
    - apply Z.quot_pos; lia.
    - apply Z.quot_lt_upper_bound; lia. }
  lia.
Qed.

Lemma shell_J_switch_det (patch : Z) (q x y t derx dery Rlog : R) :
  (0 <= patch < 6)%Z ->
  exists Jm : mat3,
    shell_J_switch patch q x y t derx dery Rlog = Some Jm /\
    det3 Jm = det3 (normalized_J x y t) * q * q * q * derx * dery * Rlog.
Proof.
  intros H.
  assert (E : patch = 0%Z \/ patch = 1%Z \/ patch = 2%Z \/ patch = 3%Z \/
              patch = 4%Z \/ patch = 5%Z) by lia.
  destruct E as [-> | [-> | [-> | [-> | [-> | ->]]]]];
    (eexists; split; [reflexivity |
      unfold det3, normalized_J; mat_simpl; ring]).
Qed.

(** ** Shell geometry *)

Lemma shell_q_pos (R2 R1 c x y : R) :
  0 < R1 -> 0 < R2 ->
  0 < R1 * R1 / R2 * Cmath.pow (R2 / R1) c * sqrt (1 / (x * x + y * y + 1)).
Proof.
  intros H1 H2.
  assert (Hb : 0 < R2 / R1) by (apply Rdiv_lt_0_compat; assumption).
  rewrite pow_pos_base by exact Hb.
  apply Rmult_lt_0_compat; [apply Rmult_lt_0_compat|].
  - apply Rdiv_lt_0_compat; [nra | exact H2].
  - unfold Rpower. apply exp_pos.
  - apply sqrt_lt_R0. apply Rdiv_lt_0_compat; [lra | apply sum_squares_pos].
Qed.

Ltac shell_unfold :=
  cbn [X D J Jit p8est_geometry_new_shell];
  unfold p8est_geometry_shell_X, p8est_geometry_shell_D, p8est_geometry_shell_J;
  cbv zeta;
  cbn [shell_type shell_R2 shell_R1 shell_R2byR1 shell_R1sqrbyR2 shell_Rlog
       new_shell_payload].

Ltac pass_asserts eps_pos Htree Hdom :=
  let Ha := fresh "Ha" in let Hb := fresh "Hb" in let Hc := fresh "Hc" in
  pose proof Hdom as (Ha & Hb & Hc);
  rewrite ?builtin_type_eqb_refl, ?P4EST_ASSERT_true;
  rewrite ?(assert_tree_range_ok _ _ _ Htree);
  rewrite ?(assert_angular_ok _ _ eps_pos _ Ha);
  rewrite ?(assert_angular_ok _ _ eps_pos _ Hb);
  rewrite ?(assert_radial_ok _ _ eps_pos _ Hc).

Lemma shell_factor_pos (R2 R1 : R) (abc : vec3) :
  0 < R1 -> R1 < R2 -> shell_domain abc ->
  let cx := cos (v0 abc * Cmath.M_PI_4) in
  let cy := cos (v1 abc * Cmath.M_PI_4) in
  let x := tan (v0 abc * Cmath.M_PI_4) in
  let y := tan (v1 abc * Cmath.M_PI_4) in
  let q := R1 * R1 / R2 * Cmath.pow (R2 / R1) (v2 abc) * sqrt (1 / (x * x + y * y + 1)) in
  0 < 1 * q * q * q * (Cmath.M_PI_4 / (cx * cx)) * (Cmath.M_PI_4 / (cy * cy))
      * Cmath.log (R2 / R1).
Proof.
  intros H1 H12 (Ha & Hb & Hc) cx cy x y q.
  assert (Hq : 0 < q) by (apply shell_q_pos; lra).
  pose proof (der_quarter_pos _ Ha) as Hdx.
  pose proof (der_quarter_pos _ Hb) as Hdy.
  pose proof (log_ratio_pos R2 R1 H1 H12) as Hl.
  fold cx in Hdx. fold cy in Hdy.
  assert (Hq3 : 0 < 1 * q * q * q).
  { rewrite Rmult_1_l. apply Rmult_lt_0_compat; [apply Rmult_lt_0_compat|]; exact Hq. }
  apply Rmult_lt_0_compat; [apply Rmult_lt_0_compat; [apply Rmult_lt_0_compat|]|];
    assumption.
Qed.

(** C1: for the shell geometry built from 0 < R1 < R2, at every tree in
    [0, 24) and every point of the reference domain, D and J both return,
    in debug builds too (so their assertion detJ > 0 never fails), they
    return the same value, that value is the determinant of the matrix J
    fills, it equals q^3 * derx * dery * log (R2/R1) with
    q = (R1^2/R2) * (R2/R1)^abc[2] * sqrt (1 / (x^2 + y^2 + 1)),
    x = tan (abc[0] * pi/4), y = tan (abc[1] * pi/4),
    derx = (pi/4) / cos^2 (abc[0] * pi/4) and dery likewise, and it is
    strictly positive. *)
Theorem shell_detJ_positive
    (SC_1000_EPS : R) (debug : bool) (J_local : mat3)
    (R2 R1 : R) (which_tree : Z) (abc : vec3) (J_in : mat3)
    (eps_pos : 0 < SC_1000_EPS)
    (HR1 : 0 < R1) (HR12 : R1 < R2)
    (Htree : (0 <= which_tree < 24)%Z)
    (Hdom : shell_domain abc) :
  let g := p8est_geometry_new_shell SC_1000_EPS debug J_local R2 R1 in
  let x := tan (v0 abc * (PI / 4)) in
  let y := tan (v1 abc * (PI / 4)) in
  let derx := (PI / 4) / (cos (v0 abc * (PI / 4)) * cos (v0 abc * (PI / 4))) in
  let dery := (PI / 4) / (cos (v1 abc * (PI / 4)) * cos (v1 abc * (PI / 4))) in
  let q := shell_radius R2 R1 (v2 abc) * sqrt (1 / (x * x + y * y + 1)) in
  exists (Jm : mat3) (d : R),
    D g which_tree abc = Some d /\
    J g which_tree abc J_in = Some (Jm, d) /\
    d = det3 Jm /\
    d = q * q * q * derx * dery * ln (R2 / R1) /\
    0 < d.
Proof.
  intros g x y derx dery q. subst g.
  pose proof (shell_factor_pos R2 R1 abc HR1 HR12 Hdom) as Hpos. cbv zeta in Hpos.
  shell_unfold. pass_asserts eps_pos Htree Hdom.
  match goal with
  | |- context [shell_J_switch ?p ?q ?x ?y ?t ?dx ?dy ?l] =>
      destruct (shell_J_switch_det p q x y t dx dy l) as (Jm & HJm & Hdet)
  end.
  { pose proof (shell_patch_cases which_tree Htree) as Hp. cbv zeta in Hp. lia. }
  rewrite HJm.
  fold (normalized_J (tan (v0 abc * Cmath.M_PI_4)) (tan (v1 abc * Cmath.M_PI_4))
          (1 / (tan (v0 abc * Cmath.M_PI_4) * tan (v0 abc * Cmath.M_PI_4)
                + tan (v1 abc * Cmath.M_PI_4) * tan (v1 abc * Cmath.M_PI_4) + 1))).
  rewrite Hdet, normalized_J_det.
  rewrite Rltb_true by exact Hpos. rewrite P4EST_ASSERT_true.
  exists Jm. eexists.
  split; [reflexivity|]. split; [reflexivity|].
  split; [rewrite Hdet, normalized_J_det; reflexivity|].
  split; [|exact Hpos].
  subst x y derx dery q. unfold Cmath.M_PI_4, Cmath.log, shell_radius.
  rewrite pow_pos_base by (apply Rdiv_lt_0_compat; lra).
  unfold Rdiv. ring.
Qed.

(** ** The determinant-only path against the Jacobian path *)

Lemma assert_agree (debug : bool) (d d' : R) (Jm : mat3) :
  d = d' ->
  (check P4EST_ASSERT debug (Rltb 0 d); Some d)
  = option_map snd (check P4EST_ASSERT debug (Rltb 0 d'); Some (Jm, d')).
Proof.
  intros ->. destruct (P4EST_ASSERT debug (Rltb 0 d')); reflexivity.
Qed.

Ltac step_check :=
  match goal with
  | |- match ?a with Some _ => _ | None => None end
       = option_map snd (match ?a with Some _ => _ | None => None end) =>
      destruct a as [[]|]; [|reflexivity]
  end.

Ltac invert_checks H :=
  repeat match type of H with
         | match ?a with Some _ => _ | None => None end = Some _ =>
             destruct a as [?|]; [|discriminate H]
         end.

Lemma shell_D_J_agree
    (SC_1000_EPS : R) (debug : bool) (J_local : mat3)
    (R2 R1 : R) (which_tree : Z) (abc : vec3) (J_in : mat3) :
  (0 <= which_tree < 24)%Z ->
  let g := p8est_geometry_new_shell SC_1000_EPS debug J_local R2 R1 in
  D g which_tree abc = option_map snd (J g which_tree abc J_in) /\
  (forall Jm d, J g which_tree abc J_in = Some (Jm, d) -> d = det3 Jm) /\
  (debug = false -> exists Jm d, J g which_tree abc J_in = Some (Jm, d)).
Proof.
  intros Htree g. subst g. shell_unfold.
  match goal with
  | |- context [shell_J_switch ?p ?q ?x ?y ?t ?dx ?dy ?l] =>
      destruct (shell_J_switch_det p q x y t dx dy l) as (Jm & HJm & Hdet)
  end.
  { pose proof (shell_patch_cases which_tree Htree) as Hp. cbv zeta in Hp. lia. }
  rewrite HJm. split; [|split].
  - repeat step_check. apply assert_agree. rewrite Hdet. reflexivity.
  - intros Jm' d H. invert_checks H. injection H as <- <-. reflexivity.
  - intros ->. rewrite !P4EST_ASSERT_release.
    unfold assert_tree_range, assert_angular, assert_radial.
    rewrite !P4EST_ASSERT_release. eauto.
Qed.

Ltac sphere_unfold :=
  cbn [X D J Jit p8est_geometry_new_sphere];
  unfold p8est_geometry_sphere_X, p8est_geometry_sphere_D, p8est_geometry_sphere_J;
  cbv zeta;
  cbn [sphere_type sphere_R2 sphere_R1 sphere_R0 sphere_R2byR1 sphere_R1sqrbyR2
       sphere_R1log sphere_R1byR0 sphere_R0sqrbyR1 sphere_R0log sphere_Clength
       sphere_CdetJ new_sphere_payload].

Lemma sphere_tree_cases (which_tree : Z) :
  (0 <= which_tree < 13)%Z ->
  which_tree = 0%Z \/ which_tree = 1%Z \/ which_tree = 2%Z \/ which_tree = 3%Z \/
  which_tree = 4%Z \/ which_tree = 5%Z \/ which_tree = 6%Z \/ which_tree = 7%Z \/
  which_tree = 8%Z \/ which_tree = 9%Z \/ which_tree = 10%Z \/ which_tree = 11%Z \/
  which_tree = 12%Z.
Proof. lia. Qed.

Ltac each_sphere_tree H :=
  destruct (sphere_tree_cases _ H)
    as [-> | [-> | [-> | [-> | [-> | [-> | [-> | [-> | [-> | [-> | [-> | [-> | ->]]]]]]]]]]]].

Lemma center_cube_det (L : R) : det3 (mat_of L 0 0 0 L 0 0 0 L) = L * L * L.
Proof. unfold det3. mat_simpl. ring. Qed.

Lemma sphere_D_J_agree
    (SC_1000_EPS : R) (debug : bool) (J_local : mat3)
    (R2 R1 R0 : R) (which_tree : Z) (abc : vec3) (J_in : mat3) :
  (0 <= which_tree < 13)%Z ->
  let g := p8est_geometry_new_sphere SC_1000_EPS debug J_local R2 R1 R0 in
  D g which_tree abc = option_map snd (J g which_tree abc J_in) /\
  (forall Jm d, J g which_tree abc J_in = Some (Jm, d) -> d = det3 Jm) /\
  (debug = false -> exists Jm d, J g which_tree abc J_in = Some (Jm, d)).
Proof.
  intros Htree g. subst g. sphere_unfold.
  split; [|split].
  - each_sphere_tree Htree;
      cbn [Z.ltb Z.compare Pos.compare Pos.compare_cont Z.sub Z.add Z.opp Z.pos_sub
           Pos.pred_double];
      repeat step_check; try reflexivity;
      apply assert_agree; unfold det3; mat_simpl; ring.
  - intros Jm d H.
    each_sphere_tree Htree;
      cbn [Z.ltb Z.compare Pos.compare Pos.compare_cont Z.sub Z.add Z.opp Z.pos_sub
           Pos.pred_double] in H;
      invert_checks H; injection H as <- <-; try reflexivity.
    rewrite center_cube_det, pow_three. reflexivity.
  - intros ->. rewrite !P4EST_ASSERT_release.
    unfold assert_tree_range, assert_sphere_radial, assert_angular, assert_radial.
    rewrite !P4EST_ASSERT_release.
    destruct (which_tree <? 12)%Z; destruct (which_tree <? 6)%Z; eauto.
Qed.

(** C2: for each built-in geometry (identity; shell at a tree in [0, 24);
    sphere at a tree in [0, 13)) the determinant-only operation D and the
    Jacobian operation J agree at the same (tree, abc): D returns exactly
    when J does (an assertion of a debug build stops both or neither), the
    value J returns is the determinant of the matrix it fills, and D
    returns that same value; in a build without assertions J always
    returns. *)
Theorem D_equals_det_of_J
    (SC_1000_EPS : R) (debug : bool) (J_local : mat3)
    (which_tree : Z) (abc : vec3) (J_in : mat3) :
  (let g := p8est_geometry_new_identity in
   exists Jm d, J g which_tree abc J_in = Some (Jm, d) /\
                D g which_tree abc = Some d /\ d = det3 Jm) /\
  (forall R2 R1 : R, (0 <= which_tree < 24)%Z ->
   let g := p8est_geometry_new_shell SC_1000_EPS debug J_local R2 R1 in
   D g which_tree abc = option_map snd (J g which_tree abc J_in) /\
   (forall Jm d, J g which_tree abc J_in = Some (Jm, d) ->
                 D g which_tree abc = Some d /\ d = det3 Jm) /\
   (debug = false -> exists Jm d, J g which_tree abc J_in = Some (Jm, d))) /\
  (forall R2 R1 R0 : R, (0 <= which_tree < 13)%Z ->
   let g := p8est_geometry_new_sphere SC_1000_EPS debug J_local R2 R1 R0 in
   D g which_tree abc = option_map snd (J g which_tree abc J_in) /\
   (forall Jm d, J g which_tree abc J_in = Some (Jm, d) ->
                 D g which_tree abc = Some d /\ d = det3 Jm) /\
   (debug = false -> exists Jm d, J g which_tree abc J_in = Some (Jm, d))).
Proof.
  split; [|split].
  - exists mat_identity, 1. repeat split.
    unfold det3. mat_simpl. ring.
  - intros R2 R1 Htree g.
    destruct (shell_D_J_agree SC_1000_EPS debug J_local R2 R1 which_tree abc J_in Htree)
      as (Hagree & Hdet & Hret).
    fold g in Hagree, Hdet, Hret.
    split; [exact Hagree | split; [|exact Hret]].
    intros Jm d H. split; [|exact (Hdet Jm d H)].
    rewrite Hagree, H. reflexivity.
  - intros R2 R1 R0 Htree g.
    destruct (sphere_D_J_agree SC_1000_EPS debug J_local R2 R1 R0 which_tree abc J_in Htree)
      as (Hagree & Hdet & Hret).
    fold g in Hagree, Hdet, Hret.
    split; [exact Hagree | split; [|exact Hret]].
    intros Jm d H. split; [|exact (Hdet Jm d H)].
    rewrite Hagree, H. reflexivity.
Qed.

(** ** Shell forward map *)

Lemma shell_X_on_domain
    (SC_1000_EPS : R) (debug : bool) (R2 R1 : R) (which_tree : Z) (abc : vec3) :
  0 < SC_1000_EPS -> (0 <= which_tree < 24)%Z -> shell_domain abc ->
  p8est_geometry_shell_X SC_1000_EPS debug (new_shell_payload R2 R1) which_tree abc
  = let x := tan (v0 abc * Cmath.M_PI_4) in
    let y := tan (v1 abc * Cmath.M_PI_4) in
    let q := R1 * R1 / R2 * Cmath.pow (R2 / R1) (v2 abc) / sqrt (x * x + y * y + 1) in
    shell_X_switch (Z.quot which_tree 4) q x y.
Proof.
  intros eps_pos Htree Hdom. shell_unfold. pass_asserts eps_pos Htree Hdom.
  reflexivity.
Qed.

Lemma shell_X_axis_switch
    (SC_1000_EPS : R) (debug : bool) (J_local : mat3)
    (R2 R1 : R) (which_tree : Z) (c : R) :
  0 < SC_1000_EPS -> (0 <= which_tree < 24)%Z -> 1 <= c <= 2 ->
  X (p8est_geometry_new_shell SC_1000_EPS debug J_local R2 R1) which_tree (V3 0 0 c)
  = shell_X_switch (Z.quot which_tree 4) (R1 ^ 2 / R2 * Cmath.pow (R2 / R1) c) 0 0.
Proof.
  intros eps_pos Htree Hc.
  cbn [X p8est_geometry_new_shell].
  rewrite shell_X_on_domain; [|exact eps_pos|exact Htree|].
  2:{ unfold shell_domain; cbn [v0 v1 v2]; lra. }
  cbv zeta. cbn [v0 v1 v2]. rewrite Rmult_0_l, tan_0.
  replace (0 * 0 + 0 * 0 + 1) with 1 by ring. rewrite sqrt_1.
  f_equal. unfold Rdiv. rewrite Rinv_1. ring.
Qed.

Lemma half_power_three_halves : 0.5 * Rpower 2 1.5 = sqrt 2.
Proof.
  replace 1.5 with (1 + / 2) by lra.
  rewrite Rpower_plus, Rpower_1, Rpower_sqrt by lra. lra.
Qed.

(** C4: on the axis of a shell patch (abc = (0, 0, c) with c in [1, 2])
    the forward map returns the point at distance
    R = (R1^2/R2) * (R2/R1)^c on the coordinate axis of the patch, with the
    sign of the patch: a signed permutation of (R, 0, 0).  With R1 = 1,
    R2 = 2, tree 0 and abc = (0, 0, 1.5) it returns (R, 0, 0) with
    R = 0.5 * 2^1.5, which is the square root of 2. *)
Theorem shell_X_on_axis
    (SC_1000_EPS : R) (debug : bool) (J_local : mat3)
    (R2 R1 : R) (which_tree : Z) (c : R)
    (eps_pos : 0 < SC_1000_EPS)
    (Htree : (0 <= which_tree < 24)%Z)
    (Hc : 1 <= c <= 2) :
  let g := p8est_geometry_new_shell SC_1000_EPS debug J_local R2 R1 in
  let Rc := R1 ^ 2 / R2 * Cmath.pow (R2 / R1) c in
  (0 < R1 -> 0 < R2 -> Rc = shell_radius R2 R1 c) /\
  (exists xyz : vec3,
     X g which_tree (V3 0 0 c) = Some xyz /\
     ((Z.quot which_tree 4 = 0%Z /\ xyz = V3 Rc 0 0) \/
      (Z.quot which_tree 4 = 1%Z /\ xyz = V3 0 0 (- Rc)) \/
      (Z.quot which_tree 4 = 2%Z /\ xyz = V3 (- Rc) 0 0) \/
      (Z.quot which_tree 4 = 3%Z /\ xyz = V3 0 0 Rc) \/
      (Z.quot which_tree 4 = 4%Z /\ xyz = V3 0 Rc 0) \/
      (Z.quot which_tree 4 = 5%Z /\ xyz = V3 0 (- Rc) 0))) /\
  X (p8est_geometry_new_shell SC_1000_EPS debug J_local 2 1) 0 (V3 0 0 1.5)
  = Some (V3 (0.5 * Rpower 2 1.5) 0 0) /\
  0.5 * Rpower 2 1.5 = sqrt 2.
Proof.
  intros g Rc. subst g. split; [|split; [|split]].
  - intros H1 H2. unfold Rc, shell_radius.
    rewrite pow_pos_base by (apply Rdiv_lt_0_compat; assumption). reflexivity.
  - rewrite shell_X_axis_switch by assumption. fold Rc.
    pose proof (shell_patch_cases which_tree Htree) as Hp. cbv zeta in Hp.
    destruct Hp as [E | [E | [E | [E | [E | E]]]]]; rewrite E;
      unfold shell_X_switch; cbn [Z.eqb Pos.eqb]; eexists; (split; [reflexivity|]).
    + left. split; [reflexivity|]. f_equal; ring.
    + right; left. split; [reflexivity|]. f_equal; ring.
    + right; right; left. split; [reflexivity|]. f_equal; ring.
    + right; right; right; left. split; [reflexivity|]. f_equal; ring.
    + right; right; right; right; left. split; [reflexivity|]. f_equal; ring.
    + right; right; right; right; right. split; [reflexivity|]. f_equal; ring.
  - rewrite shell_X_axis_switch by (try assumption; try lia; lra).
    change (Z.quot 0 4) with 0%Z. unfold shell_X_switch. cbn [Z.eqb Pos.eqb].
    rewrite pow_pos_base by lra.
    replace (2 / 1) with 2 by field.
    f_equal. f_equal; lra.
  - exact half_power_three_halves.
Qed.

Lemma shell_X_switch_norm (patch : Z) (q x y : R) :
  (0 <= patch < 6)%Z -> 0 <= q ->
  exists xyz : vec3,
    shell_X_switch patch q x y = Some xyz /\
    norm3 xyz = q * sqrt (x * x + y * y + 1).
Proof.
  intros H Hq.
  assert (Hn : forall u v w : R,
             u * u + v * v + w * w = q * q * (x * x + y * y + 1) ->
             norm3 (V3 u v w) = q * sqrt (x * x + y * y + 1)).
  { intros u v w E. unfold norm3. cbn [v0 v1 v2]. rewrite E.
    rewrite sqrt_mult by (try apply Rle_0_sqr; pose proof (sum_squares_pos x y); nra).
    rewrite sqrt_square by exact Hq. reflexivity. }
  assert (E : patch = 0%Z \/ patch = 1%Z \/ patch = 2%Z \/ patch = 3%Z \/
              patch = 4%Z \/ patch = 5%Z) by lia.
  destruct E as [-> | [-> | [-> | [-> | [-> | ->]]]]];
    (eexists; split; [reflexivity | apply Hn; ring]).
Qed.

Lemma shell_radius_pos (R2 R1 c : R) : 0 < R1 -> 0 < R2 -> 0 < shell_radius R2 R1 c.
Proof.
  intros H1 H2. unfold shell_radius. apply Rmult_lt_0_compat.
  - apply Rdiv_lt_0_compat; [nra | exact H2].
  - unfold Rpower. apply exp_pos.
Qed.

Lemma shell_radius_inner (R2 R1 : R) : 0 < R1 -> 0 < R2 -> shell_radius R2 R1 1 = R1.
Proof.
  intros H1 H2. unfold shell_radius.
  rewrite Rpower_1 by (apply Rdiv_lt_0_compat; assumption). field. lra.
Qed.

Lemma shell_radius_outer (R2 R1 : R) : 0 < R1 -> 0 < R2 -> shell_radius R2 R1 2 = R2.
Proof.
  intros H1 H2. unfold shell_radius.
  replace (Rpower (R2 / R1) 2) with (Rpower (R2 / R1) (1 + 1)) by (f_equal; ring).
  rewrite Rpower_plus, Rpower_1 by (apply Rdiv_lt_0_compat; assumption). field. lra.
Qed.

(** C9: the point that the shell forward map returns lies at distance
    (R1^2/R2) * (R2/R1)^abc[2] from the origin, whatever the tree and the
    two angular coordinates; hence the reference face abc[2] = 1 lands on
    the sphere of radius R1 and the face abc[2] = 2 on the sphere of
    radius R2. *)
Theorem shell_X_norm
    (SC_1000_EPS : R) (debug : bool) (J_local : mat3)
    (R2 R1 : R) (which_tree : Z) (abc : vec3)
    (eps_pos : 0 < SC_1000_EPS)
    (HR1 : 0 < R1) (HR2 : 0 < R2)
    (Htree : (0 <= which_tree < 24)%Z)
    (Hdom : shell_domain abc) :
  exists xyz : vec3,
    X (p8est_geometry_new_shell SC_1000_EPS debug J_local R2 R1) which_tree abc
      = Some xyz /\
    norm3 xyz = shell_radius R2 R1 (v2 abc) /\
    (v2 abc = 1 -> norm3 xyz = R1) /\
    (v2 abc = 2 -> norm3 xyz = R2).
Proof.
  cbn [X p8est_geometry_new_shell].
  rewrite shell_X_on_domain by assumption. cbv zeta.
  set (x := tan (v0 abc * Cmath.M_PI_4)).
  set (y := tan (v1 abc * Cmath.M_PI_4)).
  rewrite pow_pos_base by (apply Rdiv_lt_0_compat; assumption).
  replace (R1 * R1 / R2 * Rpower (R2 / R1) (v2 abc))
    with (shell_radius R2 R1 (v2 abc)) by (unfold shell_radius; field; lra).
  pose proof (shell_radius_pos R2 R1 (v2 abc) HR1 HR2) as HR.
  pose proof (sum_squares_pos x y) as Hs.
  pose proof (sqrt_lt_R0 _ Hs) as Hss.
  destruct (shell_X_switch_norm (Z.quot which_tree 4)
              (shell_radius R2 R1 (v2 abc) / sqrt (x * x + y * y + 1)) x y)
    as (xyz & HX & Hn).
  { pose proof (shell_patch_cases which_tree Htree) as Hp. cbv zeta in Hp. lia. }
  { apply Rlt_le. apply Rdiv_lt_0_compat; assumption. }
  exists xyz. split; [exact HX|].
  assert (E : norm3 xyz = shell_radius R2 R1 (v2 abc)).
  { rewrite Hn. field. lra. }
  split; [exact E | split].
  - intros Hc. rewrite E, Hc. apply shell_radius_inner; assumption.
  - intros Hc. rewrite E, Hc. apply shell_radius_outer; assumption.
Qed.

(** C10: the shell operations see the tree index only through
    which_tree / 4: two trees of [0, 24) with the same quotient give the
    same X, J and D outputs at every abc; D gives the same output for any
    two trees of [0, 24); in a build without assertions all three
    operations return a result. *)
Theorem shell_tree_only_through_patch
    (SC_1000_EPS : R) (debug : bool) (J_local : mat3)
    (R2 R1 : R) (t t' : Z) (abc : vec3) (J_in : mat3)
    (Ht : (0 <= t < 24)%Z) (Ht' : (0 <= t' < 24)%Z) :
  let g := p8est_geometry_new_shell SC_1000_EPS debug J_local R2 R1 in
  (Z.quot t 4 = Z.quot t' 4 ->
     X g t abc = X g t' abc /\
     J g t abc J_in = J g t' abc J_in /\
     D g t abc = D g t' abc) /\
  D g t abc = D g t' abc /\
  (debug = false ->
     (exists xyz, X g t abc = Some xyz) /\
     (exists Jm d, J g t abc J_in = Some (Jm, d)) /\
     (exists d, D g t abc = Some d)).
Proof.
  intros g.
  assert (HD : D g t abc = D g t' abc).
  { subst g. shell_unfold.
    rewrite (assert_tree_range_ok debug t 24 Ht).
    rewrite (assert_tree_range_ok debug t' 24 Ht'). reflexivity. }
  split; [|split].
  - intros E. split; [|split].
    + subst g. shell_unfold.
      rewrite (assert_tree_range_ok debug t 24 Ht).
      rewrite (assert_tree_range_ok debug t' 24 Ht'). rewrite E. reflexivity.
    + subst g. shell_unfold.
      rewrite (assert_tree_range_ok debug t 24 Ht).
      rewrite (assert_tree_range_ok debug t' 24 Ht'). rewrite E. reflexivity.
    + exact HD.
  - exact HD.
  - intros Hrel.
    destruct (shell_D_J_agree SC_1000_EPS debug J_local R2 R1 t abc J_in Ht)
      as (Hagree & _ & Hret).
    fold g in Hagree, Hret. destruct (Hret Hrel) as (Jm & d & HJ).
    split; [|split].
    + subst g debug. shell_unfold.
      unfold assert_tree_range, assert_angular, assert_radial.
      rewrite !P4EST_ASSERT_release.
      pose proof (shell_patch_cases t Ht) as Hp. cbv zeta in Hp.
      destruct Hp as [E | [E | [E | [E | [E | E]]]]]; rewrite E;
        unfold shell_X_switch; cbn [Z.eqb Pos.eqb]; eauto.
    + eauto.
    + exists d. rewrite Hagree, HJ. reflexivity.
Qed.

(** ** Sphere geometry *)

Lemma sphere_X_outer
    (SC_1000_EPS : R) (debug : bool) (R2 R1 R0 : R) (which_tree : Z) (abc : vec3) :
  0 < SC_1000_EPS -> (0 <= which_tree < 6)%Z -> shell_domain abc ->
  p8est_geometry_sphere_X SC_1000_EPS debug (new_sphere_payload R2 R1 R0) which_tree abc
  = let x := tan (v0 abc * Cmath.M_PI_4) in
    let y := tan (v1 abc * Cmath.M_PI_4) in
    let q := R1 * R1 / R2 * Cmath.pow (R2 / R1) (v2 abc) / sqrt (x * x + y * y + 1) in
    sphere_X_switch (Z.rem which_tree 6) q x y.
Proof.
  intros eps_pos Htree Hdom. sphere_unfold.
  assert (Ht13 : (0 <= which_tree < 13)%Z) by lia.
  unfold assert_sphere_radial.
  replace (which_tree <? 12)%Z with true by (symmetry; apply Z.ltb_lt; lia).
  replace (which_tree <? 6)%Z with true by (symmetry; apply Z.ltb_lt; lia).
  pass_asserts eps_pos Ht13 Hdom. reflexivity.
Qed.

Lemma sphere_X_inner
    (SC_1000_EPS : R) (debug : bool) (R2 R1 R0 : R) (which_tree : Z) (abc : vec3) :
  0 < SC_1000_EPS -> (6 <= which_tree < 12)%Z -> shell_domain abc ->
  p8est_geometry_sphere_X SC_1000_EPS debug (new_sphere_payload R2 R1 R0) which_tree abc
  = let p := 2 - v2 abc in
    let tanx := tan (v0 abc * Cmath.M_PI_4) in
    let tany := tan (v1 abc * Cmath.M_PI_4) in
    let x := p * v0 abc + (1 - p) * tanx in
    let y := p * v1 abc + (1 - p) * tany in
    let q := R0 * R0 / R1 * Cmath.pow (R1 / R0) (v2 abc)
             / sqrt (1 + (1 - p) * (tanx * tanx + tany * tany) + 2 * p) in
    sphere_X_switch (Z.rem which_tree 6) q x y.
Proof.
  intros eps_pos Htree Hdom. sphere_unfold.
  assert (Ht13 : (0 <= which_tree < 13)%Z) by lia.
  unfold assert_sphere_radial.
  replace (which_tree <? 12)%Z with true by (symmetry; apply Z.ltb_lt; lia).
  replace (which_tree <? 6)%Z with false by (symmetry; apply Z.ltb_ge; lia).
  pass_asserts eps_pos Ht13 Hdom. reflexivity.
Qed.

Lemma sphere_center_asserts (SC_1000_EPS : R) (debug : bool) (abc : vec3) :
  (debug = true -> cube_asserted SC_1000_EPS abc) ->
  assert_angular SC_1000_EPS debug (v0 abc) = Some tt /\
  assert_angular SC_1000_EPS debug (v1 abc) = Some tt /\
  assert_sphere_radial SC_1000_EPS debug 12 (v2 abc) = Some tt.
Proof.
  intros H. unfold assert_sphere_radial. change (12 <? 12)%Z with false. cbv iota.
  unfold assert_angular. destruct debug.
  - destruct (H eq_refl) as ((? & ?) & (? & ?) & (? & ?)).
    rewrite !Rltb_true by assumption. repeat split.
  - repeat split.
Qed.

Lemma sphere_X_center
    (SC_1000_EPS : R) (debug : bool) (R2 R1 R0 : R) (abc : vec3) :
  (debug = true -> cube_asserted SC_1000_EPS abc) ->
  p8est_geometry_sphere_X SC_1000_EPS debug (new_sphere_payload R2 R1 R0) 12 abc
  = Some (V3 (v0 abc * (R0 / sqrt 3)) (v1 abc * (R0 / sqrt 3)) (v2 abc * (R0 / sqrt 3))).
Proof.
  intros H. destruct (sphere_center_asserts SC_1000_EPS debug abc H) as (Ea & Eb & Ec).
  sphere_unfold. rewrite builtin_type_eqb_refl, P4EST_ASSERT_true.
  rewrite (assert_tree_range_ok debug 12 13) by lia.
  rewrite Ea, Eb, Ec. reflexivity.
Qed.

(** In a debug build the range assertions stop the center-cube path away
    from the reference cube: this is the only way the build flavour shows
    in the results below. *)
Lemma sphere_center_debug_abort
    (SC_1000_EPS : R) (R2 R1 R0 : R) (abc : vec3) :
  1 + SC_1000_EPS <= v0 abc ->
  p8est_geometry_sphere_X SC_1000_EPS true (new_sphere_payload R2 R1 R0) 12 abc = None.
Proof.
  intros H. sphere_unfold. rewrite builtin_type_eqb_refl.
  unfold P4EST_ASSERT at 1. unfold assert_tree_range. cbn [Z.leb Z.ltb Z.compare
    Pos.compare Pos.compare_cont andb P4EST_ASSERT].
  unfold assert_angular at 1.
  rewrite (Rltb_false (v0 abc) (1 + SC_1000_EPS)) by lra.
  reflexivity.
Qed.

Lemma sphere_center_ops
    (SC_1000_EPS : R) (debug : bool) (J_local : mat3)
    (R2 R1 R0 : R) (abc : vec3) (J_in : mat3) :
  (debug = true -> cube_asserted SC_1000_EPS abc) ->
  let g := p8est_geometry_new_sphere SC_1000_EPS debug J_local R2 R1 R0 in
  let L := R0 / sqrt 3 in
  X g 12 abc = Some (vec_scale L abc) /\
  J g 12 abc J_in = Some (mat_of L 0 0 0 L 0 0 0 L, L ^ 3) /\
  D g 12 abc = Some (L ^ 3).
Proof.
  intros Hassert g L. subst g L.
  destruct (sphere_center_asserts SC_1000_EPS debug abc Hassert) as (Ea & Eb & Ec).
  split; [|split].
  - cbn [X p8est_geometry_new_sphere].
    rewrite sphere_X_center by exact Hassert.
    unfold vec_scale. f_equal. f_equal; ring.
  - sphere_unfold. rewrite builtin_type_eqb_refl, P4EST_ASSERT_true.
    rewrite (assert_tree_range_ok debug 12 13) by lia.
    rewrite Ea, Eb, Ec. change (12 <? 6)%Z with false. change (12 <? 12)%Z with false.
    cbv iota. rewrite pow_three.
    replace ((R0 / sqrt 3) ^ 3) with (R0 / sqrt 3 * (R0 / sqrt 3) * (R0 / sqrt 3)) by ring.
    reflexivity.
  - sphere_unfold. rewrite builtin_type_eqb_refl, P4EST_ASSERT_true.
    rewrite (assert_tree_range_ok debug 12 13) by lia.
    rewrite Ea, Eb, Ec. change (12 <? 6)%Z with false. change (12 <? 12)%Z with false.
    cbv iota. rewrite pow_three.
    replace ((R0 / sqrt 3) ^ 3) with (R0 / sqrt 3 * (R0 / sqrt 3) * (R0 / sqrt 3)) by ring.
    reflexivity.
Qed.

(** C6: on the center cube (tree 12) of the sphere geometry, for every
    abc, X returns abc scaled componentwise by R0/sqrt(3), J fills the
    diagonal matrix with R0/sqrt(3) on the diagonal, and J and D return the
    constant (R0/sqrt(3))^3.  With R0 = 0.5 and abc = (1, 1, 1): X returns
    (0.5/sqrt(3), 0.5/sqrt(3), 0.5/sqrt(3)) and D returns (0.5/sqrt(3))^3.
    A debug build computes the same results at every abc that its range
    assertions accept. *)
Theorem sphere_center_cube
    (SC_1000_EPS : R) (J_local : mat3) (R2 R1 R0 : R) (abc : vec3) (J_in : mat3) :
  let L := R0 / sqrt 3 in
  let ops (g : p8est_geometry_t) :=
    X g 12 abc = Some (vec_scale L abc) /\
    J g 12 abc J_in = Some (mat_of L 0 0 0 L 0 0 0 L, L ^ 3) /\
    D g 12 abc = Some (L ^ 3) in
  let ops5 (g : p8est_geometry_t) :=
    X g 12 (V3 1 1 1) = Some (V3 (0.5 / sqrt 3) (0.5 / sqrt 3) (0.5 / sqrt 3)) /\
    D g 12 (V3 1 1 1) = Some ((0.5 / sqrt 3) ^ 3) in
  ops (p8est_geometry_new_sphere SC_1000_EPS false J_local R2 R1 R0) /\
  ops5 (p8est_geometry_new_sphere SC_1000_EPS false J_local R2 R1 0.5) /\
  (cube_asserted SC_1000_EPS abc ->
   ops (p8est_geometry_new_sphere SC_1000_EPS true J_local R2 R1 R0)) /\
  (0 < SC_1000_EPS ->
   ops5 (p8est_geometry_new_sphere SC_1000_EPS true J_local R2 R1 0.5)).
Proof.
  intros L ops ops5.
  assert (H5 : forall debug,
             (debug = true -> cube_asserted SC_1000_EPS (V3 1 1 1)) ->
             ops5 (p8est_geometry_new_sphere SC_1000_EPS debug J_local R2 R1 0.5)).
  { intros debug Hd.
    destruct (sphere_center_ops SC_1000_EPS debug J_local R2 R1 0.5 (V3 1 1 1) J_in Hd)
      as (HX & _ & HD).
    split; [|exact HD].
    rewrite HX. unfold vec_scale. cbn [v0 v1 v2]. f_equal. f_equal; ring. }
  split; [|split; [|split]].
  - apply sphere_center_ops. discriminate.
  - apply H5. discriminate.
  - intros Hassert. apply sphere_center_ops. intros _. exact Hassert.
  - intros Heps. apply H5. intros _.
    unfold cube_asserted. cbn [v0 v1 v2]. repeat split; lra.
Qed.

Lemma inner_tree_cases (t : Z) :
  (6 <= t < 12)%Z ->
  t = 6%Z \/ t = 7%Z \/ t = 8%Z \/ t = 9%Z \/ t = 10%Z \/ t = 11%Z.
Proof. lia. Qed.

Lemma rem_inner_to_outer (t : Z) : (6 <= t < 12)%Z -> Z.rem (t - 6) 6 = Z.rem t 6.
Proof.
  intros H.
  destruct (inner_tree_cases t H) as [-> | [-> | [-> | [-> | [-> | ->]]]]]; reflexivity.
Qed.

Lemma rem_inner_range (t : Z) : (6 <= t < 12)%Z -> (0 <= Z.rem t 6 < 6)%Z.
Proof. intros H. apply Z.rem_bound_pos; lia. Qed.

Lemma sphere_X_switch_total (dir : Z) (q x y : R) :
  (0 <= dir < 6)%Z -> exists xyz : vec3, sphere_X_switch dir q x y = Some xyz.
Proof.
  intros H.
  assert (E : dir = 0%Z \/ dir = 1%Z \/ dir = 2%Z \/ dir = 3%Z \/ dir = 4%Z \/ dir = 5%Z)
    by lia.
  destruct E as [-> | [-> | [-> | [-> | [-> | ->]]]]]; eexists; reflexivity.
Qed.

Lemma sphere_X_inner_outer_face
    (SC_1000_EPS : R) (debug : bool) (R2 R1 R0 : R) (t : Z) (a b : R) :
  0 < SC_1000_EPS -> R0 <> 0 -> R1 <> 0 -> R2 <> 0 ->
  (6 <= t < 12)%Z -> -1 <= a <= 1 -> -1 <= b <= 1 ->
  let x := tan (a * Cmath.M_PI_4) in
  let y := tan (b * Cmath.M_PI_4) in
  let q := R1 / sqrt (x * x + y * y + 1) in
  p8est_geometry_sphere_X SC_1000_EPS debug (new_sphere_payload R2 R1 R0) t (V3 a b 2)
    = sphere_X_switch (Z.rem t 6) q x y /\
  p8est_geometry_sphere_X SC_1000_EPS debug (new_sphere_payload R2 R1 R0) (t - 6) (V3 a b 1)
    = sphere_X_switch (Z.rem t 6) q x y.
Proof.
  intros eps_pos HR0 HR1 HR2 Ht Ha Hb x y q.
  rewrite sphere_X_inner; [|exact eps_pos|exact Ht|].
  2:{ unfold shell_domain; cbn [v0 v1 v2]; lra. }
  rewrite sphere_X_outer; [|exact eps_pos|lia|].
  2:{ unfold shell_domain; cbn [v0 v1 v2]; lra. }
  cbv zeta. cbn [v0 v1 v2]. fold x y.
  rewrite (rem_inner_to_outer t Ht), pow_two, pow_one.
  replace ((2 - 2) * a + (1 - (2 - 2)) * x) with x by ring.
  replace ((2 - 2) * b + (1 - (2 - 2)) * y) with y by ring.
  replace (1 + (1 - (2 - 2)) * (x * x + y * y) + 2 * (2 - 2))
    with (x * x + y * y + 1) by ring.
  replace (R0 * R0 / R1 * (R1 / R0 * (R1 / R0))) with R1 by (field; split; assumption).
  replace (R1 * R1 / R2 * (R2 / R1)) with R1 by (field; split; assumption).
  split; reflexivity.
Qed.

Lemma sphere_X_inner_linear_face
    (SC_1000_EPS : R) (debug : bool) (R2 R1 R0 : R) (t : Z) (a b : R) :
  0 < SC_1000_EPS -> R0 <> 0 -> R1 <> 0 ->
  (6 <= t < 12)%Z -> -1 <= a <= 1 -> -1 <= b <= 1 ->
  p8est_geometry_sphere_X SC_1000_EPS debug (new_sphere_payload R2 R1 R0) t (V3 a b 1)
    = sphere_X_switch (Z.rem t 6) (R0 / sqrt 3) a b.
Proof.
  intros eps_pos HR0 HR1 Ht Ha Hb.
  rewrite sphere_X_inner; [|exact eps_pos|exact Ht|].
  2:{ unfold shell_domain; cbn [v0 v1 v2]; lra. }
  cbv zeta. cbn [v0 v1 v2]. rewrite pow_one.
  set (x := tan (a * Cmath.M_PI_4)). set (y := tan (b * Cmath.M_PI_4)).
  replace ((2 - 1) * a + (1 - (2 - 1)) * x) with a by ring.
  replace ((2 - 1) * b + (1 - (2 - 1)) * y) with b by ring.
  replace (1 + (1 - (2 - 1)) * (x * x + y * y) + 2 * (2 - 1)) with 3 by ring.
  replace (R0 * R0 / R1 * (R1 / R0)) with R0 by (field; split; assumption).
  reflexivity.
Qed.

Lemma radius_squared (R1 x y : R) :
  let q := R1 / sqrt (x * x + y * y + 1) in
  q * q * (x * x + y * y + 1) = R1 * R1.
Proof.
  intros q. subst q. pose proof (sum_squares_pos x y) as Hs.
  pose proof (sqrt_lt_R0 _ Hs) as Hss.
  rewrite <- (sqrt_sqrt (x * x + y * y + 1)) at 3 by lra. field. lra.
Qed.

(** C5: the sphere forward map agrees on both sides of its two radial
    interfaces.  (i) For an inner-shell tree t in [6, 12) and a, b in
    [-1, 1], X at (t, (a, b, 2)) and X at the outer-shell tree t - 6 at
    (a, b, 1) are the same point: with x = tan (a * pi/4),
    y = tan (b * pi/4) and q = R1 / sqrt (x^2 + y^2 + 1) it is
    (q x, -q, q y) for t = 6 (front), (q x, q y, q) for t = 7 (top),
    (q x, q, -q y) for t = 8 (back), (q, -q x, -q y) for t = 9 (right),
    (-q y, -q x, -q) for t = 10 (bottom) and (-q, -q x, q y) for t = 11
    (left); the squares of its coordinates sum to R1^2, so it lies at
    distance R1 from the origin.  (ii) At abc[2] = 1 the inner-shell map
    is linear with q = R0/sqrt(3): X at (t, (a, b, 1)) is R0/sqrt(3) times
    the point P = (a, -1, b), (a, b, 1), (a, 1, -b), (1, -a, -b),
    (-b, -a, -1), (-1, -a, b) for t = 6, ..., 11, a signed permutation of
    (1, a, b) that lies on a face of the cube [-1, 1]^3, and the center
    cube (tree 12) sends P to the same point. *)
Theorem sphere_X_radial_interfaces
    (SC_1000_EPS : R) (debug : bool) (J_local : mat3)
    (R2 R1 R0 : R) (t : Z) (a b : R)
    (eps_pos : 0 < SC_1000_EPS)
    (HR0 : R0 <> 0) (HR1 : R1 <> 0) (HR2 : R2 <> 0)
    (Ht : (6 <= t < 12)%Z)
    (Ha : -1 <= a <= 1) (Hb : -1 <= b <= 1) :
  let g := p8est_geometry_new_sphere SC_1000_EPS debug J_local R2 R1 R0 in
  let x := tan (a * (PI / 4)) in
  let y := tan (b * (PI / 4)) in
  let q := R1 / sqrt (x * x + y * y + 1) in
  let L := R0 / sqrt 3 in
  (exists xyz : vec3,
     X g t (V3 a b 2) = Some xyz /\
     X g (t - 6) (V3 a b 1) = Some xyz /\
     ((t = 6%Z /\ xyz = V3 (q * x) (- q) (q * y)) \/
      (t = 7%Z /\ xyz = V3 (q * x) (q * y) q) \/
      (t = 8%Z /\ xyz = V3 (q * x) q (- (q * y))) \/
      (t = 9%Z /\ xyz = V3 q (- (q * x)) (- (q * y))) \/
      (t = 10%Z /\ xyz = V3 (- (q * y)) (- (q * x)) (- q)) \/
      (t = 11%Z /\ xyz = V3 (- q) (- (q * x)) (q * y))) /\
     v0 xyz * v0 xyz + v1 xyz * v1 xyz + v2 xyz * v2 xyz = R1 * R1 /\
     (0 < R1 -> norm3 xyz = R1)) /\
  (exists xyz P : vec3,
     X g t (V3 a b 1) = Some xyz /\
     ((t = 6%Z /\ P = V3 a (-1) b) \/
      (t = 7%Z /\ P = V3 a b 1) \/
      (t = 8%Z /\ P = V3 a 1 (- b)) \/
      (t = 9%Z /\ P = V3 1 (- a) (- b)) \/
      (t = 10%Z /\ P = V3 (- b) (- a) (-1)) \/
      (t = 11%Z /\ P = V3 (-1) (- a) b)) /\
     xyz = V3 (L * v0 P) (L * v1 P) (L * v2 P) /\
     cube_domain P /\ on_cube_face P /\
     X g 12 P = Some xyz).
Proof.
  intros g x y q L. subst g. cbn [X p8est_geometry_new_sphere].
  destruct (sphere_X_inner_outer_face SC_1000_EPS debug R2 R1 R0 t a b
              eps_pos HR0 HR1 HR2 Ht Ha Hb) as (Hin & Hout).
  cbv zeta in Hin, Hout. unfold Cmath.M_PI_4 in Hin, Hout. fold x y q in Hin, Hout.
  pose proof (sphere_X_inner_linear_face SC_1000_EPS debug R2 R1 R0 t a b
                eps_pos HR0 HR1 Ht Ha Hb) as Hlin. fold L in Hlin.
  pose proof (radius_squared R1 x y) as Hq2. cbv zeta in Hq2. fold q in Hq2.
  rewrite Hin, Hout, Hlin. clear Hin Hout Hlin.
  assert (Hnorm : forall u v w : R,
             u * u + v * v + w * w = R1 * R1 -> 0 < R1 -> norm3 (V3 u v w) = R1).
  { intros u v w E HR. unfold norm3. cbn [v0 v1 v2]. rewrite E.
    apply sqrt_square. lra. }
  assert (Hcenter : forall P : vec3, cube_domain P ->
             p8est_geometry_sphere_X SC_1000_EPS debug (new_sphere_payload R2 R1 R0) 12 P
             = Some (V3 (v0 P * L) (v1 P * L) (v2 P * L))).
  { intros P ((? & ?) & (? & ?) & (? & ?)). apply sphere_X_center.
    intros _. unfold cube_asserted. repeat split; lra. }
  destruct (inner_tree_cases t Ht) as [-> | [-> | [-> | [-> | [-> | ->]]]]].
  - change (Z.rem 6 6) with 0%Z. unfold sphere_X_switch. cbn [Z.eqb Pos.eqb]. split.
    + exists (V3 (q * x) (- q) (q * y)). split; [reflexivity|]. split; [reflexivity|].
      split; [left; split; reflexivity|].
      assert (E : q * x * (q * x) + - q * - q + q * y * (q * y) = R1 * R1)
        by (rewrite <- Hq2; ring).
      cbn [v0 v1 v2]. split; [exact E | apply Hnorm; exact E].
    + exists (V3 (L * a) (- L) (L * b)), (V3 a (-1) b).
      split; [reflexivity|]. split; [left; split; reflexivity|].
      cbn [v0 v1 v2]. split; [f_equal; ring|].
      assert (Hc : cube_domain (V3 a (-1) b)) by (unfold cube_domain; cbn [v0 v1 v2]; lra).
      split; [exact Hc|].
      split; [unfold on_cube_face; cbn [v0 v1 v2]; right; right; right; left; reflexivity|].
      rewrite (Hcenter _ Hc). cbn [v0 v1 v2]. f_equal. f_equal; ring.
  - change (Z.rem 7 6) with 1%Z. unfold sphere_X_switch. cbn [Z.eqb Pos.eqb]. split.
    + exists (V3 (q * x) (q * y) q). split; [reflexivity|]. split; [reflexivity|].
      split; [right; left; split; reflexivity|].
      assert (E : q * x * (q * x) + q * y * (q * y) + q * q = R1 * R1)
        by (rewrite <- Hq2; ring).
      cbn [v0 v1 v2]. split; [exact E | apply Hnorm; exact E].
    + exists (V3 (L * a) (L * b) L), (V3 a b 1).
      split; [reflexivity|]. split; [right; left; split; reflexivity|].
      cbn [v0 v1 v2]. split; [f_equal; ring|].
      assert (Hc : cube_domain (V3 a b 1)) by (unfold cube_domain; cbn [v0 v1 v2]; lra).
      split; [exact Hc|].
      split; [unfold on_cube_face; cbn [v0 v1 v2];
              right; right; right; right; left; reflexivity|].
      rewrite (Hcenter _ Hc). cbn [v0 v1 v2]. f_equal. f_equal; ring.
  - change (Z.rem 8 6) with 2%Z. unfold sphere_X_switch. cbn [Z.eqb Pos.eqb]. split.
    + exists (V3 (q * x) q (- q * y)). split; [reflexivity|]. split; [reflexivity|].
      split; [right; right; left; split; [reflexivity | f_equal; ring]|].
      assert (E : q * x * (q * x) + q * q + - q * y * (- q * y) = R1 * R1)
        by (rewrite <- Hq2; ring).
      cbn [v0 v1 v2]. split; [exact E | apply Hnorm; exact E].
    + exists (V3 (L * a) L (- L * b)), (V3 a 1 (- b)).
      split; [reflexivity|]. split; [right; right; left; split; reflexivity|].
      cbn [v0 v1 v2]. split; [f_equal; ring|].
      assert (Hc : cube_domain (V3 a 1 (- b))) by (unfold cube_domain; cbn [v0 v1 v2]; lra).
      split; [exact Hc|].
      split; [unfold on_cube_face; cbn [v0 v1 v2]; right; right; left; reflexivity|].
      rewrite (Hcenter _ Hc). cbn [v0 v1 v2]. f_equal. f_equal; ring.
  - change (Z.rem 9 6) with 3%Z. unfold sphere_X_switch. cbn [Z.eqb Pos.eqb]. split.
    + exists (V3 q (- q * x) (- q * y)). split; [reflexivity|]. split; [reflexivity|].
      split; [right; right; right; left; split; [reflexivity | f_equal; ring]|].
      assert (E : q * q + - q * x * (- q * x) + - q * y * (- q * y) = R1 * R1)
        by (rewrite <- Hq2; ring).
      cbn [v0 v1 v2]. split; [exact E | apply Hnorm; exact E].
    + exists (V3 L (- L * a) (- L * b)), (V3 1 (- a) (- b)).
      split; [reflexivity|]. split; [right; right; right; left; split; reflexivity|].
      cbn [v0 v1 v2]. split; [f_equal; ring|].
      assert (Hc : cube_domain (V3 1 (- a) (- b)))
        by (unfold cube_domain; cbn [v0 v1 v2]; lra).
      split; [exact Hc|].
      split; [unfold on_cube_face; cbn [v0 v1 v2]; left; reflexivity|].
      rewrite (Hcenter _ Hc). cbn [v0 v1 v2]. f_equal. f_equal; ring.
  - change (Z.rem 10 6) with 4%Z. unfold sphere_X_switch. cbn [Z.eqb Pos.eqb]. split.
    + exists (V3 (- q * y) (- q * x) (- q)). split; [reflexivity|]. split; [reflexivity|].
      split; [right; right; right; right; left; split; [reflexivity | f_equal; ring]|].
      assert (E : - q * y * (- q * y) + - q * x * (- q * x) + - q * - q = R1 * R1)
        by (rewrite <- Hq2; ring).
      cbn [v0 v1 v2]. split; [exact E | apply Hnorm; exact E].
    + exists (V3 (- L * b) (- L * a) (- L)), (V3 (- b) (- a) (-1)).
      split; [reflexivity|]. split; [right; right; right; right; left; split; reflexivity|].
      cbn [v0 v1 v2]. split; [f_equal; ring|].
      assert (Hc : cube_domain (V3 (- b) (- a) (-1)))
        by (unfold cube_domain; cbn [v0 v1 v2]; lra).
      split; [exact Hc|].
      split; [unfold on_cube_face; cbn [v0 v1 v2];
              right; right; right; right; right; reflexivity|].
      rewrite (Hcenter _ Hc). cbn [v0 v1 v2]. f_equal. f_equal; ring.
  - change (Z.rem 11 6) with 5%Z. unfold sphere_X_switch. cbn [Z.eqb Pos.eqb]. split.
    + exists (V3 (- q) (- q * x) (q * y)). split; [reflexivity|]. split; [reflexivity|].
      split; [right; right; right; right; right; split; [reflexivity | f_equal; ring]|].
      assert (E : - q * - q + - q * x * (- q * x) + q * y * (q * y) = R1 * R1)
        by (rewrite <- Hq2; ring).
      cbn [v0 v1 v2]. split; [exact E | apply Hnorm; exact E].
    + exists (V3 (- L) (- L * a) (L * b)), (V3 (-1) (- a) b).
      split; [reflexivity|]. split; [right; right; right; right; right; split; reflexivity|].
      cbn [v0 v1 v2]. split; [f_equal; ring|].
      assert (Hc : cube_domain (V3 (-1) (- a) b))
        by (unfold cube_domain; cbn [v0 v1 v2]; lra).
      split; [exact Hc|].
      split; [unfold on_cube_face; cbn [v0 v1 v2]; right; left; reflexivity|].
      rewrite (Hcenter _ Hc). cbn [v0 v1 v2]. f_equal. f_equal; ring.
Qed.

(** ** Instances at concrete inputs *)

Ltac in_domain := unfold shell_domain, cube_domain, cube_asserted; cbn [v0 v1 v2]; lra.

Lemma shell_detJ_positive_witness :
  let g := p8est_geometry_new_shell (1 / 1000) true mat_identity 2 1 in
  let abc := V3 (1 / 2) (-1) 2 in
  (0 < 1 / 1000 /\ 0 < 1 /\ 1 < 2 /\ (0 <= 5 < 24)%Z /\ shell_domain abc) /\
  exists (Jm : mat3) (d : R),
    D g 5 abc = Some d /\
    J g 5 abc mat_identity = Some (Jm, d) /\
    d = det3 Jm /\
    0 < d.
Proof.
  intros g abc.
  assert (H0 : 0 < 1 / 1000) by lra.
  assert (H1 : 0 < 1) by lra.
  assert (H2 : 1 < 2) by lra.
  assert (H3 : (0 <= 5 < 24)%Z) by lia.
  assert (H4 : shell_domain abc) by (unfold abc; in_domain).
  split; [exact (conj H0 (conj H1 (conj H2 (conj H3 H4))))|].
  destruct (shell_detJ_positive (1 / 1000) true mat_identity 2 1 5 abc mat_identity
              H0 H1 H2 H3 H4) as (Jm & d & HD & HJ & Hdet & _ & Hpos).
  exists Jm, d. exact (conj HD (conj HJ (conj Hdet Hpos))).
Defined.

Lemma D_equals_det_of_J_witness :
  (0 <= 3 < 24)%Z /\ (0 <= 3 < 13)%Z /\
  (exists Jm d,
     J (p8est_geometry_new_shell (1 / 1000) false mat_identity 2 1) 3 (V3 0 0 1) mat_identity
       = Some (Jm, d) /\
     D (p8est_geometry_new_shell (1 / 1000) false mat_identity 2 1) 3 (V3 0 0 1) = Some d /\
     d = det3 Jm) /\
  (exists Jm d,
     J (p8est_geometry_new_sphere (1 / 1000) false mat_identity 2 1 (1 / 2)) 3 (V3 0 0 1)
       mat_identity = Some (Jm, d) /\
     D (p8est_geometry_new_sphere (1 / 1000) false mat_identity 2 1 (1 / 2)) 3 (V3 0 0 1)
       = Some d /\
     d = det3 Jm).
Proof.
  assert (H24 : (0 <= 3 < 24)%Z) by lia.
  assert (H13 : (0 <= 3 < 13)%Z) by lia.
  destruct (D_equals_det_of_J (1 / 1000) false mat_identity 3 (V3 0 0 1) mat_identity)
    as (_ & Hshell & Hsphere).
  split; [exact H24 | split; [exact H13 | split]].
  - destruct (Hshell 2 1 H24) as (_ & Hdet & Hret).
    destruct (Hret eq_refl) as (Jm & d & HJ).
    exists Jm, d. split; [exact HJ | exact (Hdet Jm d HJ)].
  - destruct (Hsphere 2 1 (1 / 2) H13) as (_ & Hdet & Hret).
    destruct (Hret eq_refl) as (Jm & d & HJ).
    exists Jm, d. split; [exact HJ | exact (Hdet Jm d HJ)].
Defined.

Lemma Jit_is_inverse_transpose_witness :
  let Jm := mat_of 2 0 0 0 1 0 0 0 1 in
  let geom_J := fun (_ : Z) (_ : vec3) (_ : mat3) => Some (Jm, 2) in
  (geom_J 0%Z (V3 0 0 0) mat_identity = Some (Jm, 2) /\ 2 = det3 Jm /\ 2 <> 0) /\
  exists Jit_out : mat3,
    p8est_geometry_Jit mat_identity geom_J 0 (V3 0 0 0) mat_identity = Some (Jit_out, 2) /\
    (forall i j : Z, (0 <= i < 3)%Z -> (0 <= j < 3)%Z ->
        mat_get Jit_out i j = cofactor Jm i j / 2) /\
    mat_mul (mat_transpose Jit_out) Jm = mat_identity /\
    mat_mul Jm (mat_transpose Jit_out) = mat_identity.
Proof.
  intros Jm geom_J.
  assert (H0 : geom_J 0%Z (V3 0 0 0) mat_identity = Some (Jm, 2)) by reflexivity.
  assert (H1 : 2 = det3 Jm) by (unfold det3, Jm; mat_simpl; ring).
  assert (H2 : 2 <> 0) by lra.
  split; [exact (conj H0 (conj H1 H2))|].
  exact (Jit_is_inverse_transpose mat_identity geom_J 0 (V3 0 0 0) mat_identity Jm 2
           H0 H1 H2).
Defined.

Lemma shell_X_on_axis_witness :
  (0 < 1 / 1000 /\ (0 <= 0 < 24)%Z /\ 1 <= 1.5 <= 2) /\
  X (p8est_geometry_new_shell (1 / 1000) true mat_identity 2 1) 0 (V3 0 0 1.5)
  = Some (V3 (0.5 * Rpower 2 1.5) 0 0).
Proof.
  assert (H0 : 0 < 1 / 1000) by lra.
  assert (H1 : (0 <= 0 < 24)%Z) by lia.
  assert (H2 : 1 <= 1.5 <= 2) by lra.
  split; [exact (conj H0 (conj H1 H2))|].
  exact (proj1 (proj2 (proj2
           (shell_X_on_axis (1 / 1000) true mat_identity 2 1 0 1.5 H0 H1 H2)))).
Defined.

Lemma sphere_X_radial_interfaces_witness :
  let g := p8est_geometry_new_sphere (1 / 1000) true mat_identity 2 1 (1 / 2) in
  (0 < 1 / 1000 /\ 1 / 2 <> 0 /\ 1 <> 0 /\ 2 <> 0 /\ (6 <= 9 < 12)%Z /\
   -1 <= 1 / 2 <= 1 /\ -1 <= -1 <= 1) /\
  (exists xyz : vec3,
     X g 9 (V3 (1 / 2) (-1) 2) = Some xyz /\
     X g (9 - 6) (V3 (1 / 2) (-1) 1) = Some xyz /\
     norm3 xyz = 1) /\
  (exists xyz : vec3,
     X g 9 (V3 (1 / 2) (-1) 1) = Some xyz /\
     xyz = V3 (1 / 2 / sqrt 3 * 1) (1 / 2 / sqrt 3 * - (1 / 2)) (1 / 2 / sqrt 3 * - -1) /\
     X g 12 (V3 1 (- (1 / 2)) (- -1)) = Some xyz).
Proof.
  intros g.
  assert (H0 : 0 < 1 / 1000) by lra.
  assert (HR0 : 1 / 2 <> 0) by lra.
  assert (HR1 : 1 <> 0) by lra.
  assert (HR2 : 2 <> 0) by lra.
  assert (Ht : (6 <= 9 < 12)%Z) by lia.
  assert (Ha : -1 <= 1 / 2 <= 1) by lra.
  assert (Hb : -1 <= -1 <= 1) by lra.
  split; [exact (conj H0 (conj HR0 (conj HR1 (conj HR2 (conj Ht (conj Ha Hb))))))|].
  destruct (sphere_X_radial_interfaces (1 / 1000) true mat_identity 2 1 (1 / 2) 9
              (1 / 2) (-1) H0 HR0 HR1 HR2 Ht Ha Hb)
    as ((xyz & Hin & Hout & _ & _ & Hnorm)
        & (xyz' & P & Hlin & Htab & Hxyz & _ & _ & Hcenter)).
  split.
  - exists xyz. split; [exact Hin | split; [exact Hout | apply Hnorm; lra]].
  - assert (HP : P = V3 1 (- (1 / 2)) (- -1)).
    { destruct Htab as [(E & _) | [(E & _) | [(E & _) | [(_ & E) | [(E & _) | (E & _)]]]]];
        try discriminate E. exact E. }
    subst P. cbn [v0 v1 v2] in Hxyz.
    exists xyz'. split; [exact Hlin | split; [exact Hxyz | exact Hcenter]].
Defined.

Lemma sphere_center_cube_witness :
  let g := p8est_geometry_new_sphere (1 / 1000) true mat_identity 2 1 0.5 in
  0 < 1 / 1000 /\
  X g 12 (V3 1 1 1) = Some (V3 (0.5 / sqrt 3) (0.5 / sqrt 3) (0.5 / sqrt 3)) /\
  D g 12 (V3 1 1 1) = Some ((0.5 / sqrt 3) ^ 3).
Proof.
  intros g.
  assert (H0 : 0 < 1 / 1000) by lra.
  split; [exact H0|].
  exact (proj2 (proj2 (proj2
           (sphere_center_cube (1 / 1000) mat_identity 2 1 0.5 (V3 1 1 1) mat_identity)))
           H0).
Defined.

Lemma shell_X_norm_witness :
  (0 < 1 / 1000 /\ 0 < 1 /\ 0 < 2 /\ (0 <= 7 < 24)%Z /\ shell_domain (V3 (1 / 2) (-1) 1)) /\
  exists xyz : vec3,
    X (p8est_geometry_new_shell (1 / 1000) true mat_identity 2 1) 7 (V3 (1 / 2) (-1) 1)
      = Some xyz /\
    norm3 xyz = 1.
Proof.
  assert (H0 : 0 < 1 / 1000) by lra.
  assert (H1 : 0 < 1) by lra.
  assert (H2 : 0 < 2) by lra.
  assert (H3 : (0 <= 7 < 24)%Z) by lia.
  assert (H4 : shell_domain (V3 (1 / 2) (-1) 1)) by in_domain.
  split; [exact (conj H0 (conj H1 (conj H2 (conj H3 H4))))|].
  destruct (shell_X_norm (1 / 1000) true mat_identity 2 1 7 (V3 (1 / 2) (-1) 1)
              H0 H1 H2 H3 H4) as (xyz & HX & _ & Hinner & _).
  exists xyz. split; [exact HX | exact (Hinner eq_refl)].
Defined.

Lemma shell_tree_only_through_patch_witness :
  let g := p8est_geometry_new_shell (1 / 1000) false mat_identity 2 1 in
  let abc := V3 (1 / 2) (-1) 2 in
  ((0 <= 4 < 24)%Z /\ (0 <= 7 < 24)%Z /\ Z.quot 4 4 = Z.quot 7 4) /\
  X g 4 abc = X g 7 abc /\
  J g 4 abc mat_identity = J g 7 abc mat_identity /\
  D g 4 abc = D g 7 abc /\
  (exists xyz, X g 4 abc = Some xyz).
Proof.
  intros g abc.
  assert (H0 : (0 <= 4 < 24)%Z) by lia.
  assert (H1 : (0 <= 7 < 24)%Z) by lia.
  assert (H2 : Z.quot 4 4 = Z.quot 7 4) by reflexivity.
  split; [exact (conj H0 (conj H1 H2))|].
  destruct (shell_tree_only_through_patch (1 / 1000) false mat_identity 2 1 4 7 abc
              mat_identity H0 H1) as (Hsame & _ & Hret).
  destruct (Hsame H2) as (HX & HJ & HD).
  destruct (Hret eq_refl) as (HXr & _ & _).
  split; [exact HX | split; [exact HJ | split; [exact HD | exact HXr]]].
Defined.

(** ** Guards of the shell functions *)

Lemma Rltb_true_iff (a b : R) : Rltb a b = true <-> a < b.
Proof.
  unfold Rltb. destruct (Rlt_dec a b); split; intros H;
    try assumption; try reflexivity; try discriminate; contradiction.
Qed.

Lemma assert_angular_debug (eps a : R) :
  assert_angular eps true a = Some tt <-> -1 - eps < a < 1 + eps.
Proof.
  unfold assert_angular, P4EST_ASSERT. split.
  - destruct (Rltb a (1 + eps)) eqn:E1; destruct (Rltb (-1 - eps) a) eqn:E2;
      cbn [andb]; intros H; try discriminate H.
    apply Rltb_true_iff in E1. apply Rltb_true_iff in E2. split; assumption.
  - intros [Hl Hu]. rewrite !Rltb_true by assumption. reflexivity.
Qed.

Lemma assert_radial_debug (eps c : R) :
  assert_radial eps true c = Some tt <-> 1 - eps < c < 2 + eps.
Proof.
  unfold assert_radial, P4EST_ASSERT. split.
  - destruct (Rltb c (2 + eps)) eqn:E1; destruct (Rltb (1 - eps) c) eqn:E2;
      cbn [andb]; intros H; try discriminate H.
    apply Rltb_true_iff in E1. apply Rltb_true_iff in E2. split; assumption.
  - intros [Hl Hu]. rewrite !Rltb_true by assumption. reflexivity.
Qed.

Lemma assert_tree_range_debug (which_tree n : Z) :
  assert_tree_range true which_tree n = Some tt <-> (0 <= which_tree < n)%Z.
Proof.
  unfold assert_tree_range, P4EST_ASSERT. split.
  - destruct (0 <=? which_tree)%Z eqn:E1; destruct (which_tree <? n)%Z eqn:E2;
      cbn [andb]; intros H; try discriminate H.
    apply Z.leb_le in E1. apply Z.ltb_lt in E2. lia.
  - intros [Hl Hu]. apply Z.leb_le in Hl. apply Z.ltb_lt in Hu.
    rewrite Hl, Hu. reflexivity.
Qed.

Lemma some_tt_or_none (o : option unit) : o = Some tt \/ o = None.
Proof. destruct o as [[]|]; auto. Qed.

Lemma shell_X_switch_returns (patch : Z) (q x y : R) :
  (exists xyz, shell_X_switch patch q x y = Some xyz) <-> (0 <= patch < 6)%Z.
Proof.
  split.
  - intros [xyz H]. unfold shell_X_switch in H.
    destruct (patch =? 3)%Z eqn:E3; [apply Z.eqb_eq in E3; lia|].
    destruct (patch =? 2)%Z eqn:E2; [apply Z.eqb_eq in E2; lia|].
    destruct (patch =? 1)%Z eqn:E1; [apply Z.eqb_eq in E1; lia|].
    destruct (patch =? 0)%Z eqn:E0; [apply Z.eqb_eq in E0; lia|].
    destruct (patch =? 4)%Z eqn:E4; [apply Z.eqb_eq in E4; lia|].
    destruct (patch =? 5)%Z eqn:E5; [apply Z.eqb_eq in E5; lia|].
    discriminate H.
  - intros H.
    assert (E : patch = 0%Z \/ patch = 1%Z \/ patch = 2%Z \/ patch = 3%Z \/
                patch = 4%Z \/ patch = 5%Z) by lia.
    destruct E as [-> | [-> | [-> | [-> | [-> | ->]]]]]; eexists; reflexivity.
Qed.

Lemma quot4_patch_range (t : Z) : (0 <= Z.quot t 4 < 6)%Z <-> (-4 < t < 24)%Z.
Proof.
  pose proof (Z.quot_rem' t 4) as Hqr.
  split; intros H.
  - destruct (Z_le_gt_dec 0 t) as [Hpos | Hneg].
    + pose proof (Z.rem_bound_pos t 4 Hpos ltac:(lia)). lia.
    + pose proof (Z.rem_bound_pos_neg t 4 ltac:(lia) ltac:(lia)). lia.
  - destruct (Z_le_gt_dec 0 t) as [Hpos | Hneg].
    + pose proof (Z.rem_bound_pos t 4 Hpos ltac:(lia)). lia.
    + pose proof (Z.rem_bound_pos_neg t 4 ltac:(lia) ltac:(lia)). lia.
Qed.

(** The forward map of the shell returns a point exactly on the inputs its
    guards let through.  In a debug build these are the trees of [0, 24)
    and the points within SC_1000_EPS of the reference domain.  In a build
    without assertions only the patch switch is left, and since the C
    division truncates towards zero it lets the trees -3, -2 and -1 through
    as patch 0: X returns exactly for -4 < which_tree < 24, at every abc. *)
Theorem shell_X_returns_iff
    (SC_1000_EPS : R) (J_local : mat3) (R2 R1 : R) (which_tree : Z) (abc : vec3) :
  ((exists xyz, X (p8est_geometry_new_shell SC_1000_EPS true J_local R2 R1)
                  which_tree abc = Some xyz)
   <-> (0 <= which_tree < 24)%Z /\ shell_asserted SC_1000_EPS abc) /\
  ((exists xyz, X (p8est_geometry_new_shell SC_1000_EPS false J_local R2 R1)
                  which_tree abc = Some xyz)
   <-> (-4 < which_tree < 24)%Z).
Proof.
  split.
  - shell_unfold. rewrite builtin_type_eqb_refl. cbn [P4EST_ASSERT].
    pose proof (assert_tree_range_debug which_tree 24) as Ht.
    pose proof (assert_angular_debug SC_1000_EPS (v0 abc)) as Ha.
    pose proof (assert_angular_debug SC_1000_EPS (v1 abc)) as Hb.
    pose proof (assert_radial_debug SC_1000_EPS (v2 abc)) as Hc.
    unfold shell_asserted.
    destruct (some_tt_or_none (assert_tree_range true which_tree 24)) as [Et | Et];
      rewrite Et in *.
    2:{ split; [intros [? H]; discriminate H|].
        intros (H & _). apply Ht in H. discriminate H. }
    destruct (some_tt_or_none (assert_angular SC_1000_EPS true (v0 abc))) as [Ea | Ea];
      rewrite Ea in *.
    2:{ split; [intros [? H]; discriminate H|].
        intros (_ & H & _). apply Ha in H. discriminate H. }
    destruct (some_tt_or_none (assert_angular SC_1000_EPS true (v1 abc))) as [Eb | Eb];
      rewrite Eb in *.
    2:{ split; [intros [? H]; discriminate H|].
        intros (_ & _ & H & _). apply Hb in H. discriminate H. }
    destruct (some_tt_or_none (assert_radial SC_1000_EPS true (v2 abc))) as [Ec | Ec];
      rewrite Ec in *.
    2:{ split; [intros [? H]; discriminate H|].
        intros (_ & _ & _ & H). apply Hc in H. discriminate H. }
    rewrite shell_X_switch_returns.
    assert (Htr : (0 <= which_tree < 24)%Z) by (apply Ht; reflexivity).
    split.
    + intros _. split; [exact Htr|].
      split; [apply Ha; reflexivity | split; [apply Hb; reflexivity | apply Hc; reflexivity]].
    + intros _. apply quot4_patch_range. lia.
  - shell_unfold. unfold assert_tree_range, assert_angular, assert_radial.
    rewrite !P4EST_ASSERT_release.
    rewrite shell_X_switch_returns. apply quot4_patch_range.
Qed.

(** In a build without assertions the determinant-only path of the shell
    has no guard left: D returns at every tree and every abc, while J, like
    X, returns exactly for -4 < which_tree < 24.  Outside that range the
    two operations no longer agree. *)
Theorem shell_release_guards
    (SC_1000_EPS : R) (J_local : mat3) (R2 R1 : R) (which_tree : Z)
    (abc : vec3) (J_in : mat3) :
  let g := p8est_geometry_new_shell SC_1000_EPS false J_local R2 R1 in
  (exists d, D g which_tree abc = Some d) /\
  ((exists Jm d, J g which_tree abc J_in = Some (Jm, d)) <-> (-4 < which_tree < 24)%Z).
Proof.
  intros g. subst g. shell_unfold.
  unfold assert_tree_range, assert_angular, assert_radial.
  rewrite !P4EST_ASSERT_release. split; [eexists; reflexivity|].
  rewrite <- quot4_patch_range.
  set (patch := Z.quot which_tree 4).
  split.
  - intros (Jm & d & H). unfold shell_J_switch in H.
    destruct (patch =? 3)%Z eqn:E3; [apply Z.eqb_eq in E3; lia|].
    destruct (patch =? 2)%Z eqn:E2; [apply Z.eqb_eq in E2; lia|].
    destruct (patch =? 1)%Z eqn:E1; [apply Z.eqb_eq in E1; lia|].
    destruct (patch =? 0)%Z eqn:E0; [apply Z.eqb_eq in E0; lia|].
    destruct (patch =? 4)%Z eqn:E4; [apply Z.eqb_eq in E4; lia|].
    destruct (patch =? 5)%Z eqn:E5; [apply Z.eqb_eq in E5; lia|].
    discriminate H.
  - intros H.
    match goal with
    | |- context [shell_J_switch ?p ?q ?x ?y ?t ?dx ?dy ?l] =>
        destruct (shell_J_switch_det p q x y t dx dy l H) as (Jm & HJm & _)
    end.
    rewrite HJm, P4EST_ASSERT_release. eexists; eexists; reflexivity.
Qed.

(** ** The Jacobian array of the sphere is written entirely *)

Lemma sphere_J_input_irrelevant
    (SC_1000_EPS : R) (debug : bool) (R2 R1 R0 : R) (which_tree : Z)
    (abc : vec3) (J_in J_in' : mat3) :
  (0 <= which_tree < 13)%Z ->
  p8est_geometry_sphere_J SC_1000_EPS debug (new_sphere_payload R2 R1 R0)
    which_tree abc J_in
  = p8est_geometry_sphere_J SC_1000_EPS debug (new_sphere_payload R2 R1 R0)
      which_tree abc J_in'.
Proof.
  intros Htree. sphere_unfold.
  each_sphere_tree Htree;
    cbn [Z.ltb Z.compare Pos.compare Pos.compare_cont Z.sub Z.add Z.opp Z.pos_sub
         Pos.pred_double];
    mat_simpl; reflexivity.
Qed.

(** The sphere code writes J through the row indices of [mapJ]; each row of
    that table is a permutation of 0, 1, 2, so for every tree of [0, 13)
    all nine entries are assigned and the result of J does not depend on
    what the array held before the call. *)
Theorem sphere_J_overwrites
    (SC_1000_EPS : R) (debug : bool) (J_local : mat3) (R2 R1 R0 : R)
    (which_tree : Z) (abc : vec3) (J_in J_in' : mat3)
    (Htree : (0 <= which_tree < 13)%Z) :
  let g := p8est_geometry_new_sphere SC_1000_EPS debug J_local R2 R1 R0 in
  J g which_tree abc J_in = J g which_tree abc J_in'.
Proof.
  intros g. subst g. cbn [J p8est_geometry_new_sphere].
  apply sphere_J_input_irrelevant. exact Htree.
Qed.

(** ** The inverse transpose, in closed form *)

Lemma Jit_value
    (J_local : mat3) (geom_J : Z -> vec3 -> mat3 -> option (mat3 * R))
    (which_tree : Z) (abc : vec3) (Jit_in Jm : mat3) (d : R) :
  geom_J which_tree abc J_local = Some (Jm, d) ->
  p8est_geometry_Jit J_local geom_J which_tree abc Jit_in
  = Some (inverse_transpose Jm d, d).
Proof.
  intros HJ. unfold p8est_geometry_Jit. rewrite HJ. cbn [fst snd].
  destruct Jm as [[a b c] [e f g] [h i j]].
  unfold inverse_transpose, cofactor. mat_simpl.
  f_equal. f_equal. f_equal; f_equal; unfold Rdiv; ring.
Qed.

Lemma inverse_transpose_left (m : mat3) (d : R) :
  d = det3 m -> d <> 0 ->
  mat_mul (mat_transpose (inverse_transpose m d)) m = mat_identity.
Proof.
  intros Hd Hnz. destruct m as [[a b c] [e f g] [h i j]].
  unfold det3 in Hd. unfold inverse_transpose, cofactor. mat_simpl.
  subst d. f_equal; f_equal; field; exact Hnz.
Qed.

Lemma inverse_transpose_det (m : mat3) (d : R) :
  d = det3 m -> d <> 0 -> det3 (inverse_transpose m d) = / d.
Proof.
  intros Hd Hnz. destruct m as [[a b c] [e f g] [h i j]].
  unfold det3 in *. unfold inverse_transpose, cofactor. mat_simpl.
  subst d. field. exact Hnz.
Qed.

(** The determinant of the matrix that the default Jit fills is the
    reciprocal of the determinant that J returned (when J returned the
    determinant of its matrix, and it is not zero). *)
Theorem Jit_determinant
    (J_local : mat3) (geom_J : Z -> vec3 -> mat3 -> option (mat3 * R))
    (which_tree : Z) (abc : vec3) (Jit_in Jm : mat3) (detJ : R)
    (HJ : geom_J which_tree abc J_local = Some (Jm, detJ))
    (Hdet : detJ = det3 Jm)
    (Hnz : detJ <> 0) :
  exists Jit_out : mat3,
    p8est_geometry_Jit J_local geom_J which_tree abc Jit_in = Some (Jit_out, detJ) /\
    det3 Jit_out = / detJ /\
    det3 Jit_out * detJ = 1.
Proof.
  exists (inverse_transpose Jm detJ).
  split; [apply Jit_value; exact HJ|].
  rewrite (inverse_transpose_det Jm detJ Hdet Hnz).
  split; [reflexivity | field; exact Hnz].
Qed.

(** ** Positive determinant on the whole sphere *)

Lemma tan_quarter_bound (a : R) : -1 <= a <= 1 -> -1 <= tan (a * Cmath.M_PI_4) <= 1.
Proof.
  intros [Hl Hu]. unfold Cmath.M_PI_4. pose proof PI_RGT_0 as HPI.
  assert (Hup : forall z, -1 <= z <= 1 -> tan (z * (PI / 4)) <= 1).
  { intros z [Hzl Hzu]. destruct (Rle_lt_or_eq_dec z 1 Hzu) as [Hlt | ->].
    - apply Rlt_le. rewrite <- tan_PI4. apply tan_increasing; nra.
    - rewrite Rmult_1_l, tan_PI4. lra. }
  split.
  - replace (a * (PI / 4)) with (- (- a * (PI / 4))) by ring.
    rewrite tan_neg. specialize (Hup (- a)). lra.
  - apply Hup. lra.
Qed.

Lemma blend_pos (p d : R) : 0 <= p <= 1 -> 0 < d -> 0 < p + (1 - p) * d.
Proof.
  intros [Hl Hu] Hd. destruct (Rle_lt_dec p (1 / 2)) as [H | H]; nra.
Qed.

Lemma cross_term_bound (a u : R) : -1 <= a <= 1 -> 0 <= 1 + u * u - 2 * a * u.
Proof.
  intros [Hl Hu].
  assert (H1 : 0 <= (1 + a) * ((1 - u) * (1 - u))).
  { apply Rmult_le_pos; [lra | apply Rle_0_sqr]. }
  assert (H2 : 0 <= (1 - a) * ((1 + u) * (1 + u))).
  { apply Rmult_le_pos; [lra | apply Rle_0_sqr]. }
  lra.
Qed.

(** The determinant of the matrix of the inner-shell path, bounded below
    by its leading term. *)
Lemma inner_matrix_det_pos (p a b u v x y dx dy L0 t : R) :
  0 <= p -> 0 <= dx -> 0 <= dy -> 0 < p + dx -> 0 < p + dy ->
  -1 <= a <= 1 -> -1 <= b <= 1 -> -1 <= u <= 1 -> -1 <= v <= 1 ->
  0 < L0 -> 0 <= t ->
  let Rlog := L0 + t * (1 - 5 / 10 * (u * u + v * v)) in
  0 < det3 (mat_of (p + (1 - x * u * t) * dx) (- x * v * t * dy) (x * Rlog - a + u)
                   (- y * u * t * dx) (p + (1 - y * v * t) * dy) (y * Rlog - b + v)
                   (- u * t * dx) (- v * t * dy) Rlog).
Proof.
  intros Hp Hdx Hdy HA HB Ha Hb Hu Hv HL Ht Rlog.
  set (A := p + dx) in *. set (B := p + dy) in *.
  set (E1 := A * (1 - u * u) / 2 + dx * (u * u - a * u)).
  set (E2 := B * (1 - v * v) / 2 + dy * (v * v - b * v)).
  assert (HE1 : 0 <= E1).
  { unfold E1, A.
    assert (H1 : 0 <= 1 - u * u) by nra.
    assert (H2 : 0 <= 1 + u * u - 2 * a * u) by (apply cross_term_bound; assumption).
    assert (H3 : 0 <= p * (1 - u * u)) by (apply Rmult_le_pos; assumption).
    assert (H4 : 0 <= dx * (1 + u * u - 2 * a * u)) by (apply Rmult_le_pos; assumption).
    lra. }
  assert (HE2 : 0 <= E2).
  { unfold E2, B.
    assert (H1 : 0 <= 1 - v * v) by nra.
    assert (H2 : 0 <= 1 + v * v - 2 * b * v) by (apply cross_term_bound; assumption).
    assert (H3 : 0 <= p * (1 - v * v)) by (apply Rmult_le_pos; assumption).
    assert (H4 : 0 <= dy * (1 + v * v - 2 * b * v)) by (apply Rmult_le_pos; assumption).
    lra. }
  replace (det3 _) with (A * B * L0 + t * (B * E1 + A * E2)).
  2:{ unfold det3, E1, E2, A, B, Rlog. mat_simpl. field. }
  assert (H5 : 0 < A * B * L0).
  { apply Rmult_lt_0_compat; [apply Rmult_lt_0_compat|]; assumption. }
  assert (H6 : 0 <= B * E1) by (apply Rmult_le_pos; [apply Rlt_le|]; assumption).
  assert (H7 : 0 <= A * E2) by (apply Rmult_le_pos; [apply Rlt_le|]; assumption).
  assert (H8 : 0 <= t * (B * E1 + A * E2)) by (apply Rmult_le_pos; lra).
  lra.
Qed.

Lemma sphere_D_outer_pos
    (SC_1000_EPS : R) (debug : bool) (R2 R1 R0 : R) (which_tree : Z) (abc : vec3) :
  0 < SC_1000_EPS -> 0 < R1 -> R1 < R2 ->
  (0 <= which_tree < 6)%Z -> shell_domain abc ->
  exists d : R,
    p8est_geometry_sphere_D SC_1000_EPS debug (new_sphere_payload R2 R1 R0)
      which_tree abc = Some d /\ 0 < d.
Proof.
  intros eps_pos HR1 HR12 Htree Hdom. sphere_unfold.
  assert (Ht13 : (0 <= which_tree < 13)%Z) by lia.
  unfold assert_sphere_radial.
  replace (which_tree <? 12)%Z with true by (symmetry; apply Z.ltb_lt; lia).
  replace (which_tree <? 6)%Z with true by (symmetry; apply Z.ltb_lt; lia).
  pass_asserts eps_pos Ht13 Hdom.
  fold (normalized_J (tan (v0 abc * Cmath.M_PI_4)) (tan (v1 abc * Cmath.M_PI_4))
          (1 / (tan (v0 abc * Cmath.M_PI_4) * tan (v0 abc * Cmath.M_PI_4)
                + tan (v1 abc * Cmath.M_PI_4) * tan (v1 abc * Cmath.M_PI_4) + 1))).
  rewrite normalized_J_det.
  pose proof (shell_factor_pos R2 R1 abc HR1 HR12 Hdom) as Hpos. cbv zeta in Hpos.
  match goal with
  | |- context [Rltb 0 ?e] =>
      assert (He : 0 < e) by (eapply Rlt_le_trans; [exact Hpos | right; ring])
  end.
  rewrite Rltb_true by exact He. rewrite P4EST_ASSERT_true.
  eexists; split; [reflexivity | exact He].
Qed.

Lemma sphere_D_inner_pos
    (SC_1000_EPS : R) (debug : bool) (R2 R1 R0 : R) (which_tree : Z) (abc : vec3) :
  0 < SC_1000_EPS -> 0 < R0 -> R0 < R1 ->
  (6 <= which_tree < 12)%Z -> shell_domain abc ->
  exists d : R,
    p8est_geometry_sphere_D SC_1000_EPS debug (new_sphere_payload R2 R1 R0)
      which_tree abc = Some d /\ 0 < d.
Proof.
  intros eps_pos HR0 HR01 Htree Hdom. sphere_unfold.
  assert (Ht13 : (0 <= which_tree < 13)%Z) by lia.
  unfold assert_sphere_radial.
  replace (which_tree <? 12)%Z with true by (symmetry; apply Z.ltb_lt; lia).
  replace (which_tree <? 6)%Z with false by (symmetry; apply Z.ltb_ge; lia).
  pass_asserts eps_pos Ht13 Hdom.
  destruct Hdom as (Ka & Kb & Kc).
  set (p := 2 - v2 abc).
  set (u := tan (v0 abc * Cmath.M_PI_4)).
  set (v := tan (v1 abc * Cmath.M_PI_4)).
  set (dx := (1 - p) * Cmath.M_PI_4 / (cos (v0 abc * Cmath.M_PI_4) * cos (v0 abc * Cmath.M_PI_4))).
  set (dy := (1 - p) * Cmath.M_PI_4 / (cos (v1 abc * Cmath.M_PI_4) * cos (v1 abc * Cmath.M_PI_4))).
  set (w := 1 + (1 - p) * (u * u + v * v) + 2 * p).
  set (x := p * v0 abc + (1 - p) * u).
  set (y := p * v1 abc + (1 - p) * v).
  set (q := R0 * R0 / R1 * Cmath.pow (R1 / R0) (v2 abc) * sqrt (1 / w)).
  assert (Hp : 0 <= p <= 1) by (unfold p; lra).
  pose proof (der_quarter_pos _ Ka) as HDx.
  pose proof (der_quarter_pos _ Kb) as HDy.
  assert (Edx : dx = (1 - p) * (Cmath.M_PI_4 /
            (cos (v0 abc * Cmath.M_PI_4) * cos (v0 abc * Cmath.M_PI_4))))
    by (unfold dx, Rdiv; ring).
  assert (Edy : dy = (1 - p) * (Cmath.M_PI_4 /
            (cos (v1 abc * Cmath.M_PI_4) * cos (v1 abc * Cmath.M_PI_4))))
    by (unfold dy, Rdiv; ring).
  assert (Hdx : 0 <= dx) by (rewrite Edx; apply Rmult_le_pos; lra).
  assert (Hdy : 0 <= dy) by (rewrite Edy; apply Rmult_le_pos; lra).
  assert (HA : 0 < p + dx) by (rewrite Edx; apply blend_pos; assumption).
  assert (HB : 0 < p + dy) by (rewrite Edy; apply blend_pos; assumption).
  pose proof (tan_quarter_bound _ Ka) as Hu. fold u in Hu.
  pose proof (tan_quarter_bound _ Kb) as Hv. fold v in Hv.
  assert (Hw : 0 < w).
  { unfold w. assert (0 <= (1 - p) * (u * u + v * v)) by (apply Rmult_le_pos; nra). lra. }
  assert (Ht : 0 < 1 / w) by (apply Rdiv_lt_0_compat; lra).
  assert (HL : 0 < Cmath.log (R1 / R0)) by (apply log_ratio_pos; assumption).
  assert (Hq : 0 < q).
  { unfold q. assert (Hb0 : 0 < R1 / R0) by (apply Rdiv_lt_0_compat; lra).
    rewrite pow_pos_base by exact Hb0.
    apply Rmult_lt_0_compat; [apply Rmult_lt_0_compat|].
    - apply Rdiv_lt_0_compat; [nra | lra].
    - unfold Rpower. apply exp_pos.
    - apply sqrt_lt_R0. exact Ht. }
  pose proof (inner_matrix_det_pos p (v0 abc) (v1 abc) u v x y dx dy
                (Cmath.log (R1 / R0)) (1 / w)
                (proj1 Hp) Hdx Hdy HA HB Ka Kb Hu Hv HL (Rlt_le _ _ Ht)) as Hdet.
  cbv zeta in Hdet.
  match goal with
  | |- context [Rltb 0 (?m * (q * q * q))] =>
      assert (He : 0 < m * (q * q * q))
  end.
  { apply Rmult_lt_0_compat; [exact Hdet|].
    apply Rmult_lt_0_compat; [apply Rmult_lt_0_compat|]; exact Hq. }
  rewrite Rltb_true by exact He. rewrite P4EST_ASSERT_true.
  eexists; split; [reflexivity | exact He].
Qed.

Lemma sphere_D_center_pos
    (SC_1000_EPS : R) (debug : bool) (R2 R1 R0 : R) (abc : vec3) :
  0 < SC_1000_EPS -> 0 < R0 -> cube_domain abc ->
  exists d : R,
    p8est_geometry_sphere_D SC_1000_EPS debug (new_sphere_payload R2 R1 R0) 12 abc
      = Some d /\ 0 < d.
Proof.
  intros eps_pos HR0 ((? & ?) & (? & ?) & (? & ?)).
  destruct (sphere_center_asserts SC_1000_EPS debug abc) as (Ea & Eb & Ec).
  { intros _. unfold cube_asserted. repeat split; lra. }
  sphere_unfold. rewrite builtin_type_eqb_refl, P4EST_ASSERT_true.
  rewrite (assert_tree_range_ok debug 12 13) by lia.
  rewrite Ea, Eb, Ec. change (12 <? 6)%Z with false. change (12 <? 12)%Z with false.
  cbv iota. rewrite pow_three.
  eexists; split; [reflexivity|].
  assert (HL : 0 < R0 / sqrt 3).
  { apply Rdiv_lt_0_compat; [exact HR0 | apply sqrt_lt_R0; lra]. }
  apply Rmult_lt_0_compat; [apply Rmult_lt_0_compat|]; exact HL.
Qed.

Lemma sphere_D_J_pos
    (SC_1000_EPS : R) (debug : bool) (J_local : mat3)
    (R2 R1 R0 : R) (which_tree : Z) (abc : vec3) (J_in : mat3)
    (eps_pos : 0 < SC_1000_EPS)
    (HR0 : 0 < R0) (HR01 : R0 < R1) (HR12 : R1 < R2)
    (Htree : (0 <= which_tree < 13)%Z)
    (Hdom : sphere_domain which_tree abc) :
  let g := p8est_geometry_new_sphere SC_1000_EPS debug J_local R2 R1 R0 in
  exists (Jm : mat3) (d : R),
    D g which_tree abc = Some d /\
    J g which_tree abc J_in = Some (Jm, d) /\
    d = det3 Jm /\ 0 < d.
Proof.
  intros g.
  assert (HD : exists d, D g which_tree abc = Some d /\ 0 < d).
  { subst g. cbn [D p8est_geometry_new_sphere]. unfold sphere_domain in Hdom.
    destruct (Z_lt_ge_dec which_tree 6) as [H6 | H6].
    - replace (which_tree <? 12)%Z with true in Hdom by (symmetry; apply Z.ltb_lt; lia).
      apply sphere_D_outer_pos; try assumption; lra || lia.
    - destruct (Z_lt_ge_dec which_tree 12) as [H12 | H12].
      + replace (which_tree <? 12)%Z with true in Hdom by (symmetry; apply Z.ltb_lt; lia).
        apply sphere_D_inner_pos; try assumption; lia.
      + replace (which_tree <? 12)%Z with false in Hdom by (symmetry; apply Z.ltb_ge; lia).
        assert (which_tree = 12%Z) as -> by lia.
        apply sphere_D_center_pos; assumption. }
  destruct HD as (d & HDd & Hpos).
  destruct (sphere_D_J_agree SC_1000_EPS debug J_local R2 R1 R0 which_tree abc J_in Htree)
    as (Hagree & Hdet & _).
  fold g in Hagree, Hdet.
  rewrite HDd in Hagree.
  destruct (J g which_tree abc J_in) as [[Jm d']|] eqn:EJ; [|discriminate Hagree].
  cbn [option_map snd] in Hagree. injection Hagree as <-.
  exists Jm, d. repeat split; try assumption. apply Hdet. reflexivity.
Qed.

(** For the sphere geometry built from 0 < R0 < R1 < R2, at every tree of
    [0, 13) and every point of the reference domain of that tree (outer
    shell, blended inner shell and center cube alike), D and J return, in
    debug builds too, the same strictly positive determinant, which is the
    determinant of the matrix J fills: the assertions detJ > 0 of
    p8est_geometry_sphere_D and p8est_geometry_sphere_J never fail there. *)
Theorem sphere_detJ_positive
    (SC_1000_EPS : R) (debug : bool) (J_local : mat3)
    (R2 R1 R0 : R) (which_tree : Z) (abc : vec3) (J_in : mat3)
    (eps_pos : 0 < SC_1000_EPS)
    (HR0 : 0 < R0) (HR01 : R0 < R1) (HR12 : R1 < R2)
    (Htree : (0 <= which_tree < 13)%Z)
    (Hdom : sphere_domain which_tree abc) :
  let g := p8est_geometry_new_sphere SC_1000_EPS debug J_local R2 R1 R0 in
  exists (Jm : mat3) (d : R),
    D g which_tree abc = Some d /\
    J g which_tree abc J_in = Some (Jm, d) /\
    d = det3 Jm /\ 0 < d.
Proof.
  apply sphere_D_J_pos; assumption.
Qed.

(** ** The inverse transpose of the built-in geometries *)

Lemma shell_D_J_pos
    (SC_1000_EPS : R) (debug : bool) (J_local : mat3)
    (R2 R1 : R) (which_tree : Z) (abc : vec3) :
  0 < SC_1000_EPS -> 0 < R1 -> R1 < R2 ->
  (0 <= which_tree < 24)%Z -> shell_domain abc ->
  let g := p8est_geometry_new_shell SC_1000_EPS debug J_local R2 R1 in
  exists (Jm : mat3) (d : R),
    D g which_tree abc = Some d /\
    (forall J_in, J g which_tree abc J_in = Some (Jm, d)) /\
    d = det3 Jm /\ 0 < d.
Proof.
  intros eps_pos HR1 HR12 Htree Hdom g. subst g.
  pose proof (shell_factor_pos R2 R1 abc HR1 HR12 Hdom) as Hpos. cbv zeta in Hpos.
  shell_unfold. pass_asserts eps_pos Htree Hdom.
  match goal with
  | |- context [shell_J_switch ?p ?q ?x ?y ?t ?dx ?dy ?l] =>
      destruct (shell_J_switch_det p q x y t dx dy l) as (Jm & HJm & Hdet)
  end.
  { pose proof (shell_patch_cases which_tree Htree) as Hp. cbv zeta in Hp. lia. }
  rewrite HJm.
  fold (normalized_J (tan (v0 abc * Cmath.M_PI_4)) (tan (v1 abc * Cmath.M_PI_4))
          (1 / (tan (v0 abc * Cmath.M_PI_4) * tan (v0 abc * Cmath.M_PI_4)
                + tan (v1 abc * Cmath.M_PI_4) * tan (v1 abc * Cmath.M_PI_4) + 1))).
  rewrite Hdet, normalized_J_det.
  rewrite Rltb_true by exact Hpos. rewrite P4EST_ASSERT_true.
  exists Jm. eexists. split; [reflexivity|].
  split; [intros _; reflexivity|].
  split; [|exact Hpos].
  rewrite Hdet, normalized_J_det. reflexivity.
Qed.

(** For the shell geometry object (0 < R1 < R2), at every tree of [0, 24)
    and every point of the reference domain, the operation installed as
    Jit returns the determinant that J returns and a matrix whose
    transpose is the inverse of the matrix J fills, whatever the output
    arrays held before. *)
Theorem shell_Jit_inverts_J
    (SC_1000_EPS : R) (debug : bool) (J_local : mat3)
    (R2 R1 : R) (which_tree : Z) (abc : vec3) (J_in Jit_in : mat3)
    (eps_pos : 0 < SC_1000_EPS)
    (HR1 : 0 < R1) (HR12 : R1 < R2)
    (Htree : (0 <= which_tree < 24)%Z)
    (Hdom : shell_domain abc) :
  let g := p8est_geometry_new_shell SC_1000_EPS debug J_local R2 R1 in
  exists (Jm Ji : mat3) (d : R),
    J g which_tree abc J_in = Some (Jm, d) /\
    Jit g which_tree abc Jit_in = Some (Ji, d) /\
    0 < d /\
    mat_mul (mat_transpose Ji) Jm = mat_identity /\
    det3 Ji = / d.
Proof.
  intros g.
  destruct (shell_D_J_pos SC_1000_EPS debug J_local R2 R1 which_tree abc
              eps_pos HR1 HR12 Htree Hdom) as (Jm & d & _ & HJ & Hdet & Hpos).
  fold g in HJ.
  assert (Hnz : d <> 0) by lra.
  exists Jm, (inverse_transpose Jm d), d.
  split; [apply HJ|].
  split.
  { subst g. cbn [Jit p8est_geometry_new_shell]. apply Jit_value. apply (HJ J_local). }
  split; [exact Hpos|].
  split; [apply inverse_transpose_left; assumption
         | apply inverse_transpose_det; assumption].
Qed.

(** The same for the sphere geometry object (0 < R0 < R1 < R2) at every
    tree of [0, 13) and every point of the reference domain of the tree. *)
Theorem sphere_Jit_inverts_J
    (SC_1000_EPS : R) (debug : bool) (J_local : mat3)
    (R2 R1 R0 : R) (which_tree : Z) (abc : vec3) (J_in Jit_in : mat3)
    (eps_pos : 0 < SC_1000_EPS)
    (HR0 : 0 < R0) (HR01 : R0 < R1) (HR12 : R1 < R2)
    (Htree : (0 <= which_tree < 13)%Z)
    (Hdom : sphere_domain which_tree abc) :
  let g := p8est_geometry_new_sphere SC_1000_EPS debug J_local R2 R1 R0 in
  exists (Jm Ji : mat3) (d : R),
    J g which_tree abc J_in = Some (Jm, d) /\
    Jit g which_tree abc Jit_in = Some (Ji, d) /\
    0 < d /\
    mat_mul (mat_transpose Ji) Jm = mat_identity /\
    det3 Ji = / d.
Proof.
  intros g.
  destruct (sphere_D_J_pos SC_1000_EPS debug J_local R2 R1 R0 which_tree abc J_in
              eps_pos HR0 HR01 HR12 Htree Hdom) as (Jm & d & _ & HJ & Hdet & Hpos).
  fold g in HJ.
  assert (Hnz : d <> 0) by lra.
  exists Jm, (inverse_transpose Jm d), d.
  split; [exact HJ|].
  split.
  { subst g. cbn [J Jit p8est_geometry_new_sphere] in *. apply Jit_value.
    rewrite (sphere_J_input_irrelevant _ _ _ _ _ _ _ J_local J_in Htree). exact HJ. }
  split; [exact Hpos|].
  split; [apply inverse_transpose_left; assumption
         | apply inverse_transpose_det; assumption].
Qed.

(** ** Radii reached by the sphere forward map *)

Lemma sphere_X_switch_norm (dir : Z) (q x y : R) :
  (0 <= dir < 6)%Z -> 0 <= q ->
  exists xyz : vec3,
    sphere_X_switch dir q x y = Some xyz /\
    norm3 xyz = q * sqrt (x * x + y * y + 1).
Proof.
  intros H Hq.
  assert (Hn : forall u v w : R,
             u * u + v * v + w * w = q * q * (x * x + y * y + 1) ->
             norm3 (V3 u v w) = q * sqrt (x * x + y * y + 1)).
  { intros u v w E. unfold norm3. cbn [v0 v1 v2]. rewrite E.
    rewrite sqrt_mult by (try apply Rle_0_sqr; pose proof (sum_squares_pos x y); nra).
    rewrite sqrt_square by exact Hq. reflexivity. }
  assert (E : dir = 0%Z \/ dir = 1%Z \/ dir = 2%Z \/ dir = 3%Z \/ dir = 4%Z \/ dir = 5%Z)
    by lia.
  destruct E as [-> | [-> | [-> | [-> | [-> | ->]]]]];
    (eexists; split; [reflexivity | apply Hn; ring]).
Qed.

Lemma rem6_range (t : Z) : (0 <= t)%Z -> (0 <= Z.rem t 6 < 6)%Z.
Proof. intros H. apply Z.rem_bound_pos; lia. Qed.

(** The sphere geometry (positive radii) sends a point of an outer-shell
    tree to distance (R1^2/R2) * (R2/R1)^abc[2] from the origin, so the
    outer face abc[2] = 2 of the trees 0..5 lies on the sphere of radius
    R2; the outer face abc[2] = 2 of an inner-shell tree lies on the sphere
    of radius R1; and the center cube stays within distance R0 of the
    origin. *)
Theorem sphere_X_radii
    (SC_1000_EPS : R) (debug : bool) (J_local : mat3)
    (R2 R1 R0 : R) (which_tree : Z) (abc : vec3)
    (eps_pos : 0 < SC_1000_EPS)
    (HR0 : 0 < R0) (HR1 : 0 < R1) (HR2 : 0 < R2)
    (Htree : (0 <= which_tree < 13)%Z)
    (Hdom : sphere_domain which_tree abc) :
  let g := p8est_geometry_new_sphere SC_1000_EPS debug J_local R2 R1 R0 in
  exists xyz : vec3,
    X g which_tree abc = Some xyz /\
    ((which_tree < 6)%Z -> norm3 xyz = shell_radius R2 R1 (v2 abc)) /\
    ((which_tree < 6)%Z -> v2 abc = 2 -> norm3 xyz = R2) /\
    ((6 <= which_tree < 12)%Z -> v2 abc = 2 -> norm3 xyz = R1) /\
    (which_tree = 12%Z -> norm3 xyz <= R0).
Proof.
  intros g. subst g. cbn [X p8est_geometry_new_sphere]. unfold sphere_domain in Hdom.
  destruct (Z_lt_ge_dec which_tree 6) as [H6 | H6].
  - replace (which_tree <? 12)%Z with true in Hdom by (symmetry; apply Z.ltb_lt; lia).
    rewrite sphere_X_outer by (try assumption; lia). cbv zeta.
    set (x := tan (v0 abc * Cmath.M_PI_4)).
    set (y := tan (v1 abc * Cmath.M_PI_4)).
    rewrite pow_pos_base by (apply Rdiv_lt_0_compat; assumption).
    replace (R1 * R1 / R2 * Rpower (R2 / R1) (v2 abc))
      with (shell_radius R2 R1 (v2 abc)) by (unfold shell_radius; field; lra).
    pose proof (shell_radius_pos R2 R1 (v2 abc) HR1 HR2) as HR.
    pose proof (sum_squares_pos x y) as Hs.
    pose proof (sqrt_lt_R0 _ Hs) as Hss.
    destruct (sphere_X_switch_norm (Z.rem which_tree 6)
                (shell_radius R2 R1 (v2 abc) / sqrt (x * x + y * y + 1)) x y)
      as (xyz & HX & Hn).
    { apply rem6_range. lia. }
    { apply Rlt_le. apply Rdiv_lt_0_compat; assumption. }
    exists xyz. split; [exact HX|].
    assert (E : norm3 xyz = shell_radius R2 R1 (v2 abc)) by (rewrite Hn; field; lra).
    split; [intros _; exact E|].
    split; [intros _ Hc; rewrite E, Hc; apply shell_radius_outer; assumption|].
    split; [intros; lia | intros; lia].
  - destruct (Z_lt_ge_dec which_tree 12) as [H12 | H12].
    + replace (which_tree <? 12)%Z with true in Hdom by (symmetry; apply Z.ltb_lt; lia).
      rewrite sphere_X_inner by (try assumption; lia). cbv zeta.
      set (u := tan (v0 abc * Cmath.M_PI_4)).
      set (v := tan (v1 abc * Cmath.M_PI_4)).
      match goal with
      | |- context [sphere_X_switch ?d ?q ?x ?y] =>
          destruct (sphere_X_switch_total d q x y) as (xyz & HX)
      end.
      { apply rem6_range. lia. }
      exists xyz. split; [exact HX|].
      split; [intros; lia|]. split; [intros; lia|].
      split; [|intros; lia].
      intros _ Hc. rewrite Hc in HX.
      rewrite pow_two in HX.
      replace ((2 - 2) * v0 abc + (1 - (2 - 2)) * u) with u in HX by ring.
      replace ((2 - 2) * v1 abc + (1 - (2 - 2)) * v) with v in HX by ring.
      replace (1 + (1 - (2 - 2)) * (u * u + v * v) + 2 * (2 - 2))
        with (u * u + v * v + 1) in HX by ring.
      replace (R0 * R0 / R1 * (R1 / R0 * (R1 / R0))) with R1 in HX by (field; lra).
      pose proof (sum_squares_pos u v) as Hs.
      pose proof (sqrt_lt_R0 _ Hs) as Hss.
      destruct (sphere_X_switch_norm (Z.rem which_tree 6)
                  (R1 / sqrt (u * u + v * v + 1)) u v)
        as (xyz' & HX' & Hn).
      { apply rem6_range. lia. }
      { apply Rlt_le. apply Rdiv_lt_0_compat; assumption. }
      rewrite HX in HX'. injection HX' as <-. rewrite Hn. field. lra.
    + replace (which_tree <? 12)%Z with false in Hdom by (symmetry; apply Z.ltb_ge; lia).
      assert (which_tree = 12%Z) as -> by lia.
      destruct Hdom as ((Ka & Ka') & (Kb & Kb') & (Kc & Kc')).
      rewrite sphere_X_center by (intros _; unfold cube_asserted; repeat split; lra).
      eexists. split; [reflexivity|].
      split; [intros; lia|]. split; [intros; lia|]. split; [intros; lia|].
      intros _. unfold norm3. cbn [v0 v1 v2].
      assert (Hs3 : 0 < sqrt 3) by (apply sqrt_lt_R0; lra).
      assert (HL : 0 < R0 / sqrt 3) by (apply Rdiv_lt_0_compat; assumption).
      replace (v0 abc * (R0 / sqrt 3) * (v0 abc * (R0 / sqrt 3)) +
               v1 abc * (R0 / sqrt 3) * (v1 abc * (R0 / sqrt 3)) +
               v2 abc * (R0 / sqrt 3) * (v2 abc * (R0 / sqrt 3)))
        with ((R0 / sqrt 3) * (R0 / sqrt 3) *
              (v0 abc * v0 abc + v1 abc * v1 abc + v2 abc * v2 abc)) by ring.
      rewrite sqrt_mult by nra.
      rewrite sqrt_square by lra.
      assert (Hle : sqrt (v0 abc * v0 abc + v1 abc * v1 abc + v2 abc * v2 abc) <= sqrt 3).
      { apply sqrt_le_1_alt. nra. }
      replace R0 with (R0 / sqrt 3 * sqrt 3) at 2 by (field; lra).
      apply Rmult_le_compat_l; [lra | exact Hle].
Qed.

(** ** The outer layer of the sphere and the shell *)

Lemma tan_quarter_neg (a : R) : tan (- a * Cmath.M_PI_4) = - tan (a * Cmath.M_PI_4).
Proof. replace (- a * Cmath.M_PI_4) with (- (a * Cmath.M_PI_4)) by ring. apply tan_neg. Qed.

(** The outer-shell trees 0..5 of the sphere geometry are the six patches
    of the shell geometry with the same R1 and R2, renumbered: front,
    right, bottom and left coincide with the shell patches 5, 0, 1 and 2
    (shell trees 20, 0, 4, 8), while top and back are the shell patches 3
    and 4 (shell trees 12, 16) after a quarter turn, respectively a half
    turn, of the two angular reference coordinates. *)
Theorem sphere_outer_is_shell
    (SC_1000_EPS : R) (debug : bool) (J_local : mat3)
    (R2 R1 R0 : R) (a b c : R)
    (eps_pos : 0 < SC_1000_EPS)
    (Ha : -1 <= a <= 1) (Hb : -1 <= b <= 1) (Hc : 1 <= c <= 2) :
  let sph := p8est_geometry_new_sphere SC_1000_EPS debug J_local R2 R1 R0 in
  let sh := p8est_geometry_new_shell SC_1000_EPS debug J_local R2 R1 in
  (forall t, (0 <= t < 6)%Z -> exists xyz, X sph t (V3 a b c) = Some xyz) /\
  X sph 0 (V3 a b c) = X sh 20 (V3 a b c) /\
  X sph 1 (V3 a b c) = X sh 12 (V3 (- b) a c) /\
  X sph 2 (V3 a b c) = X sh 16 (V3 (- a) (- b) c) /\
  X sph 3 (V3 a b c) = X sh 0 (V3 a b c) /\
  X sph 4 (V3 a b c) = X sh 4 (V3 a b c) /\
  X sph 5 (V3 a b c) = X sh 8 (V3 a b c).
Proof.
  intros sph sh. subst sph sh. cbn [X p8est_geometry_new_sphere p8est_geometry_new_shell].
  assert (Hd : forall u v, -1 <= u <= 1 -> -1 <= v <= 1 -> shell_domain (V3 u v c)).
  { intros u v Hu Hv. unfold shell_domain. cbn [v0 v1 v2]. repeat split; lra. }
  assert (Hna : -1 <= - a <= 1) by lra.
  assert (Hnb : -1 <= - b <= 1) by lra.
  split.
  - intros t Ht. rewrite sphere_X_outer by (try assumption; auto).
    cbv zeta. apply sphere_X_switch_total. apply rem6_range. lia.
  - repeat split;
      rewrite sphere_X_outer by (try assumption; try lia; auto);
      rewrite shell_X_on_domain by (try assumption; try lia; auto);
      cbv zeta; cbn [v0 v1 v2];
      rewrite ?tan_quarter_neg;
      set (x := tan (a * Cmath.M_PI_4)); set (y := tan (b * Cmath.M_PI_4));
      set (Rr := R1 * R1 / R2 * Cmath.pow (R2 / R1) c);
      match goal with
      | |- sphere_X_switch (Z.rem ?t 6) _ _ _ = shell_X_switch (Z.quot ?t' 4) _ _ _ =>
          let r := eval vm_compute in (Z.rem t 6) in
          let k := eval vm_compute in (Z.quot t' 4) in
          change (Z.rem t 6) with r; change (Z.quot t' 4) with k
      end;
      unfold sphere_X_switch, shell_X_switch; cbn [Z.eqb Pos.eqb];
      replace (- y * - y + x * x + 1) with (x * x + y * y + 1) by ring;
      replace (- x * - x + - y * - y + 1) with (x * x + y * y + 1) by ring;
      f_equal; f_equal; ring.
Qed.

(** ** Differentiation rules *)

Lemma dl_eq (f : R -> R) (x l l' : R) :
  derivable_pt_lim f x l' -> l' = l -> derivable_pt_lim f x l.
Proof. intros H <-. exact H. Qed.

Lemma dl_const (c x : R) : derivable_pt_lim (fun _ => c) x 0.
Proof. exact (derivable_pt_lim_const c x). Qed.

Lemma dl_id (x : R) : derivable_pt_lim (fun h => h) x 1.
Proof. exact (derivable_pt_lim_id x). Qed.

Lemma dl_plus (f g : R -> R) (x l1 l2 : R) :
  derivable_pt_lim f x l1 -> derivable_pt_lim g x l2 ->
  derivable_pt_lim (fun h => f h + g h) x (l1 + l2).
Proof. exact (derivable_pt_lim_plus f g x l1 l2). Qed.

Lemma dl_minus (f g : R -> R) (x l1 l2 : R) :
  derivable_pt_lim f x l1 -> derivable_pt_lim g x l2 ->
  derivable_pt_lim (fun h => f h - g h) x (l1 - l2).
Proof. exact (derivable_pt_lim_minus f g x l1 l2). Qed.

Lemma dl_opp (f : R -> R) (x l : R) :
  derivable_pt_lim f x l -> derivable_pt_lim (fun h => - f h) x (- l).
Proof. exact (derivable_pt_lim_opp f x l). Qed.

Lemma dl_mult (f g : R -> R) (x l1 l2 : R) :
  derivable_pt_lim f x l1 -> derivable_pt_lim g x l2 ->
  derivable_pt_lim (fun h => f h * g h) x (l1 * g x + f x * l2).
Proof. exact (derivable_pt_lim_mult f g x l1 l2). Qed.

Lemma dl_div (f g : R -> R) (x l1 l2 : R) :
  derivable_pt_lim f x l1 -> derivable_pt_lim g x l2 -> g x <> 0 ->
  derivable_pt_lim (fun h => f h / g h) x ((l1 * g x - l2 * f x) / (g x * g x)).
Proof. exact (derivable_pt_lim_div f g x l1 l2). Qed.

Lemma dl_comp (f g : R -> R) (x l1 l2 : R) :
  derivable_pt_lim g x l1 -> derivable_pt_lim f (g x) l2 ->
  derivable_pt_lim (fun h => f (g h)) x (l2 * l1).
Proof. exact (derivable_pt_lim_comp g f x l1 l2). Qed.

Lemma dl_sqrt (g : R -> R) (x l : R) :
  derivable_pt_lim g x l -> 0 < g x ->
  derivable_pt_lim (fun h => sqrt (g h)) x (/ (2 * sqrt (g x)) * l).
Proof.
  intros Hg Hpos. apply (dl_comp sqrt g); [exact Hg|].
  apply derivable_pt_lim_sqrt. exact Hpos.
Qed.

Lemma dl_tan_base (y : R) :
  cos y <> 0 -> derivable_pt_lim tan y (/ (cos y * cos y)).
Proof.
  intros Hc.
  apply (dl_eq _ _ _ ((cos y * cos y - - sin y * sin y) / (cos y * cos y))).
  - exact (dl_div sin cos y (cos y) (- sin y)
             (derivable_pt_lim_sin y) (derivable_pt_lim_cos y) Hc).
  - pose proof (sin2_cos2 y) as H. unfold Rsqr in H.
    replace (cos y * cos y - - sin y * sin y) with 1 by lra.
    field. exact Hc.
Qed.

Lemma dl_tan (g : R -> R) (x l : R) :
  derivable_pt_lim g x l -> cos (g x) <> 0 ->
  derivable_pt_lim (fun h => tan (g h)) x (/ (cos (g x) * cos (g x)) * l).
Proof.
  intros Hg Hc. apply (dl_comp tan g); [exact Hg|].
  apply dl_tan_base. exact Hc.
Qed.

Lemma dl_pow_exponent (B : R) (g : R -> R) (x l : R) :
  derivable_pt_lim g x l -> 0 < B ->
  derivable_pt_lim (fun h => Cmath.pow B (g h)) x (Cmath.pow B (g x) * ln B * l).
Proof.
  intros Hg HB.
  apply (derivable_pt_lim_ext (fun h => exp (g h * ln B))).
  { intros z. rewrite pow_pos_base by exact HB. reflexivity. }
  rewrite pow_pos_base by exact HB. unfold Rpower.
  apply (dl_eq _ _ _ (exp (g x * ln B) * (l * ln B + g x * 0))); [|ring].
  apply (dl_comp exp (fun h => g h * ln B)).
  - apply (dl_mult g (fun _ => ln B)); [exact Hg | apply dl_const].
  - apply derivable_pt_lim_exp.
Qed.

Ltac der :=
  lazymatch goal with
  | |- derivable_pt_lim (fun _ => ?c) _ _ => apply dl_const
  | |- derivable_pt_lim (fun h => h) _ _ => apply dl_id
  | |- derivable_pt_lim (fun h => @?f h + @?g h) _ _ => eapply (dl_plus f g); der
  | |- derivable_pt_lim (fun h => @?f h - @?g h) _ _ => eapply (dl_minus f g); der
  | |- derivable_pt_lim (fun h => - @?f h) _ _ => eapply (dl_opp f); der
  | |- derivable_pt_lim (fun h => @?f h * @?g h) _ _ => eapply (dl_mult f g); der
  | |- derivable_pt_lim (fun h => @?f h / @?g h) _ _ =>
      eapply (dl_div f g); [der | der | cbv beta]
  | |- derivable_pt_lim (fun h => sqrt (@?g h)) _ _ =>
      eapply (dl_sqrt g); [der | cbv beta]
  | |- derivable_pt_lim (fun h => tan (@?g h)) _ _ =>
      eapply (dl_tan g); [der | cbv beta]
  | |- derivable_pt_lim (fun h => Cmath.pow ?B (@?g h)) _ _ =>
      eapply (dl_pow_exponent B g); [der | ]
  end.


(** ** The Jacobian path against the forward map *)

Lemma assert_angular_asserted (eps : R) (debug : bool) (a : R) :
  -1 - eps < a < 1 + eps -> assert_angular eps debug a = Some tt.
Proof.
  intros [Hl Hu]. unfold assert_angular.
  rewrite !Rltb_true by assumption. apply P4EST_ASSERT_true.
Qed.

Lemma assert_radial_asserted (eps : R) (debug : bool) (c : R) :
  1 - eps < c < 2 + eps -> assert_radial eps debug c = Some tt.
Proof.
  intros [Hl Hu]. unfold assert_radial.
  rewrite !Rltb_true by assumption. apply P4EST_ASSERT_true.
Qed.

Lemma shell_X_on_asserted
    (SC_1000_EPS : R) (debug : bool) (R2 R1 : R) (which_tree : Z) (abc : vec3) :
  (0 <= which_tree < 24)%Z -> shell_asserted SC_1000_EPS abc ->
  p8est_geometry_shell_X SC_1000_EPS debug (new_shell_payload R2 R1) which_tree abc
  = let x := tan (v0 abc * Cmath.M_PI_4) in
    let y := tan (v1 abc * Cmath.M_PI_4) in
    let q := R1 * R1 / R2 * Cmath.pow (R2 / R1) (v2 abc) / sqrt (x * x + y * y + 1) in
    shell_X_switch (Z.quot which_tree 4) q x y.
Proof.
  intros Htree (Ha & Hb & Hc). shell_unfold.
  rewrite builtin_type_eqb_refl, P4EST_ASSERT_true.
  rewrite (assert_tree_range_ok debug _ _ Htree).
  rewrite (assert_angular_asserted _ _ _ Ha), (assert_angular_asserted _ _ _ Hb).
  rewrite (assert_radial_asserted _ _ _ Hc). reflexivity.
Qed.

Lemma shell_J_on_domain
    (SC_1000_EPS : R) (debug : bool) (R2 R1 : R) (which_tree : Z) (abc J_in : _) :
  0 < SC_1000_EPS -> 0 < R1 -> R1 < R2 ->
  (0 <= which_tree < 24)%Z -> shell_domain abc ->
  p8est_geometry_shell_J SC_1000_EPS debug (new_shell_payload R2 R1) which_tree abc J_in
  = let cx := cos (v0 abc * Cmath.M_PI_4) in
    let derx := Cmath.M_PI_4 / (cx * cx) in
    let x := tan (v0 abc * Cmath.M_PI_4) in
    let cy := cos (v1 abc * Cmath.M_PI_4) in
    let dery := Cmath.M_PI_4 / (cy * cy) in
    let y := tan (v1 abc * Cmath.M_PI_4) in
    let t := 1 / (x * x + y * y + 1) in
    let q := R1 * R1 / R2 * Cmath.pow (R2 / R1) (v2 abc) * sqrt t in
    option_map (fun Jm => (Jm, det3 Jm))
      (shell_J_switch (Z.quot which_tree 4) q x y t derx dery (Cmath.log (R2 / R1))).
Proof.
  intros eps_pos HR1 HR12 Htree Hdom.
  pose proof (shell_factor_pos R2 R1 abc HR1 HR12 Hdom) as Hpos. cbv zeta in Hpos.
  shell_unfold. pass_asserts eps_pos Htree Hdom.
  match goal with
  | |- context [shell_J_switch ?p ?q ?x ?y ?t ?dx ?dy ?l] =>
      destruct (shell_J_switch_det p q x y t dx dy l) as (Jm & HJm & Hdet)
  end.
  { pose proof (shell_patch_cases which_tree Htree) as Hp. cbv zeta in Hp. lia. }
  rewrite HJm. cbn [option_map].
  rewrite Hdet, normalized_J_det.
  rewrite Rltb_true by exact Hpos. rewrite P4EST_ASSERT_true. reflexivity.
Qed.

Lemma sqrt_recip (w : R) : 0 < w -> sqrt (1 / w) = / sqrt w.
Proof.
  intros Hw. unfold Rdiv. rewrite Rmult_1_l. apply sqrt_inv.
Qed.

Lemma recip_as_sqrt (w : R) : 0 < w -> 1 / w = / sqrt w * / sqrt w.
Proof.
  intros Hw. pose proof (sqrt_lt_R0 w Hw) as Hs.
  rewrite <- (sqrt_sqrt w) at 1 by lra. field. lra.
Qed.

Ltac nonzero_side :=
  repeat split;
  lazymatch goal with
  | |- cos _ <> 0 => apply Rgt_not_eq; apply cos_quarter_pos; assumption
  | |- sqrt _ <> 0 =>
      apply Rgt_not_eq; apply sqrt_lt_R0;
      first [ assumption | apply sum_squares_pos | lra | nra ]
  | |- _ <> 0 => lra
  | _ => idtac
  end.

Ltac der_side :=
  cbv beta;
  lazymatch goal with
  | |- cos _ <> 0 => apply Rgt_not_eq; apply cos_quarter_pos; assumption
  | |- 0 < _ => first [ assumption | apply sum_squares_pos | lra | nra ]
  | |- sqrt _ <> 0 =>
      apply Rgt_not_eq; apply sqrt_lt_R0;
      first [ assumption | apply sum_squares_pos | lra | nra ]
  | _ => idtac
  end.

Ltac nine_entries :=
  let i := fresh "i" in let j := fresh "j" in
  let Hi := fresh "Hi" in let Hj := fresh "Hj" in
  let Ei := fresh "Ei" in let Ej := fresh "Ej" in
  intros i j Hi Hj;
  assert (Ei : i = 0%Z \/ i = 1%Z \/ i = 2%Z) by lia;
  assert (Ej : j = 0%Z \/ j = 1%Z \/ j = 2%Z) by lia;
  destruct Ei as [-> | [-> | ->]]; destruct Ej as [-> | [-> | ->]];
  unfold partial_at; mat_simpl.

(** The matrix that p8est_geometry_shell_J fills is the Jacobian matrix of
    p8est_geometry_shell_X: for 0 < R1 < R2, at every tree of [0, 24) and
    every point of the reference domain, entry (i, j) of J is the partial
    derivative of component i of X along reference axis j.  D returns the
    determinant of that matrix, and it is positive. *)
Theorem shell_J_is_jacobian
    (SC_1000_EPS : R) (debug : bool) (J_local : mat3)
    (R2 R1 : R) (which_tree : Z) (abc : vec3) (J_in : mat3)
    (eps_pos : 0 < SC_1000_EPS)
    (HR1 : 0 < R1) (HR12 : R1 < R2)
    (Htree : (0 <= which_tree < 24)%Z)
    (Hdom : shell_domain abc) :
  let g := p8est_geometry_new_shell SC_1000_EPS debug J_local R2 R1 in
  exists (Jm : mat3) (d : R),
    J g which_tree abc J_in = Some (Jm, d) /\
    jacobian_at (X g which_tree) abc Jm /\
    D g which_tree abc = Some (det3 Jm) /\
    0 < det3 Jm.
Proof.
  intros g.
  destruct (shell_D_J_pos SC_1000_EPS debug J_local R2 R1 which_tree abc
              eps_pos HR1 HR12 Htree Hdom) as (Jm & d & HD & HJ & Hdet & Hpos).
  fold g in HD, HJ. specialize (HJ J_in).
  exists Jm, d. split; [exact HJ|].
  split; [|subst d; split; assumption].
  clear HD Hdet Hpos.
  subst g. cbn [X J p8est_geometry_new_shell] in *.
  rewrite shell_J_on_domain in HJ by assumption. cbv zeta in HJ.
  destruct abc as [a b c]. destruct Hdom as (Ha & Hb & Hc). cbn [v0 v1 v2] in *.
  assert (HB : 0 < R2 / R1) by (apply Rdiv_lt_0_compat; lra).
  pose proof (sum_squares_pos (tan (a * Cmath.M_PI_4)) (tan (b * Cmath.M_PI_4))) as Hs.
  assert (Hloc : forall u v w,
             -1 - SC_1000_EPS < u < 1 + SC_1000_EPS ->
             -1 - SC_1000_EPS < v < 1 + SC_1000_EPS ->
             1 - SC_1000_EPS < w < 2 + SC_1000_EPS ->
             p8est_geometry_shell_X SC_1000_EPS debug (new_shell_payload R2 R1)
               which_tree (V3 u v w)
             = shell_X_switch (Z.quot which_tree 4)
                 (R1 * R1 / R2 * Cmath.pow (R2 / R1) w
                  / sqrt (tan (u * Cmath.M_PI_4) * tan (u * Cmath.M_PI_4)
                          + tan (v * Cmath.M_PI_4) * tan (v * Cmath.M_PI_4) + 1))
                 (tan (u * Cmath.M_PI_4)) (tan (v * Cmath.M_PI_4))).
  { intros u v w Hu Hv Hw. rewrite shell_X_on_asserted; [reflexivity | exact Htree |].
    unfold shell_asserted. cbn [v0 v1 v2]. auto. }
  pose proof (shell_patch_cases which_tree Htree) as Hp. cbv zeta in Hp.
  destruct Hp as [E | [E | [E | [E | [E | E]]]]]; rewrite E in *;
    unfold shell_J_switch in HJ; cbn [Z.eqb Pos.eqb option_map] in HJ;
    injection HJ as <- _;
    nine_entries;
    match goal with
    | |- derivable_pt_lim _ ?x0 _ =>
        eapply (derivable_pt_lim_locally_ext _ _ x0 (x0 - SC_1000_EPS) (x0 + SC_1000_EPS));
        [ lra
        | intros z Hz; rewrite Hloc by lra;
          unfold shell_X_switch; cbn [Z.eqb Pos.eqb point_of v0 v1 v2]; reflexivity
        | eapply dl_eq;
          [ der; der_side
          | cbv beta; unfold Cmath.log;
            rewrite ?(sqrt_recip _ Hs), ?(recip_as_sqrt _ Hs);
            field; nonzero_side ] ]
    end.
Qed.

Lemma sphere_X_outer_asserted
    (SC_1000_EPS : R) (debug : bool) (R2 R1 R0 : R) (which_tree : Z) (abc : vec3) :
  (0 <= which_tree < 6)%Z -> shell_asserted SC_1000_EPS abc ->
  p8est_geometry_sphere_X SC_1000_EPS debug (new_sphere_payload R2 R1 R0) which_tree abc
  = let x := tan (v0 abc * Cmath.M_PI_4) in
    let y := tan (v1 abc * Cmath.M_PI_4) in
    let q := R1 * R1 / R2 * Cmath.pow (R2 / R1) (v2 abc) / sqrt (x * x + y * y + 1) in
    sphere_X_switch (Z.rem which_tree 6) q x y.
Proof.
  intros Htree (Ha & Hb & Hc). sphere_unfold.
  rewrite builtin_type_eqb_refl, P4EST_ASSERT_true.
  rewrite (assert_tree_range_ok debug which_tree 13) by lia.
  unfold assert_sphere_radial.
  replace (which_tree <? 12)%Z with true by (symmetry; apply Z.ltb_lt; lia).
  replace (which_tree <? 6)%Z with true by (symmetry; apply Z.ltb_lt; lia).
  rewrite (assert_angular_asserted _ _ _ Ha), (assert_angular_asserted _ _ _ Hb).
  rewrite (assert_radial_asserted _ _ _ Hc). reflexivity.
Qed.

Lemma sphere_X_inner_asserted
    (SC_1000_EPS : R) (debug : bool) (R2 R1 R0 : R) (which_tree : Z) (abc : vec3) :
  (6 <= which_tree < 12)%Z -> shell_asserted SC_1000_EPS abc ->
  p8est_geometry_sphere_X SC_1000_EPS debug (new_sphere_payload R2 R1 R0) which_tree abc
  = let p := 2 - v2 abc in
    let tanx := tan (v0 abc * Cmath.M_PI_4) in
    let tany := tan (v1 abc * Cmath.M_PI_4) in
    let x := p * v0 abc + (1 - p) * tanx in
    let y := p * v1 abc + (1 - p) * tany in
    let q := R0 * R0 / R1 * Cmath.pow (R1 / R0) (v2 abc)
             / sqrt (1 + (1 - p) * (tanx * tanx + tany * tany) + 2 * p) in
    sphere_X_switch (Z.rem which_tree 6) q x y.
Proof.
  intros Htree (Ha & Hb & Hc). sphere_unfold.
  rewrite builtin_type_eqb_refl, P4EST_ASSERT_true.
  rewrite (assert_tree_range_ok debug which_tree 13) by lia.
  unfold assert_sphere_radial.
  replace (which_tree <? 12)%Z with true by (symmetry; apply Z.ltb_lt; lia).
  replace (which_tree <? 6)%Z with false by (symmetry; apply Z.ltb_ge; lia).
  rewrite (assert_angular_asserted _ _ _ Ha), (assert_angular_asserted _ _ _ Hb).
  rewrite (assert_radial_asserted _ _ _ Hc). reflexivity.
Qed.

Ltac sphere_J_matrix HJ :=
  cbn [Z.ltb Z.compare Pos.compare Pos.compare_cont Z.sub Z.add Z.opp Z.pos_sub
       Pos.pred_double] in HJ;
  invert_checks HJ; injection HJ as <- <-.

Lemma sphere_outer_jacobian
    (SC_1000_EPS : R) (debug : bool) (J_local : mat3)
    (R2 R1 R0 : R) (which_tree : Z) (abc : vec3) (J_in : mat3) :
  0 < SC_1000_EPS -> 0 < R0 -> R0 < R1 -> R1 < R2 ->
  (0 <= which_tree < 6)%Z -> shell_domain abc ->
  let g := p8est_geometry_new_sphere SC_1000_EPS debug J_local R2 R1 R0 in
  exists (Jm : mat3) (d : R),
    J g which_tree abc J_in = Some (Jm, d) /\
    jacobian_at (X g which_tree) abc Jm.
Proof.
  intros eps_pos HR0 HR01 HR12 Htree Hdom g.
  destruct (sphere_D_J_pos SC_1000_EPS debug J_local R2 R1 R0 which_tree abc J_in
              eps_pos HR0 HR01 HR12) as (Jm & d & _ & HJ & _ & _).
  { lia. }
  { unfold sphere_domain.
    replace (which_tree <? 12)%Z with true by (symmetry; apply Z.ltb_lt; lia). exact Hdom. }
  fold g in HJ. exists Jm, d. split; [exact HJ|].
  subst g. cbn [X J p8est_geometry_new_sphere] in *.
  destruct abc as [a b c]. destruct Hdom as (Ha & Hb & Hc). cbn [v0 v1 v2] in *.
  assert (HB : 0 < R2 / R1) by (apply Rdiv_lt_0_compat; lra).
  pose proof (sum_squares_pos (tan (a * Cmath.M_PI_4)) (tan (b * Cmath.M_PI_4))) as Hs.
  assert (Hloc : forall u v w,
             -1 - SC_1000_EPS < u < 1 + SC_1000_EPS ->
             -1 - SC_1000_EPS < v < 1 + SC_1000_EPS ->
             1 - SC_1000_EPS < w < 2 + SC_1000_EPS ->
             p8est_geometry_sphere_X SC_1000_EPS debug (new_sphere_payload R2 R1 R0)
               which_tree (V3 u v w)
             = sphere_X_switch (Z.rem which_tree 6)
                 (R1 * R1 / R2 * Cmath.pow (R2 / R1) w
                  / sqrt (tan (u * Cmath.M_PI_4) * tan (u * Cmath.M_PI_4)
                          + tan (v * Cmath.M_PI_4) * tan (v * Cmath.M_PI_4) + 1))
                 (tan (u * Cmath.M_PI_4)) (tan (v * Cmath.M_PI_4))).
  { intros u v w Hu Hv Hw. rewrite sphere_X_outer_asserted; [reflexivity | exact Htree |].
    unfold shell_asserted. cbn [v0 v1 v2]. auto. }
  revert HJ Hloc. unfold p8est_geometry_sphere_J. cbv zeta.
  cbn [sphere_type sphere_R2 sphere_R1 sphere_R0 sphere_R2byR1 sphere_R1sqrbyR2
       sphere_R1log sphere_R1byR0 sphere_R0sqrbyR1 sphere_R0log sphere_Clength
       sphere_CdetJ new_sphere_payload v0 v1 v2].
  assert (Et : which_tree = 0%Z \/ which_tree = 1%Z \/ which_tree = 2%Z \/
               which_tree = 3%Z \/ which_tree = 4%Z \/ which_tree = 5%Z) by lia.
  destruct Et as [-> | [-> | [-> | [-> | [-> | ->]]]]]; intros HJ Hloc;
    sphere_J_matrix HJ;
    match type of Hloc with
    | context [Z.rem ?t 6] =>
        let r := eval vm_compute in (Z.rem t 6) in change (Z.rem t 6) with r in Hloc
    end;
    nine_entries;
    match goal with
    | |- derivable_pt_lim _ ?x0 _ =>
        eapply (derivable_pt_lim_locally_ext _ _ x0 (x0 - SC_1000_EPS) (x0 + SC_1000_EPS));
        [ lra
        | intros z Hz; rewrite Hloc by lra;
          unfold sphere_X_switch; cbn [Z.eqb Pos.eqb point_of v0 v1 v2]; reflexivity
        | eapply dl_eq;
          [ der; der_side
          | cbv beta; unfold Cmath.log;
            rewrite ?(sqrt_recip _ Hs), ?(recip_as_sqrt _ Hs);
            field; nonzero_side ] ]
    end.
Qed.

Lemma sphere_inner_jacobian
    (SC_1000_EPS : R) (debug : bool) (J_local : mat3)
    (R2 R1 R0 : R) (which_tree : Z) (abc : vec3) (J_in : mat3) :
  0 < SC_1000_EPS -> 0 < R0 -> R0 < R1 -> R1 < R2 ->
  (6 <= which_tree < 12)%Z -> shell_domain abc ->
  let g := p8est_geometry_new_sphere SC_1000_EPS debug J_local R2 R1 R0 in
  exists (Jm : mat3) (d : R),
    J g which_tree abc J_in = Some (Jm, d) /\
    jacobian_at (X g which_tree) abc Jm.
Proof.
  intros eps_pos HR0 HR01 HR12 Htree Hdom g.
  destruct (sphere_D_J_pos SC_1000_EPS debug J_local R2 R1 R0 which_tree abc J_in
              eps_pos HR0 HR01 HR12) as (Jm & d & _ & HJ & _ & _).
  { lia. }
  { unfold sphere_domain.
    replace (which_tree <? 12)%Z with true by (symmetry; apply Z.ltb_lt; lia). exact Hdom. }
  fold g in HJ. exists Jm, d. split; [exact HJ|].
  subst g. cbn [X J p8est_geometry_new_sphere] in *.
  destruct abc as [a b c]. destruct Hdom as (Ha & Hb & Hc). cbn [v0 v1 v2] in *.
  assert (HB : 0 < R1 / R0) by (apply Rdiv_lt_0_compat; lra).
  assert (Hs : 0 < 1 + (1 - (2 - c)) * (tan (a * Cmath.M_PI_4) * tan (a * Cmath.M_PI_4)
                                      + tan (b * Cmath.M_PI_4) * tan (b * Cmath.M_PI_4))
                   + 2 * (2 - c)).
  { assert (0 <= (1 - (2 - c)) * (tan (a * Cmath.M_PI_4) * tan (a * Cmath.M_PI_4)
                                  + tan (b * Cmath.M_PI_4) * tan (b * Cmath.M_PI_4)))
      by (apply Rmult_le_pos; nra).
    lra. }
  assert (Hloc : forall u v w,
             -1 - SC_1000_EPS < u < 1 + SC_1000_EPS ->
             -1 - SC_1000_EPS < v < 1 + SC_1000_EPS ->
             1 - SC_1000_EPS < w < 2 + SC_1000_EPS ->
             p8est_geometry_sphere_X SC_1000_EPS debug (new_sphere_payload R2 R1 R0)
               which_tree (V3 u v w)
             = sphere_X_switch (Z.rem which_tree 6)
                 (R0 * R0 / R1 * Cmath.pow (R1 / R0) w
                  / sqrt (1 + (1 - (2 - w)) *
                              (tan (u * Cmath.M_PI_4) * tan (u * Cmath.M_PI_4)
                               + tan (v * Cmath.M_PI_4) * tan (v * Cmath.M_PI_4))
                          + 2 * (2 - w)))
                 ((2 - w) * u + (1 - (2 - w)) * tan (u * Cmath.M_PI_4))
                 ((2 - w) * v + (1 - (2 - w)) * tan (v * Cmath.M_PI_4))).
  { intros u v w Hu Hv Hw. rewrite sphere_X_inner_asserted; [reflexivity | exact Htree |].
    unfold shell_asserted. cbn [v0 v1 v2]. auto. }
  revert HJ Hloc. unfold p8est_geometry_sphere_J. cbv zeta.
  cbn [sphere_type sphere_R2 sphere_R1 sphere_R0 sphere_R2byR1 sphere_R1sqrbyR2
       sphere_R1log sphere_R1byR0 sphere_R0sqrbyR1 sphere_R0log sphere_Clength
       sphere_CdetJ new_sphere_payload v0 v1 v2].
  destruct (inner_tree_cases which_tree Htree) as [-> | [-> | [-> | [-> | [-> | ->]]]]];
    intros HJ Hloc;
    sphere_J_matrix HJ;
    match type of Hloc with
    | context [Z.rem ?t 6] =>
        let r := eval vm_compute in (Z.rem t 6) in change (Z.rem t 6) with r in Hloc
    end;
    nine_entries;
    match goal with
    | |- derivable_pt_lim _ ?x0 _ =>
        eapply (derivable_pt_lim_locally_ext _ _ x0 (x0 - SC_1000_EPS) (x0 + SC_1000_EPS));
        [ lra
        | intros z Hz; rewrite Hloc by lra;
          unfold sphere_X_switch; cbn [Z.eqb Pos.eqb point_of v0 v1 v2]; reflexivity
        | eapply dl_eq;
          [ der; der_side
          | cbv beta; unfold Cmath.log;
            rewrite ?(sqrt_recip _ Hs), ?(recip_as_sqrt _ Hs);
            field; nonzero_side ] ]
    end.
Qed.

Lemma sphere_center_jacobian
    (SC_1000_EPS : R) (debug : bool) (J_local : mat3)
    (R2 R1 R0 : R) (abc : vec3) (J_in : mat3) :
  0 < SC_1000_EPS -> cube_domain abc ->
  let g := p8est_geometry_new_sphere SC_1000_EPS debug J_local R2 R1 R0 in
  exists (Jm : mat3) (d : R),
    J g 12 abc J_in = Some (Jm, d) /\
    jacobian_at (X g 12) abc Jm.
Proof.
  intros eps_pos Hdom g.
  assert (Hassert : debug = true -> cube_asserted SC_1000_EPS abc).
  { intros _. destruct Hdom as ((? & ?) & (? & ?) & (? & ?)).
    unfold cube_asserted. repeat split; lra. }
  destruct (sphere_center_ops SC_1000_EPS debug J_local R2 R1 R0 abc J_in Hassert)
    as (_ & HJ & _).
  fold g in HJ. eexists; eexists. split; [exact HJ|].
  subst g. cbn [X p8est_geometry_new_sphere].
  destruct abc as [a b c]. destruct Hdom as (Ha & Hb & Hc). cbn [v0 v1 v2] in *.
  assert (Hloc : forall u v w,
             -1 - SC_1000_EPS < u < 1 + SC_1000_EPS ->
             -1 - SC_1000_EPS < v < 1 + SC_1000_EPS ->
             -1 - SC_1000_EPS < w < 1 + SC_1000_EPS ->
             p8est_geometry_sphere_X SC_1000_EPS debug (new_sphere_payload R2 R1 R0)
               12 (V3 u v w)
             = Some (V3 (u * (R0 / sqrt 3)) (v * (R0 / sqrt 3)) (w * (R0 / sqrt 3)))).
  { intros u v w Hu Hv Hw. rewrite sphere_X_center; [reflexivity|].
    intros _. unfold cube_asserted. cbn [v0 v1 v2]. auto. }
  nine_entries;
    match goal with
    | |- derivable_pt_lim _ ?x0 _ =>
        eapply (derivable_pt_lim_locally_ext _ _ x0 (x0 - SC_1000_EPS) (x0 + SC_1000_EPS));
        [ lra
        | intros z Hz; rewrite Hloc by lra; cbn [point_of v0 v1 v2]; reflexivity
        | eapply dl_eq; [ der | cbv beta; ring ] ]
    end.
Qed.

(** The matrix that p8est_geometry_sphere_J fills is the Jacobian matrix of
    p8est_geometry_sphere_X: for 0 < R0 < R1 < R2, at every tree of [0, 13)
    (outer shell, blended inner shell, center cube) and every point of the
    reference domain of the tree, entry (i, j) of J is the partial
    derivative of component i of X along reference axis j.  D returns the
    determinant of that matrix, and it is positive. *)
Theorem sphere_J_is_jacobian
    (SC_1000_EPS : R) (debug : bool) (J_local : mat3)
    (R2 R1 R0 : R) (which_tree : Z) (abc : vec3) (J_in : mat3)
    (eps_pos : 0 < SC_1000_EPS)
    (HR0 : 0 < R0) (HR01 : R0 < R1) (HR12 : R1 < R2)
    (Htree : (0 <= which_tree < 13)%Z)
    (Hdom : sphere_domain which_tree abc) :
  let g := p8est_geometry_new_sphere SC_1000_EPS debug J_local R2 R1 R0 in
  exists (Jm : mat3) (d : R),
    J g which_tree abc J_in = Some (Jm, d) /\
    jacobian_at (X g which_tree) abc Jm /\
    D g which_tree abc = Some (det3 Jm) /\
    0 < det3 Jm.
Proof.
  intros g.
  assert (HJ : exists (Jm : mat3) (d : R),
             J g which_tree abc J_in = Some (Jm, d) /\
             jacobian_at (X g which_tree) abc Jm).
  { subst g. unfold sphere_domain in Hdom.
    destruct (Z_lt_ge_dec which_tree 6) as [H6 | H6].
    - replace (which_tree <? 12)%Z with true in Hdom by (symmetry; apply Z.ltb_lt; lia).
      apply sphere_outer_jacobian; try assumption; lia.
    - destruct (Z_lt_ge_dec which_tree 12) as [H12 | H12].
      + replace (which_tree <? 12)%Z with true in Hdom by (symmetry; apply Z.ltb_lt; lia).
        apply sphere_inner_jacobian; try assumption; lia.
      + replace (which_tree <? 12)%Z with false in Hdom by (symmetry; apply Z.ltb_ge; lia).
        assert (which_tree = 12%Z) as -> by lia.
        apply sphere_center_jacobian; assumption. }
  destruct HJ as (Jm & d & HJ & Hjac).
  destruct (sphere_D_J_pos SC_1000_EPS debug J_local R2 R1 R0 which_tree abc J_in
              eps_pos HR0 HR01 HR12 Htree Hdom) as (Jm' & d' & HD & HJ' & Hdet & Hpos).
  fold g in HD, HJ'. rewrite HJ in HJ'. injection HJ' as <- <-.
  exists Jm, d. subst d. repeat split; assumption.
Qed.

(** ** The shell forward map is one-to-one on a patch *)

Lemma shell_X_switch_components (patch : Z) (q x y q' x' y' : R) :
  (0 <= patch < 6)%Z ->
  shell_X_switch patch q x y = shell_X_switch patch q' x' y' ->
  q = q' /\ q * x = q' * x' /\ q * y = q' * y'.
Proof.
  intros H.
  assert (E : patch = 0%Z \/ patch = 1%Z \/ patch = 2%Z \/ patch = 3%Z \/
              patch = 4%Z \/ patch = 5%Z) by lia.
  destruct E as [-> | [-> | [-> | [-> | [-> | ->]]]]];
    unfold shell_X_switch; cbn [Z.eqb Pos.eqb];
    intros HX; injection HX as H0 H1 H2; repeat split; lra.
Qed.

Lemma tan_quarter_inj (a a' : R) :
  -1 <= a <= 1 -> -1 <= a' <= 1 ->
  tan (a * Cmath.M_PI_4) = tan (a' * Cmath.M_PI_4) -> a = a'.
Proof.
  intros Ha Ha' E.
  destruct (quarter_turn_range a Ha) as [Hl Hu].
  destruct (quarter_turn_range a' Ha') as [Hl' Hu'].
  assert (Hk : 0 < Cmath.M_PI_4) by (unfold Cmath.M_PI_4; pose proof PI_RGT_0; lra).
  destruct (Rtotal_order a a') as [Hlt | [Heq | Hgt]]; [|exact Heq|].
  - assert (H : tan (a * Cmath.M_PI_4) < tan (a' * Cmath.M_PI_4)).
    { apply tan_increasing; [lra | nra | lra]. }
    lra.
  - assert (H : tan (a' * Cmath.M_PI_4) < tan (a * Cmath.M_PI_4)).
    { apply tan_increasing; [lra | nra | lra]. }
    lra.
Qed.

Lemma Rpower_exponent_inj (B c c' : R) :
  0 < B -> B <> 1 -> Rpower B c = Rpower B c' -> c = c'.
Proof.
  intros HB HB1 E. unfold Rpower in E. apply exp_inv in E.
  pose proof (ln_neq_0 B HB1 HB) as Hl.
  apply (Rmult_eq_reg_r (ln B)); assumption.
Qed.

(** On each tree the shell forward map (0 < R1 < R2) is one-to-one on the
    reference domain: two points of the domain with the same image are the
    same point. *)
Theorem shell_X_injective
    (SC_1000_EPS : R) (debug : bool) (J_local : mat3)
    (R2 R1 : R) (which_tree : Z) (abc abc' : vec3)
    (eps_pos : 0 < SC_1000_EPS)
    (HR1 : 0 < R1) (HR12 : R1 < R2)
    (Htree : (0 <= which_tree < 24)%Z)
    (Hdom : shell_domain abc) (Hdom' : shell_domain abc')
    (HX : X (p8est_geometry_new_shell SC_1000_EPS debug J_local R2 R1) which_tree abc
          = X (p8est_geometry_new_shell SC_1000_EPS debug J_local R2 R1) which_tree abc') :
  abc = abc'.
Proof.
  cbn [X p8est_geometry_new_shell] in HX.
  rewrite !shell_X_on_domain in HX by assumption. cbv zeta in HX.
  apply shell_X_switch_components in HX.
  2:{ pose proof (shell_patch_cases which_tree Htree) as Hp. cbv zeta in Hp. lia. }
  destruct abc as [a b c]. destruct abc' as [a' b' c'].
  destruct Hdom as (Ha & Hb & Hc). destruct Hdom' as (Ha' & Hb' & Hc').
  cbn [v0 v1 v2] in *.
  set (x := tan (a * Cmath.M_PI_4)) in *. set (y := tan (b * Cmath.M_PI_4)) in *.
  set (x' := tan (a' * Cmath.M_PI_4)) in *. set (y' := tan (b' * Cmath.M_PI_4)) in *.
  assert (HB : 0 < R2 / R1) by (apply Rdiv_lt_0_compat; lra).
  assert (HB1 : R2 / R1 <> 1).
  { intros E. apply (f_equal (fun z => z * R1)) in E. unfold Rdiv in E.
    rewrite Rmult_assoc, Rinv_l in E by lra. lra. }
  rewrite !pow_pos_base in HX by exact HB.
  set (K := R1 * R1 / R2) in *.
  assert (HK : 0 < K) by (unfold K; apply Rdiv_lt_0_compat; nra).
  set (P := Rpower (R2 / R1) c) in *. set (P' := Rpower (R2 / R1) c') in *.
  assert (HP : 0 < P) by (unfold P, Rpower; apply exp_pos).
  assert (HP' : 0 < P') by (unfold P', Rpower; apply exp_pos).
  pose proof (sqrt_lt_R0 _ (sum_squares_pos x y)) as Hs.
  pose proof (sqrt_lt_R0 _ (sum_squares_pos x' y')) as Hs'.
  set (q := K * P / sqrt (x * x + y * y + 1)) in *.
  set (q' := K * P' / sqrt (x' * x' + y' * y' + 1)) in *.
  assert (Hq : 0 < q).
  { unfold q. apply Rdiv_lt_0_compat; [apply Rmult_lt_0_compat|]; assumption. }
  destruct HX as (Eq & Ex & Ey).
  rewrite <- Eq in Ex, Ey.
  assert (Exx : x = x') by (apply (Rmult_eq_reg_l q); lra).
  assert (Eyy : y = y') by (apply (Rmult_eq_reg_l q); lra).
  assert (Ea : a = a') by (apply tan_quarter_inj; assumption).
  assert (Eb : b = b') by (apply tan_quarter_inj; assumption).
  assert (EP : P = P').
  { unfold q, q' in Eq. rewrite <- Exx, <- Eyy in Eq.
    apply (Rmult_eq_reg_l (K / sqrt (x * x + y * y + 1))).
    - unfold Rdiv in *. lra.
    - apply Rgt_not_eq. apply Rdiv_lt_0_compat; assumption. }
  assert (Ec : c = c') by (apply (Rpower_exponent_inj (R2 / R1)); assumption).
  subst. reflexivity.
Qed.

(** ** The determinant of the shell in closed form *)

(** The 3x3 determinant that p8est_geometry_shell_D evaluates is 1 whatever
    the point, so for 0 < R1 < R2 on the reference domain D returns
    q^3 * derx * dery * log (R2/R1), with q the radius
    (R1^2/R2) * (R2/R1)^abc[2] divided by sqrt (x^2 + y^2 + 1),
    x = tan (abc[0] * pi/4), y = tan (abc[1] * pi/4), and
    derx = (pi/4) / cos^2 (abc[0] * pi/4), dery likewise; it does not
    depend on the tree. *)
Theorem shell_D_closed_form
    (SC_1000_EPS : R) (debug : bool) (J_local : mat3)
    (R2 R1 : R) (which_tree : Z) (abc : vec3)
    (eps_pos : 0 < SC_1000_EPS)
    (HR1 : 0 < R1) (HR12 : R1 < R2)
    (Htree : (0 <= which_tree < 24)%Z)
    (Hdom : shell_domain abc) :
  let x := tan (v0 abc * (PI / 4)) in
  let y := tan (v1 abc * (PI / 4)) in
  let derx := (PI / 4) / (cos (v0 abc * (PI / 4))) ^ 2 in
  let dery := (PI / 4) / (cos (v1 abc * (PI / 4))) ^ 2 in
  let q := shell_radius R2 R1 (v2 abc) / sqrt (x * x + y * y + 1) in
  D (p8est_geometry_new_shell SC_1000_EPS debug J_local R2 R1) which_tree abc
  = Some (q ^ 3 * derx * dery * ln (R2 / R1)).
Proof.
  intros x y derx dery q.
  pose proof (shell_factor_pos R2 R1 abc HR1 HR12 Hdom) as Hpos. cbv zeta in Hpos.
  shell_unfold. pass_asserts eps_pos Htree Hdom.
  fold (normalized_J (tan (v0 abc * Cmath.M_PI_4)) (tan (v1 abc * Cmath.M_PI_4))
          (1 / (tan (v0 abc * Cmath.M_PI_4) * tan (v0 abc * Cmath.M_PI_4)
                + tan (v1 abc * Cmath.M_PI_4) * tan (v1 abc * Cmath.M_PI_4) + 1))).
  rewrite normalized_J_det.
  rewrite Rltb_true by exact Hpos. rewrite P4EST_ASSERT_true.
  f_equal. subst x y derx dery q. unfold Cmath.M_PI_4, Cmath.log, shell_radius.
  rewrite pow_pos_base by (apply Rdiv_lt_0_compat; lra).
  pose proof (sum_squares_pos (tan (v0 abc * (PI / 4))) (tan (v1 abc * (PI / 4)))) as Hs.
  rewrite (sqrt_recip _ Hs).
  destruct Hdom as (Ka & Kb & _).
  pose proof (cos_quarter_pos _ Ka) as Hcx. pose proof (cos_quarter_pos _ Kb) as Hcy.
  unfold Cmath.M_PI_4 in Hcx, Hcy.
  pose proof (sqrt_lt_R0 _ Hs) as Hss.
  field. repeat split; lra.
Qed.

(** ** The identity geometry and the default inverse transpose *)

(** The identity geometry installs its J as Jit; the default
    p8est_geometry_Jit, run on the identity J, computes the same result
    (the identity matrix and 1), so the shortcut changes nothing. *)
Theorem identity_Jit_is_default
    (J_local : mat3) (which_tree : Z) (abc : vec3) (Jit_in : mat3) :
  p8est_geometry_Jit J_local (J p8est_geometry_new_identity) which_tree abc Jit_in
  = Jit p8est_geometry_new_identity which_tree abc Jit_in.
Proof.
  cbn [J Jit p8est_geometry_new_identity].
  unfold p8est_geometry_Jit, p8est_geometry_identity_J. cbn [fst snd]. mat_simpl.
  f_equal. f_equal. f_equal; f_equal; field.
Qed.

(** ** Guards of the sphere forward map *)

Lemma sphere_X_switch_returns (dir : Z) (q x y : R) :
  (exists xyz, sphere_X_switch dir q x y = Some xyz) <-> (0 <= dir < 6)%Z.
Proof.
  split.
  - intros [xyz H]. unfold sphere_X_switch in H.
    destruct (dir =? 0)%Z eqn:E0; [apply Z.eqb_eq in E0; lia|].
    destruct (dir =? 1)%Z eqn:E1; [apply Z.eqb_eq in E1; lia|].
    destruct (dir =? 2)%Z eqn:E2; [apply Z.eqb_eq in E2; lia|].
    destruct (dir =? 3)%Z eqn:E3; [apply Z.eqb_eq in E3; lia|].
    destruct (dir =? 4)%Z eqn:E4; [apply Z.eqb_eq in E4; lia|].
    destruct (dir =? 5)%Z eqn:E5; [apply Z.eqb_eq in E5; lia|].
    discriminate H.
  - apply sphere_X_switch_total.
Qed.

Lemma rem6_dir_range (t : Z) : (0 <= Z.rem t 6 < 6)%Z <-> (0 <= t)%Z \/ Z.rem t 6 = 0%Z.
Proof.
  split.
  - intros H. destruct (Z_le_gt_dec 0 t) as [Hpos | Hneg]; [left; exact Hpos|].
    right. pose proof (Z.rem_bound_pos_neg t 6 ltac:(lia) ltac:(lia)). lia.
  - intros [H | H]; [apply rem6_range; exact H | lia].
Qed.

(** The forward map of the sphere returns a point exactly on the inputs
    its guards let through.  A debug build accepts the trees of [0, 13)
    and the points within SC_1000_EPS of the reference domain of the tree.
    A build without assertions keeps only the branch on the tree index:
    every which_tree >= 12 is mapped as the center cube, and a negative
    which_tree is mapped as an outer-shell patch when it is a multiple of 6
    and stops in the patch switch otherwise. *)
Theorem sphere_X_returns_iff
    (SC_1000_EPS : R) (J_local : mat3) (R2 R1 R0 : R) (which_tree : Z) (abc : vec3) :
  ((exists xyz, X (p8est_geometry_new_sphere SC_1000_EPS true J_local R2 R1 R0)
                  which_tree abc = Some xyz)
   <-> (0 <= which_tree < 13)%Z /\ sphere_asserted SC_1000_EPS which_tree abc) /\
  ((exists xyz, X (p8est_geometry_new_sphere SC_1000_EPS false J_local R2 R1 R0)
                  which_tree abc = Some xyz)
   <-> (0 <= which_tree)%Z \/ Z.rem which_tree 6 = 0%Z) /\
  ((12 <= which_tree)%Z ->
   X (p8est_geometry_new_sphere SC_1000_EPS false J_local R2 R1 R0) which_tree abc
   = Some (V3 (v0 abc * (R0 / sqrt 3)) (v1 abc * (R0 / sqrt 3)) (v2 abc * (R0 / sqrt 3)))).
Proof.
  split; [|split].
  - sphere_unfold. rewrite builtin_type_eqb_refl. cbn [P4EST_ASSERT].
    pose proof (assert_tree_range_debug which_tree 13) as Ht.
    pose proof (assert_angular_debug SC_1000_EPS (v0 abc)) as Ha.
    pose proof (assert_angular_debug SC_1000_EPS (v1 abc)) as Hb.
    pose proof (assert_radial_debug SC_1000_EPS (v2 abc)) as Hc.
    pose proof (assert_angular_debug SC_1000_EPS (v2 abc)) as Hc'.
    unfold sphere_asserted, shell_asserted, cube_asserted, assert_sphere_radial.
    destruct (some_tt_or_none (assert_tree_range true which_tree 13)) as [Et | Et];
      rewrite Et in *.
    2:{ split; [intros [? H]; discriminate H|].
        intros (H & _). apply Ht in H. discriminate H. }
    assert (Htr : (0 <= which_tree < 13)%Z) by (apply Ht; reflexivity).
    destruct (some_tt_or_none (assert_angular SC_1000_EPS true (v0 abc))) as [Ea | Ea];
      rewrite Ea in *.
    2:{ split; [intros [? H]; discriminate H|].
        intros (_ & H). destruct (which_tree <? 12)%Z;
          destruct H as (H & _); apply Ha in H; discriminate H. }
    destruct (some_tt_or_none (assert_angular SC_1000_EPS true (v1 abc))) as [Eb | Eb];
      rewrite Eb in *.
    2:{ split; [intros [? H]; discriminate H|].
        intros (_ & H). destruct (which_tree <? 12)%Z;
          destruct H as (_ & H & _); apply Hb in H; discriminate H. }
    destruct (which_tree <? 12)%Z eqn:E12.
    + apply Z.ltb_lt in E12.
      destruct (some_tt_or_none (assert_radial SC_1000_EPS true (v2 abc))) as [Ec | Ec];
        rewrite Ec in *.
      2:{ split; [intros [? H]; discriminate H|].
          intros (_ & _ & _ & H). apply Hc in H. discriminate H. }
      assert (Hall : (0 <= which_tree < 13)%Z /\
                     (-1 - SC_1000_EPS < v0 abc < 1 + SC_1000_EPS) /\
                     (-1 - SC_1000_EPS < v1 abc < 1 + SC_1000_EPS) /\
                     (1 - SC_1000_EPS < v2 abc < 2 + SC_1000_EPS)).
      { split; [exact Htr|]. split; [apply Ha; reflexivity|].
        split; [apply Hb; reflexivity | apply Hc; reflexivity]. }
      split; [intros _; exact Hall | intros _].
      destruct (which_tree <? 6)%Z;
        apply sphere_X_switch_total; apply rem6_range; lia.
    + apply Z.ltb_ge in E12.
      destruct (some_tt_or_none (assert_angular SC_1000_EPS true (v2 abc))) as [Ec | Ec];
        rewrite Ec in *.
      2:{ split; [intros [? H]; discriminate H|].
          intros (_ & _ & _ & H). apply Hc' in H. discriminate H. }
      replace (which_tree <? 6)%Z with false by (symmetry; apply Z.ltb_ge; lia).
      split; [intros _ | intros _; eexists; reflexivity].
      split; [exact Htr|]. split; [apply Ha; reflexivity|].
      split; [apply Hb; reflexivity | apply Hc'; reflexivity].
  - sphere_unfold.
    unfold assert_tree_range, assert_sphere_radial, assert_angular, assert_radial.
    rewrite !P4EST_ASSERT_release.
    assert (Hsome : (if (which_tree <? 12)%Z then Some tt else Some tt) = Some tt)
      by (destruct (which_tree <? 12)%Z; reflexivity).
    rewrite Hsome.
    rewrite <- rem6_dir_range.
    destruct (which_tree <? 6)%Z eqn:E6.
    + apply sphere_X_switch_returns.
    + apply Z.ltb_ge in E6.
      destruct (which_tree <? 12)%Z eqn:E12.
      * apply sphere_X_switch_returns.
      * split; [intros _; apply rem6_range; lia | intros _; eexists; reflexivity].
  - intros H12. sphere_unfold.
    unfold assert_tree_range, assert_sphere_radial, assert_angular, assert_radial.
    rewrite !P4EST_ASSERT_release.
    replace (which_tree <? 12)%Z with false by (symmetry; apply Z.ltb_ge; lia).
    replace (which_tree <? 6)%Z with false by (symmetry; apply Z.ltb_ge; lia).
    reflexivity.
Qed.

(** ** How the six shell patches fit together *)

Lemma tan_quarter_one : tan (1 * Cmath.M_PI_4) = 1.
Proof. unfold Cmath.M_PI_4. rewrite Rmult_1_l. apply tan_PI4. Qed.

Lemma tan_quarter_minus_one : tan (-1 * Cmath.M_PI_4) = -1.
Proof.
  replace (-1 * Cmath.M_PI_4) with (- (1 * Cmath.M_PI_4)) by ring.
  rewrite tan_neg, tan_quarter_one. reflexivity.
Qed.

Ltac patch_edge eps_pos :=
  rewrite !shell_X_on_domain
    by (try exact eps_pos; try lia; unfold shell_domain; cbn [v0 v1 v2]; lra);
  cbv zeta; cbn [v0 v1 v2];
  repeat match goal with
    | |- context [Z.quot ?t 4] =>
        let k := eval vm_compute in (Z.quot t 4) in change (Z.quot t 4) with k
    end;
  rewrite ?tan_quarter_one, ?tan_quarter_minus_one, ?tan_quarter_neg;
  unfold shell_X_switch; cbn [Z.eqb Pos.eqb];
  f_equal;
  match goal with
  | |- V3 ?u1 ?u2 ?u3 = V3 ?w1 ?w2 ?w3 =>
      match u1 with
      | context [sqrt ?s1] =>
          match w1 with
          | context [sqrt ?s2] => replace s2 with s1 by ring
          end
      end
  end;
  f_equal; ring.

(** The six patch maps of the shell agree along the twelve edges where the
    patches meet, at every radial coordinate (trees 0, 4, 8, 12, 16, 20
    stand for the patches right, bottom, left, top, back, front): right,
    bottom, left and top form a ring joined along abc[1] = 1 and
    abc[1] = -1, and front and back close it along the remaining eight
    edges. *)
Theorem shell_patches_meet
    (SC_1000_EPS : R) (debug : bool) (J_local : mat3) (R2 R1 : R) (s c : R)
    (eps_pos : 0 < SC_1000_EPS)
    (Hs : -1 <= s <= 1) (Hc : 1 <= c <= 2) :
  let g := p8est_geometry_new_shell SC_1000_EPS debug J_local R2 R1 in
  (X g 0 (V3 s 1 c) = X g 4 (V3 s (-1) c) /\
   X g 4 (V3 s 1 c) = X g 8 (V3 s (-1) c) /\
   X g 8 (V3 s 1 c) = X g 12 (V3 s (-1) c) /\
   X g 12 (V3 s 1 c) = X g 0 (V3 s (-1) c)) /\
  (X g 20 (V3 1 s c) = X g 0 (V3 1 (- s) c) /\
   X g 20 (V3 (-1) s c) = X g 8 (V3 1 s c) /\
   X g 20 (V3 s 1 c) = X g 12 (V3 1 s c) /\
   X g 20 (V3 s (-1) c) = X g 4 (V3 1 (- s) c)) /\
  (X g 16 (V3 1 s c) = X g 8 (V3 (-1) s c) /\
   X g 16 (V3 (-1) s c) = X g 0 (V3 (-1) (- s) c) /\
   X g 16 (V3 s 1 c) = X g 12 (V3 (-1) (- s) c) /\
   X g 16 (V3 s (-1) c) = X g 4 (V3 (-1) s c)) /\
  (exists xyz, X g 0 (V3 s 1 c) = Some xyz).
Proof.
  intros g. subst g. cbn [X p8est_geometry_new_shell].
  assert (Hns : -1 <= - s <= 1) by lra.
  split; [|split; [|split]].
  - split; [|split; [|split]]; patch_edge eps_pos.
  - split; [|split; [|split]]; patch_edge eps_pos.
  - split; [|split; [|split]]; patch_edge eps_pos.
  - rewrite shell_X_on_domain
      by (try exact eps_pos; try lia; unfold shell_domain; cbn [v0 v1 v2]; lra).
    cbv zeta. change (Z.quot 0 4) with 0%Z. unfold shell_X_switch. cbn [Z.eqb Pos.eqb].
    eexists. reflexivity.
Qed.

(** ** Each shell patch stays in its own sector *)

(** The image of a shell patch lies in the cone over one face of the cube:
    the coordinate along the axis of the patch has the sign of the patch
    and is the largest in absolute value (right +x, bottom -z, left -x,
    top +z, back +y, front -y).  Two different patches can therefore only
    share points where two coordinates tie, on the edges of the patches. *)
Theorem shell_patch_sector
    (SC_1000_EPS : R) (debug : bool) (J_local : mat3)
    (R2 R1 : R) (which_tree : Z) (abc : vec3)
    (eps_pos : 0 < SC_1000_EPS)
    (HR1 : 0 < R1) (HR2 : 0 < R2)
    (Htree : (0 <= which_tree < 24)%Z)
    (Hdom : shell_domain abc) :
  exists (xyz : vec3) (m : R),
    X (p8est_geometry_new_shell SC_1000_EPS debug J_local R2 R1) which_tree abc
      = Some xyz /\
    0 < m /\
    Rabs (v0 xyz) <= m /\ Rabs (v1 xyz) <= m /\ Rabs (v2 xyz) <= m /\
    (Z.quot which_tree 4 = 0%Z -> v0 xyz = m) /\
    (Z.quot which_tree 4 = 1%Z -> v2 xyz = - m) /\
    (Z.quot which_tree 4 = 2%Z -> v0 xyz = - m) /\
    (Z.quot which_tree 4 = 3%Z -> v2 xyz = m) /\
    (Z.quot which_tree 4 = 4%Z -> v1 xyz = m) /\
    (Z.quot which_tree 4 = 5%Z -> v1 xyz = - m).
Proof.
  cbn [X p8est_geometry_new_shell].
  rewrite shell_X_on_domain by assumption. cbv zeta.
  destruct Hdom as (Ka & Kb & Kc).
  pose proof (tan_quarter_bound _ Ka) as Hx. pose proof (tan_quarter_bound _ Kb) as Hy.
  set (x := tan (v0 abc * Cmath.M_PI_4)) in *.
  set (y := tan (v1 abc * Cmath.M_PI_4)) in *.
  set (q := R1 * R1 / R2 * Cmath.pow (R2 / R1) (v2 abc) / sqrt (x * x + y * y + 1)).
  assert (Hq : 0 < q).
  { unfold q. rewrite pow_pos_base by (apply Rdiv_lt_0_compat; assumption).
    apply Rdiv_lt_0_compat; [|apply sqrt_lt_R0; apply sum_squares_pos].
    apply Rmult_lt_0_compat; [apply Rdiv_lt_0_compat; [nra | assumption]|].
    unfold Rpower. apply exp_pos. }
  pose proof (shell_patch_cases which_tree Htree) as Hp. cbv zeta in Hp.
  destruct Hp as [E | [E | [E | [E | [E | E]]]]]; rewrite E;
    unfold shell_X_switch; cbn [Z.eqb Pos.eqb];
    (eexists; exists q; split; [reflexivity|]); cbn [v0 v1 v2];
    (split; [exact Hq|]);
    (split; [apply Rabs_le; split; nra|]);
    (split; [apply Rabs_le; split; nra|]);
    (split; [apply Rabs_le; split; nra|]);
    repeat split; intros; try reflexivity; try lia.
Qed.

(** ** Further instances at concrete inputs *)

Lemma shell_J_is_jacobian_witness :
  let g := p8est_geometry_new_shell (1 / 1000) true mat_identity 2 1 in
  let abc := V3 (1 / 2) (-1) 2 in
  (0 < 1 / 1000 /\ 0 < 1 /\ 1 < 2 /\ (0 <= 5 < 24)%Z /\ shell_domain abc) /\
  exists (Jm : mat3) (d : R),
    J g 5 abc mat_identity = Some (Jm, d) /\
    jacobian_at (X g 5) abc Jm /\
    D g 5 abc = Some (det3 Jm) /\
    0 < det3 Jm.
Proof.
  intros g abc.
  assert (H0 : 0 < 1 / 1000) by lra.
  assert (H1 : 0 < 1) by lra.
  assert (H2 : 1 < 2) by lra.
  assert (H3 : (0 <= 5 < 24)%Z) by lia.
  assert (H4 : shell_domain abc) by (unfold abc; in_domain).
  split; [exact (conj H0 (conj H1 (conj H2 (conj H3 H4))))|].
  exact (shell_J_is_jacobian (1 / 1000) true mat_identity 2 1 5 abc mat_identity
           H0 H1 H2 H3 H4).
Defined.

Lemma sphere_J_is_jacobian_witness :
  let g := p8est_geometry_new_sphere (1 / 1000) true mat_identity 2 1 (1 / 2) in
  let abc := V3 (1 / 2) (-1) (3 / 2) in
  (0 < 1 / 1000 /\ 0 < 1 / 2 /\ 1 / 2 < 1 /\ 1 < 2 /\ (0 <= 9 < 13)%Z /\
   sphere_domain 9 abc) /\
  exists (Jm : mat3) (d : R),
    J g 9 abc mat_identity = Some (Jm, d) /\
    jacobian_at (X g 9) abc Jm /\
    D g 9 abc = Some (det3 Jm) /\
    0 < det3 Jm.
Proof.
  intros g abc.
  assert (H0 : 0 < 1 / 1000) by lra.
  assert (H1 : 0 < 1 / 2) by lra.
  assert (H2 : 1 / 2 < 1) by lra.
  assert (H3 : 1 < 2) by lra.
  assert (H4 : (0 <= 9 < 13)%Z) by lia.
  assert (H5 : sphere_domain 9 abc).
  { unfold sphere_domain. change (9 <? 12)%Z with true. cbv iota. unfold abc. in_domain. }
  split; [exact (conj H0 (conj H1 (conj H2 (conj H3 (conj H4 H5)))))|].
  exact (sphere_J_is_jacobian (1 / 1000) true mat_identity 2 1 (1 / 2) 9 abc mat_identity
           H0 H1 H2 H3 H4 H5).
Defined.

Lemma sphere_detJ_positive_witness :
  let g := p8est_geometry_new_sphere (1 / 1000) true mat_identity 2 1 (1 / 2) in
  let abc := V3 (1 / 2) (-1) (3 / 2) in
  (0 < 1 / 1000 /\ 0 < 1 / 2 /\ 1 / 2 < 1 /\ 1 < 2 /\ (0 <= 9 < 13)%Z /\
   sphere_domain 9 abc) /\
  exists (Jm : mat3) (d : R),
    D g 9 abc = Some d /\
    J g 9 abc mat_identity = Some (Jm, d) /\
    d = det3 Jm /\ 0 < d.
Proof.
  intros g abc.
  assert (H0 : 0 < 1 / 1000) by lra.
  assert (H1 : 0 < 1 / 2) by lra.
  assert (H2 : 1 / 2 < 1) by lra.
  assert (H3 : 1 < 2) by lra.
  assert (H4 : (0 <= 9 < 13)%Z) by lia.
  assert (H5 : sphere_domain 9 abc).
  { unfold sphere_domain. change (9 <? 12)%Z with true. cbv iota. unfold abc. in_domain. }
  split; [exact (conj H0 (conj H1 (conj H2 (conj H3 (conj H4 H5)))))|].
  exact (sphere_detJ_positive (1 / 1000) true mat_identity 2 1 (1 / 2) 9 abc mat_identity
           H0 H1 H2 H3 H4 H5).
Defined.

Lemma shell_Jit_inverts_J_witness :
  let g := p8est_geometry_new_shell (1 / 1000) true mat_identity 2 1 in
  let abc := V3 (1 / 2) (-1) 2 in
  (0 < 1 / 1000 /\ 0 < 1 /\ 1 < 2 /\ (0 <= 5 < 24)%Z /\ shell_domain abc) /\
  exists (Jm Ji : mat3) (d : R),
    J g 5 abc mat_identity = Some (Jm, d) /\
    Jit g 5 abc mat_identity = Some (Ji, d) /\
    0 < d /\
    mat_mul (mat_transpose Ji) Jm = mat_identity /\
    det3 Ji = / d.
Proof.
  intros g abc.
  assert (H0 : 0 < 1 / 1000) by lra.
  assert (H1 : 0 < 1) by lra.
  assert (H2 : 1 < 2) by lra.
  assert (H3 : (0 <= 5 < 24)%Z) by lia.
  assert (H4 : shell_domain abc) by (unfold abc; in_domain).
  split; [exact (conj H0 (conj H1 (conj H2 (conj H3 H4))))|].
  exact (shell_Jit_inverts_J (1 / 1000) true mat_identity 2 1 5 abc mat_identity
           mat_identity H0 H1 H2 H3 H4).
Defined.

Lemma sphere_Jit_inverts_J_witness :
  let g := p8est_geometry_new_sphere (1 / 1000) true mat_identity 2 1 (1 / 2) in
  let abc := V3 (1 / 2) (-1) (3 / 2) in
  (0 < 1 / 1000 /\ 0 < 1 / 2 /\ 1 / 2 < 1 /\ 1 < 2 /\ (0 <= 9 < 13)%Z /\
   sphere_domain 9 abc) /\
  exists (Jm Ji : mat3) (d : R),
    J g 9 abc mat_identity = Some (Jm, d) /\
    Jit g 9 abc mat_identity = Some (Ji, d) /\
    0 < d /\
    mat_mul (mat_transpose Ji) Jm = mat_identity /\
    det3 Ji = / d.
Proof.
  intros g abc.
  assert (H0 : 0 < 1 / 1000) by lra.
  assert (H1 : 0 < 1 / 2) by lra.
  assert (H2 : 1 / 2 < 1) by lra.
  assert (H3 : 1 < 2) by lra.
  assert (H4 : (0 <= 9 < 13)%Z) by lia.
  assert (H5 : sphere_domain 9 abc).
  { unfold sphere_domain. change (9 <? 12)%Z with true. cbv iota. unfold abc. in_domain. }
  split; [exact (conj H0 (conj H1 (conj H2 (conj H3 (conj H4 H5)))))|].
  exact (sphere_Jit_inverts_J (1 / 1000) true mat_identity 2 1 (1 / 2) 9 abc mat_identity
           mat_identity H0 H1 H2 H3 H4 H5).
Defined.

Lemma Jit_determinant_witness :
  let Jm := mat_of 2 0 0 0 1 0 0 0 1 in
  let geom_J := fun (_ : Z) (_ : vec3) (_ : mat3) => Some (Jm, 2) in
  (geom_J 0%Z (V3 0 0 0) mat_identity = Some (Jm, 2) /\ 2 = det3 Jm /\ 2 <> 0) /\
  exists Jit_out : mat3,
    p8est_geometry_Jit mat_identity geom_J 0 (V3 0 0 0) mat_identity = Some (Jit_out, 2) /\
    det3 Jit_out = / 2 /\
    det3 Jit_out * 2 = 1.
Proof.
  intros Jm geom_J.
  assert (H0 : geom_J 0%Z (V3 0 0 0) mat_identity = Some (Jm, 2)) by reflexivity.
  assert (H1 : 2 = det3 Jm) by (unfold det3, Jm; mat_simpl; ring).
  assert (H2 : 2 <> 0) by lra.
  split; [exact (conj H0 (conj H1 H2))|].
  exact (Jit_determinant mat_identity geom_J 0 (V3 0 0 0) mat_identity Jm 2 H0 H1 H2).
Defined.

Lemma sphere_J_overwrites_witness :
  let g := p8est_geometry_new_sphere (1 / 1000) false mat_identity 2 1 (1 / 2) in
  (0 <= 7 < 13)%Z /\
  J g 7 (V3 0 0 1) mat_identity = J g 7 (V3 0 0 1) (mat_of 5 5 5 5 5 5 5 5 5).
Proof.
  intros g.
  assert (H0 : (0 <= 7 < 13)%Z) by lia.
  split; [exact H0|].
  exact (sphere_J_overwrites (1 / 1000) false mat_identity 2 1 (1 / 2) 7 (V3 0 0 1)
           mat_identity (mat_of 5 5 5 5 5 5 5 5 5) H0).
Defined.

Lemma shell_X_injective_witness :
  let g := p8est_geometry_new_shell (1 / 1000) true mat_identity 2 1 in
  let abc := V3 (1 / 2) (-1) 2 in
  (0 < 1 / 1000 /\ 0 < 1 /\ 1 < 2 /\ (0 <= 5 < 24)%Z /\ shell_domain abc /\
   X g 5 abc = X g 5 abc) /\
  abc = abc.
Proof.
  intros g abc.
  assert (H0 : 0 < 1 / 1000) by lra.
  assert (H1 : 0 < 1) by lra.
  assert (H2 : 1 < 2) by lra.
  assert (H3 : (0 <= 5 < 24)%Z) by lia.
  assert (H4 : shell_domain abc) by (unfold abc; in_domain).
  assert (H5 : X g 5 abc = X g 5 abc) by reflexivity.
  split; [exact (conj H0 (conj H1 (conj H2 (conj H3 (conj H4 H5)))))|].
  exact (shell_X_injective (1 / 1000) true mat_identity 2 1 5 abc abc
           H0 H1 H2 H3 H4 H4 H5).
Defined.

Lemma shell_patches_meet_witness :
  let g := p8est_geometry_new_shell (1 / 1000) true mat_identity 2 1 in
  (0 < 1 / 1000 /\ -1 <= 1 / 2 <= 1 /\ 1 <= 3 / 2 <= 2) /\
  X g 0 (V3 (1 / 2) 1 (3 / 2)) = X g 4 (V3 (1 / 2) (-1) (3 / 2)) /\
  X g 20 (V3 1 (1 / 2) (3 / 2)) = X g 0 (V3 1 (- (1 / 2)) (3 / 2)) /\
  (exists xyz, X g 0 (V3 (1 / 2) 1 (3 / 2)) = Some xyz).
Proof.
  intros g.
  assert (H0 : 0 < 1 / 1000) by lra.
  assert (H1 : -1 <= 1 / 2 <= 1) by lra.
  assert (H2 : 1 <= 3 / 2 <= 2) by lra.
  split; [exact (conj H0 (conj H1 H2))|].
  destruct (shell_patches_meet (1 / 1000) true mat_identity 2 1 (1 / 2) (3 / 2) H0 H1 H2)
    as ((Hring & _) & (Hfront & _) & _ & Hret).
  exact (conj Hring (conj Hfront Hret)).
Defined.

Lemma shell_patch_sector_witness :
  let abc := V3 (1 / 2) (-1) 2 in
  (0 < 1 / 1000 /\ 0 < 1 /\ 0 < 2 /\ (0 <= 5 < 24)%Z /\ shell_domain abc) /\
  exists (xyz : vec3) (m : R),
    X (p8est_geometry_new_shell (1 / 1000) true mat_identity 2 1) 5 abc = Some xyz /\
    0 < m /\ Rabs (v1 xyz) <= m /\ Rabs (v2 xyz) <= m /\ v2 xyz = - m.
Proof.
  intros abc.
  assert (H0 : 0 < 1 / 1000) by lra.
  assert (H1 : 0 < 1) by lra.
  assert (H2 : 0 < 2) by lra.
  assert (H3 : (0 <= 5 < 24)%Z) by lia.
  assert (H4 : shell_domain abc) by (unfold abc; in_domain).
  split; [exact (conj H0 (conj H1 (conj H2 (conj H3 H4))))|].
  destruct (shell_patch_sector (1 / 1000) true mat_identity 2 1 5 abc H0 H1 H2 H3 H4)
    as (xyz & m & HX & Hm & _ & Hb1 & Hb2 & _ & Hbottom & _).
  exists xyz, m.
  exact (conj HX (conj Hm (conj Hb1 (conj Hb2 (Hbottom eq_refl))))).
Defined.

Lemma sphere_X_radii_witness :
  let abc := V3 (1 / 2) (-1) 2 in
  (0 < 1 / 1000 /\ 0 < 1 / 2 /\ 0 < 1 /\ 0 < 2 /\ (0 <= 3 < 13)%Z /\
   sphere_domain 3 abc) /\
  exists xyz : vec3,
    X (p8est_geometry_new_sphere (1 / 1000) true mat_identity 2 1 (1 / 2)) 3 abc
      = Some xyz /\
    norm3 xyz = 2.
Proof.
  intros abc.
  assert (H0 : 0 < 1 / 1000) by lra.
  assert (H1 : 0 < 1 / 2) by lra.
  assert (H2 : 0 < 1) by lra.
  assert (H3 : 0 < 2) by lra.
  assert (H4 : (0 <= 3 < 13)%Z) by lia.
  assert (H5 : sphere_domain 3 abc).
  { unfold sphere_domain. change (3 <? 12)%Z with true. cbv iota. unfold abc. in_domain. }
  split; [exact (conj H0 (conj H1 (conj H2 (conj H3 (conj H4 H5)))))|].
  destruct (sphere_X_radii (1 / 1000) true mat_identity 2 1 (1 / 2) 3 abc
              H0 H1 H2 H3 H4 H5) as (xyz & HX & _ & Houter & _).
  exists xyz. split; [exact HX|].
  apply Houter; [lia | reflexivity].
Defined.

Lemma sphere_outer_is_shell_witness :
  (0 < 1 / 1000 /\ -1 <= 1 / 2 <= 1 /\ -1 <= -1 <= 1 /\ 1 <= 3 / 2 <= 2) /\
  X (p8est_geometry_new_sphere (1 / 1000) true mat_identity 2 1 (1 / 2)) 1
    (V3 (1 / 2) (-1) (3 / 2))
  = X (p8est_geometry_new_shell (1 / 1000) true mat_identity 2 1) 12
      (V3 (- -1) (1 / 2) (3 / 2)).
Proof.
  assert (H0 : 0 < 1 / 1000) by lra.
  assert (H1 : -1 <= 1 / 2 <= 1) by lra.
  assert (H2 : -1 <= -1 <= 1) by lra.
  assert (H3 : 1 <= 3 / 2 <= 2) by lra.
  split; [exact (conj H0 (conj H1 (conj H2 H3)))|].
  exact (proj1 (proj2 (proj2
           (sphere_outer_is_shell (1 / 1000) true mat_identity 2 1 (1 / 2)
              (1 / 2) (-1) (3 / 2) H0 H1 H2 H3)))).
Defined.

Lemma shell_D_closed_form_witness :
  (0 < 1 / 1000 /\ 0 < 1 /\ 1 < 2 /\ (0 <= 5 < 24)%Z /\ shell_domain (V3 0 0 1)) /\
  D (p8est_geometry_new_shell (1 / 1000) true mat_identity 2 1) 5 (V3 0 0 1)
  = Some ((shell_radius 2 1 1 / sqrt (tan (0 * (PI / 4)) * tan (0 * (PI / 4))
                                      + tan (0 * (PI / 4)) * tan (0 * (PI / 4)) + 1)) ^ 3
          * ((PI / 4) / cos (0 * (PI / 4)) ^ 2)
          * ((PI / 4) / cos (0 * (PI / 4)) ^ 2)
          * ln (2 / 1)).
Proof.
  assert (H0 : 0 < 1 / 1000) by lra.
  assert (H1 : 0 < 1) by lra.
  assert (H2 : 1 < 2) by lra.
  assert (H3 : (0 <= 5 < 24)%Z) by lia.
  assert (H4 : shell_domain (V3 0 0 1)) by in_domain.
  split; [exact (conj H0 (conj H1 (conj H2 (conj H3 H4))))|].
  exact (shell_D_closed_form (1 / 1000) true mat_identity 2 1 5 (V3 0 0 1)
           H0 H1 H2 H3 H4).
Defined.

Lemma sphere_X_returns_iff_witness :
  (12 <= 15)%Z /\
  X (p8est_geometry_new_sphere (1 / 1000) false mat_identity 2 1 (1 / 2)) 15 (V3 1 1 1)
  = Some (V3 (1 * (1 / 2 / sqrt 3)) (1 * (1 / 2 / sqrt 3)) (1 * (1 / 2 / sqrt 3))).
Proof.
  assert (H0 : (12 <= 15)%Z) by lia.
  split; [exact H0|].
  exact (proj2 (proj2
           (sphere_X_returns_iff (1 / 1000) mat_identity 2 1 (1 / 2) 15 (V3 1 1 1))) H0).
Defined.

(** ** Radial structure and scaling of the shell *)

Lemma shell_X_switch_scale (patch : Z) (k q x y : R) :
  shell_X_switch patch (k * q) x y = option_map (vec_scale k) (shell_X_switch patch q x y).
Proof.
  unfold shell_X_switch.
  repeat match goal with
         | |- context [if ?b then _ else _] => destruct b
         end;
    cbn [option_map]; try reflexivity;
    unfold vec_scale; cbn [v0 v1 v2]; f_equal; f_equal; ring.
Qed.

(** Along the radial reference axis the shell forward map moves on rays
    from the origin, and equal steps of abc[2] multiply the distance by the
    same factor: for two points of the domain with the same abc[0] and
    abc[1], X at radial coordinate c is X at radial coordinate c' scaled by
    (R2/R1)^(c - c'). *)
Theorem shell_X_radial_ray
    (SC_1000_EPS : R) (debug : bool) (J_local : mat3)
    (R2 R1 : R) (which_tree : Z) (a b c c' : R)
    (eps_pos : 0 < SC_1000_EPS)
    (HR1 : 0 < R1) (HR2 : 0 < R2)
    (Htree : (0 <= which_tree < 24)%Z)
    (Ha : -1 <= a <= 1) (Hb : -1 <= b <= 1)
    (Hc : 1 <= c <= 2) (Hc' : 1 <= c' <= 2) :
  let g := p8est_geometry_new_shell SC_1000_EPS debug J_local R2 R1 in
  exists xyz' : vec3,
    X g which_tree (V3 a b c') = Some xyz' /\
    X g which_tree (V3 a b c) = Some (vec_scale (Rpower (R2 / R1) (c - c')) xyz').
Proof.
  intros g. subst g. cbn [X p8est_geometry_new_shell].
  rewrite !shell_X_on_domain
    by (try assumption; unfold shell_domain; cbn [v0 v1 v2]; lra).
  cbv zeta. cbn [v0 v1 v2].
  assert (HB : 0 < R2 / R1) by (apply Rdiv_lt_0_compat; assumption).
  rewrite !pow_pos_base by exact HB.
  set (x := tan (a * Cmath.M_PI_4)). set (y := tan (b * Cmath.M_PI_4)).
  destruct (proj2 (shell_X_switch_returns (Z.quot which_tree 4)
              (R1 * R1 / R2 * Rpower (R2 / R1) c' / sqrt (x * x + y * y + 1)) x y))
    as (xyz' & HX').
  { pose proof (shell_patch_cases which_tree Htree) as Hp. cbv zeta in Hp. lia. }
  exists xyz'. split; [exact HX'|].
  replace (R1 * R1 / R2 * Rpower (R2 / R1) c / sqrt (x * x + y * y + 1))
    with (Rpower (R2 / R1) (c - c')
          * (R1 * R1 / R2 * Rpower (R2 / R1) c' / sqrt (x * x + y * y + 1))).
  - rewrite shell_X_switch_scale, HX'. reflexivity.
  - replace c with ((c - c') + c') at 2 by ring.
    rewrite Rpower_plus. unfold Rdiv. ring.
Qed.

Lemma assert_positive_scaled (debug : bool) (k d : R) :
  0 < k ->
  P4EST_ASSERT debug (Rltb 0 (k * d)) = P4EST_ASSERT debug (Rltb 0 d).
Proof.
  intros Hk. f_equal. unfold Rltb.
  destruct (Rlt_dec 0 (k * d)) as [H | H]; destruct (Rlt_dec 0 d) as [H' | H'];
    try reflexivity; exfalso.
  - apply H'. nra.
  - apply H. apply Rmult_lt_0_compat; assumption.
Qed.

(** Scaling both radii of the shell by a factor k > 0 scales the image of
    X by k and the determinant returned by D by k^3, at every tree and
    every abc (and the two geometries stop on the same inputs). *)
Theorem shell_radii_scaling
    (SC_1000_EPS : R) (debug : bool) (J_local : mat3)
    (R2 R1 k : R) (which_tree : Z) (abc : vec3)
    (Hk : 0 < k) (HR1 : R1 <> 0) (HR2 : R2 <> 0) :
  let g := p8est_geometry_new_shell SC_1000_EPS debug J_local R2 R1 in
  let gk := p8est_geometry_new_shell SC_1000_EPS debug J_local (k * R2) (k * R1) in
  X gk which_tree abc = option_map (vec_scale k) (X g which_tree abc) /\
  D gk which_tree abc = option_map (Rmult (k ^ 3)) (D g which_tree abc).
Proof.
  intros g gk. subst g gk. shell_unfold. unfold Cmath.log.
  replace (k * R2 / (k * R1)) with (R2 / R1) by (field; split; lra).
  replace (k * R1 * (k * R1) / (k * R2)) with (k * (R1 * R1 / R2)) by (field; split; lra).
  split.
  - repeat match goal with
           | |- match ?a with Some _ => _ | None => None end
                = option_map _ (match ?a with Some _ => _ | None => None end) =>
               destruct a as [[]|]; [|reflexivity]
           end.
    rewrite <- shell_X_switch_scale. f_equal. unfold Rdiv. ring.
  - repeat match goal with
           | |- match ?a with Some _ => _ | None => None end
                = option_map _ (match ?a with Some _ => _ | None => None end) =>
               destruct a as [[]|]; [|reflexivity]
           end.
    match goal with
    | |- match P4EST_ASSERT debug (Rltb 0 ?e) with _ => _ end
         = option_map _ (match P4EST_ASSERT debug (Rltb 0 ?d) with _ => _ end) =>
        replace e with (k ^ 3 * d) by ring;
        rewrite (assert_positive_scaled debug (k ^ 3) d) by (apply pow_lt; exact Hk);
        destruct (P4EST_ASSERT debug (Rltb 0 d)); reflexivity
    end.
Qed.

Lemma shell_X_radial_ray_witness :
  let g := p8est_geometry_new_shell (1 / 1000) true mat_identity 2 1 in
  (0 < 1 / 1000 /\ 0 < 1 /\ 0 < 2 /\ (0 <= 5 < 24)%Z /\
   -1 <= 1 / 2 <= 1 /\ -1 <= -1 <= 1 /\ 1 <= 2 <= 2 /\ 1 <= 1 <= 2) /\
  exists xyz' : vec3,
    X g 5 (V3 (1 / 2) (-1) 1) = Some xyz' /\
    X g 5 (V3 (1 / 2) (-1) 2) = Some (vec_scale (Rpower (2 / 1) (2 - 1)) xyz').
Proof.
  intros g.
  assert (H0 : 0 < 1 / 1000) by lra.
  assert (H1 : 0 < 1) by lra.
  assert (H2 : 0 < 2) by lra.
  assert (H3 : (0 <= 5 < 24)%Z) by lia.
  assert (H4 : -1 <= 1 / 2 <= 1) by lra.
  assert (H5 : -1 <= -1 <= 1) by lra.
  assert (H6 : 1 <= 2 <= 2) by lra.
  assert (H7 : 1 <= 1 <= 2) by lra.
  split; [exact (conj H0 (conj H1 (conj H2 (conj H3 (conj H4 (conj H5 (conj H6 H7)))))))|].
  exact (shell_X_radial_ray (1 / 1000) true mat_identity 2 1 5 (1 / 2) (-1) 2 1
           H0 H1 H2 H3 H4 H5 H6 H7).
Defined.

Lemma shell_radii_scaling_witness :
  let g := p8est_geometry_new_shell (1 / 1000) false mat_identity 2 1 in
  let gk := p8est_geometry_new_shell (1 / 1000) false mat_identity (3 * 2) (3 * 1) in
  (0 < 3 /\ 1 <> 0 /\ 2 <> 0) /\
  X gk 5 (V3 (1 / 2) (-1) 2) = option_map (vec_scale 3) (X g 5 (V3 (1 / 2) (-1) 2)) /\
  D gk 5 (V3 (1 / 2) (-1) 2) = option_map (Rmult (3 ^ 3)) (D g 5 (V3 (1 / 2) (-1) 2)).
Proof.
  intros g gk.
  assert (H0 : 0 < 3) by lra.
  assert (H1 : 1 <> 0) by lra.
  assert (H2 : 2 <> 0) by lra.
  split; [exact (conj H0 (conj H1 H2))|].
  exact (shell_radii_scaling (1 / 1000) false mat_identity 2 1 3 5 (V3 (1 / 2) (-1) 2)
           H0 H1 H2).
Defined.
